(** * A heap model of the linked FIFO queue of [Queue.h]

    The class template [Queue<T>] keeps a singly linked chain of heap
    nodes together with a front pointer, a rear pointer and an [int]
    counter.  Nodes live in a store indexed by addresses, queue objects
    live in a second store indexed by object addresses, and every member
    function is a computation over that memory which may return, throw
    one of the three exception classes of the header, or run into
    undefined behaviour. *)

From Stdlib Require Import ZArith Lia List.
From stdpp Require Import gmap list fin_maps.

Local Open Scope Z_scope.

(** Addresses.  [Node*] is [option positive] with [None] for [nullptr];
    [Queue*] (and references to queue objects) are plain addresses. *)
Abbreviation loc := positive (only parsing).
Abbreviation qref := positive (only parsing).

(** The exception classes: [Queue<T>::EmptyQueue],
    [RawIterator::InvalidOperation] and [std::bad_alloc]. *)
Inductive exn : Type :=
  | EmptyQueue
  | InvalidOperation
  | bad_alloc.

(** Range of the C++ type [int]. *)
Definition INT_MAX : Z := 2147483647.
Definition INT_MIN : Z := -2147483648.

Section Model.

Context {T : Type}.

(** [struct Node { T data; Node* next; }] *)
Record Node : Type := mkNode {
  data : T;
  next : option loc
}.

(** The three data members of [Queue<T>]. *)
Record Queue : Type := mkQueue {
  m_front : option loc;
  m_rear : option loc;
  m_size : Z
}.

(** The two data members of [RawIterator]. *)
Record RawIterator : Type := mkIter {
  m_ptr : qref;
  m_currentNode : option loc
}.

(** Memory: the allocated nodes, the live queue objects, and the
    behaviour of the allocator.  The [i]-th coming call of [new] fails
    with [std::bad_alloc] when [plan !! i = Some false]; it succeeds on
    [Some true] and once the plan is used up. *)
Record Mem : Type := mkMem {
  nodes : gmap loc Node;
  queues : gmap qref Queue;
  plan : list bool
}.

Definition set_nodes (h : gmap loc Node) (m : Mem) : Mem :=
  mkMem h (queues m) (plan m).
Definition set_queues (qs : gmap qref Queue) (m : Mem) : Mem :=
  mkMem (nodes m) qs (plan m).
Definition set_plan (p : list bool) (m : Mem) : Mem :=
  mkMem (nodes m) (queues m) p.

(** ** Outcomes and the computation monad *)

(** A computation returns, leaves by an exception (the memory at the
    throw point is kept: nothing is rolled back), hits undefined
    behaviour ([Fault]: access through a null or dangling pointer, use of
    a dead object, signed overflow), or exhausts the loop budget of the
    model ([OutOfFuel]). *)
Inductive outcome (A : Type) : Type :=
  | Ret (a : A) (m : Mem)
  | Throw (e : exn) (m : Mem)
  | Fault
  | OutOfFuel.
Global Arguments Ret {A} a m.
Global Arguments Throw {A} e m.
Global Arguments Fault {A}.
Global Arguments OutOfFuel {A}.

Definition M (A : Type) : Type := Mem → outcome A.

Definition ret {A} (a : A) : M A := λ m, Ret a m.
Definition bind {A B} (c : M A) (k : A → M B) : M B :=
  λ m, match c m with
       | Ret a m' => k a m'
       | Throw e m' => Throw e m'
       | Fault => Fault
       | OutOfFuel => OutOfFuel
       end.
Definition throw {A} (e : exn) : M A := λ m, Throw e m.
Definition fault {A} : M A := λ _, Fault.
Definition out_of_fuel {A} : M A := λ _, OutOfFuel.

(** [try { c } catch (...) { h e }] where the handler sees which
    exception it caught. *)
Definition catch {A} (c : M A) (h : exn → M A) : M A :=
  λ m, match c m with
       | Throw e m' => h e m'
       | o => o
       end.

End Model.

Global Instance M_ret {T} : MRet (@M T) := @ret T.
Global Instance M_bind {T} : MBind (@M T) := λ A B k c, bind c k.

Section Operations.

Context {T : Type}.

Abbreviation Node := (@Node T).
Abbreviation Mem := (@Mem T).
Abbreviation M := (@M T).

(** ** Primitive memory accesses *)

(** Reading and writing the queue object at [this]. *)
Definition get_queue (this : qref) : M Queue :=
  λ m, match queues m !! this with
       | Some q => Ret q m
       | None => Fault
       end.
Definition put_queue (this : qref) (q : Queue) : M unit :=
  λ m, match queues m !! this with
       | Some _ => Ret () (set_queues (<[this := q]> (queues m)) m)
       | None => Fault
       end.

Definition get_m_front (this : qref) : M (option loc) :=
  q ← get_queue this; ret (m_front q).
Definition get_m_rear (this : qref) : M (option loc) :=
  q ← get_queue this; ret (m_rear q).
Definition get_m_size (this : qref) : M Z :=
  q ← get_queue this; ret (m_size q).
Definition set_m_front (this : qref) (p : option loc) : M unit :=
  q ← get_queue this; put_queue this (mkQueue p (m_rear q) (m_size q)).
Definition set_m_rear (this : qref) (p : option loc) : M unit :=
  q ← get_queue this; put_queue this (mkQueue (m_front q) p (m_size q)).
Definition set_m_size (this : qref) (z : Z) : M unit :=
  q ← get_queue this; put_queue this (mkQueue (m_front q) (m_rear q) z).

(** [m_size++] and [m_size--] on an [int]: leaving the range of [int] is
    undefined behaviour. *)
Definition incr_m_size (this : qref) : M unit :=
  z ← get_m_size this;
  if decide (z < INT_MAX) then set_m_size this (z + 1) else fault.
Definition decr_m_size (this : qref) : M unit :=
  z ← get_m_size this;
  if decide (INT_MIN < z) then set_m_size this (z - 1) else fault.

(** Storage for a queue object with the given initial members (a local
    variable, a temporary or a return slot): a fresh object address. *)
Definition alloc_queue (q : Queue) : M qref :=
  λ m, let r := fresh (dom (queues m)) in
       Ret r (set_queues (<[r := q]> (queues m)) m).
(** End of the storage of a queue object. *)
Definition free_queue (this : qref) : M unit :=
  λ m, match queues m !! this with
       | Some _ => Ret () (set_queues (delete this (queues m)) m)
       | None => Fault
       end.

(** [new Node(val)]: consults the allocator; a new node holds [val] and a
    null [next]. *)
Definition new_Node (val : T) : M loc :=
  λ m, match plan m with
       | false :: p => Throw bad_alloc (set_plan p m)
       | _ =>
           let l := fresh (dom (nodes m)) in
           Ret l (set_plan (tail (plan m))
                    (set_nodes (<[l := mkNode val None]> (nodes m)) m))
       end.

(** Access to the node behind a [Node*]. *)
Definition load (p : option loc) : M Node :=
  λ m, match p with
       | Some l => match nodes m !! l with
                   | Some n => Ret n m
                   | None => Fault
                   end
       | None => Fault
       end.
Definition store (p : option loc) (n : Node) : M unit :=
  λ m, match p with
       | Some l => match nodes m !! l with
                   | Some _ => Ret () (set_nodes (<[l := n]> (nodes m)) m)
                   | None => Fault
                   end
       | None => Fault
       end.

(** [p->next], [p->next = nx], and the reference [p->data]; a reference
    to the [data] member of a node is the address of that node. *)
Definition get_next (p : option loc) : M (option loc) :=
  n ← load p; ret (next n).
Definition set_next (p : option loc) (nx : option loc) : M unit :=
  n ← load p; store p (mkNode (data n) nx).
Definition data_ref (p : option loc) : M loc :=
  λ m, match p with
       | Some l => match nodes m !! l with
                   | Some _ => Ret l m
                   | None => Fault
                   end
       | None => Fault
       end.
(** Reading and writing through a [T&]. *)
Definition read_ref (r : loc) : M T :=
  n ← load (Some r); ret (data n).
Definition write_ref (r : loc) (v : T) : M unit :=
  n ← load (Some r); store (Some r) (mkNode v (next n)).

(** [delete p]: deleting a null pointer does nothing. *)
Definition delete_Node (p : option loc) : M unit :=
  λ m, match p with
       | Some l => match nodes m !! l with
                   | Some _ => Ret () (set_nodes (delete l (nodes m)) m)
                   | None => Fault
                   end
       | None => Ret () m
       end.

(** ** Member functions of [Queue<T>] *)

(** [Queue<T>::Queue()] *)
Definition Queue_default : M qref :=
  alloc_queue (mkQueue None None 0).

(** [Queue<T>::pushBack] *)
Definition pushBack (this : qref) (val : T) : M unit :=
  temp ← new_Node val;
  sz ← get_m_size this;
  if decide (sz = 0) then
    set_m_rear this (Some temp) ;;
    set_m_front this (Some temp) ;;
    incr_m_size this
  else
    r ← get_m_rear this;
    set_next r (Some temp) ;;
    set_m_rear this (Some temp) ;;
    incr_m_size this.

(** [Queue<T>::front] (the reference returned is the node address). *)
Definition front (this : qref) : M loc :=
  sz ← get_m_size this;
  if decide (sz = 0) then throw EmptyQueue
  else p ← get_m_front this; data_ref p.

(** [Queue<T>::front() const] *)
Definition front_const (this : qref) : M loc :=
  sz ← get_m_size this;
  if decide (sz = 0) then throw EmptyQueue
  else p ← get_m_front this; data_ref p.

(** [Queue<T>::popFront] *)
Definition popFront (this : qref) : M unit :=
  sz ← get_m_size this;
  if decide (sz = 0) then throw EmptyQueue
  else
    temp ← get_m_front this;
    nx ← get_next temp;
    set_m_front this nx ;;
    delete_Node temp ;;
    decr_m_size this.

(** [Queue<T>::size] *)
Definition size (this : qref) : M Z := get_m_size this.

(** [Queue<T>::begin] and [Queue<T>::end] (both overloads build the same
    pair of members). *)
Definition begin (this : qref) : M RawIterator :=
  p ← get_m_front this; ret (mkIter this p).
Definition end_ (this : qref) : RawIterator := mkIter this None.

(** ** Member functions of [RawIterator] *)

(** [operator*] *)
Definition operator_star (it : RawIterator) : M loc :=
  match m_currentNode it with
  | None => throw InvalidOperation
  | Some l => data_ref (Some l)
  end.

(** Prefix [operator++]: the result is the iterator after the step. *)
Definition operator_pre_incr (it : RawIterator) : M RawIterator :=
  match m_currentNode it with
  | None => throw InvalidOperation
  | Some l =>
      nx ← get_next (Some l); ret (mkIter (m_ptr it) nx)
  end.

(** Postfix [operator++]: the pair of the value returned (the iterator
    before the step) and the iterator after the step. *)
Definition operator_post_incr (it : RawIterator)
  : M (RawIterator * RawIterator) :=
  match m_currentNode it with
  | None => throw InvalidOperation
  | Some l =>
      let result := it in
      nx ← get_next (Some l); ret (result, mkIter (m_ptr it) nx)
  end.

(** [operator!=] *)
Definition operator_ne (a b : RawIterator) : bool :=
  negb (bool_decide (m_currentNode a = m_currentNode b)).

(** Conversion [RawIterator<T>] to [RawIterator<const T>]. *)
Definition to_const (it : RawIterator) : RawIterator :=
  mkIter (m_ptr it) (m_currentNode it).

(** ** Destructor, copy constructor, assignment *)

(** [Queue<T>::~Queue]: [while (m_size > 0) popFront();] *)
Fixpoint Queue_dtor (fuel : nat) (this : qref) : M unit :=
  match fuel with
  | O => out_of_fuel
  | S fuel' =>
      sz ← get_m_size this;
      if decide (0 < sz) then popFront this ;; Queue_dtor fuel' this
      else ret ()
  end.

(** A queue object going out of scope: destructor, then its storage. *)
Definition destroy (fuel : nat) (this : qref) : M unit :=
  Queue_dtor fuel this ;; free_queue this.

(** A block owning the local queue object [x]: the object is destroyed
    when the block is left, normally or by an exception. *)
Definition with_local {A} (fuel : nat) (x : qref) (body : M A) : M A :=
  a ← catch body (λ e, destroy fuel x ;; throw e);
  destroy fuel x ;; ret a.

(** The loop of the copy constructor:
    [for (iter = other.begin(); iter != other.end(); ++iter)
       this->pushBack( *iter );] *)
Fixpoint copy_loop (fuel : nat) (this other : qref) (iter : RawIterator)
  : M unit :=
  match fuel with
  | O => out_of_fuel
  | S fuel' =>
      if operator_ne iter (end_ other) then
        r ← operator_star iter;
        v ← read_ref r;
        pushBack this v ;;
        iter' ← operator_pre_incr iter;
        copy_loop fuel' this other iter'
      else ret ()
  end.

(** [Queue<T>::Queue(const Queue& other)].  On [std::bad_alloc] the
    handler runs the destructor and rethrows; an object whose
    constructor leaves by an exception never comes to life, so its
    storage goes in every such case. *)
Definition Queue_copy (fuel : nat) (other : qref) : M qref :=
  this ← alloc_queue (mkQueue None None 0);
  catch
    (iter ← begin other; copy_loop fuel this other iter)
    (λ e,
       (match e with
        | bad_alloc => Queue_dtor fuel this
        | _ => ret ()
        end) ;;
       free_queue this ;; throw e) ;;
  ret this.

(** [std::swap] on one data member of two queue objects. *)
Definition swap_m_front (a b : qref) : M unit :=
  x ← get_m_front a; y ← get_m_front b;
  set_m_front a y ;; set_m_front b x.
Definition swap_m_rear (a b : qref) : M unit :=
  x ← get_m_rear a; y ← get_m_rear b;
  set_m_rear a y ;; set_m_rear b x.
Definition swap_m_size (a b : qref) : M unit :=
  x ← get_m_size a; y ← get_m_size b;
  set_m_size a y ;; set_m_size b x.

(** [Queue<T>::operator=] *)
Definition operator_assign (fuel : nat) (this other : qref) : M qref :=
  if decide (this = other) then ret this
  else
    temp ← Queue_copy fuel other;
    with_local fuel temp
      (swap_m_front temp this ;;
       swap_m_rear temp this ;;
       swap_m_size temp this ;;
       ret this).

(** ** The free functions [filter] and [transform] *)

(** The range-based loop of [filter]; [e] is the end iterator, taken
    once before the loop. *)
Fixpoint filter_loop (fuel : nat) (filtered : qref) (predict : T → bool)
    (it e : RawIterator) : M unit :=
  match fuel with
  | O => out_of_fuel
  | S fuel' =>
      if operator_ne it e then
        r ← operator_star it;
        v ← read_ref r;
        (if predict v then pushBack filtered v else ret ()) ;;
        it' ← operator_pre_incr it;
        filter_loop fuel' filtered predict it' e
      else ret ()
  end.

(** [filter(queue, predict)].  The local [filtered] is the returned
    object; it is destroyed only when the loop leaves by an exception. *)
Definition filter (fuel : nat) (queue : qref) (predict : T → bool)
  : M qref :=
  filtered ← Queue_default;
  catch
    (it ← begin queue;
     filter_loop fuel filtered predict it (end_ queue))
    (λ e, destroy fuel filtered ;; throw e) ;;
  ret filtered.

(** The range-based loop of [transform].  The callable receives a
    [T&]; its effect on the referenced element is the function
    [transformer] from the old to the new value. *)
Fixpoint transform_loop (fuel : nat) (transformer : T → T)
    (it e : RawIterator) : M unit :=
  match fuel with
  | O => out_of_fuel
  | S fuel' =>
      if operator_ne it e then
        r ← operator_star it;
        v ← read_ref r;
        write_ref r (transformer v) ;;
        it' ← operator_pre_incr it;
        transform_loop fuel' transformer it' e
      else ret ()
  end.

(** [transform(queue, transformer)] *)
Definition transform (fuel : nat) (queue : qref) (transformer : T → T)
  : M unit :=
  transformed ← Queue_copy fuel queue;
  with_local fuel transformed
    (it ← begin transformed;
     transform_loop fuel transformer it (end_ transformed) ;;
     operator_assign fuel queue transformed ;;
     ret ()).

(** ** Observing a queue through its public interface *)

(** The client loop [for (it = begin; it != e; ++it) out.push_back( *it );]:
    the sequence of elements met between two iterators. *)
Fixpoint iterate (fuel : nat) (it e : RawIterator) : M (list T) :=
  match fuel with
  | O => out_of_fuel
  | S fuel' =>
      if operator_ne it e then
        r ← operator_star it;
        v ← read_ref r;
        it' ← operator_pre_incr it;
        vs ← iterate fuel' it' e;
        ret (v :: vs)
      else ret []
  end.

(** Front-to-back traversal of a whole queue. *)
Definition elements (fuel : nat) (this : qref) : M (list T) :=
  it ← begin this; iterate fuel it (end_ this).

(** Pushing a sequence of values, front first. *)
Fixpoint push_all (this : qref) (vs : list T) : M unit :=
  match vs with
  | [] => ret ()
  | v :: vs' => pushBack this v ;; push_all this vs'
  end.

(** [k] successive calls of [popFront], each preceded by a look at
    [front()]: the values seen, in the order of removal. *)
Fixpoint pop_n (k : nat) (this : qref) : M (list T) :=
  match k with
  | O => ret []
  | S k' =>
      r ← front this;
      v ← read_ref r;
      popFront this ;;
      vs ← pop_n k' this;
      ret (v :: vs)
  end.

(** [k] prefix increments in a row. *)
Fixpoint advance (k : nat) (it : RawIterator) : M RawIterator :=
  match k with
  | O => ret it
  | S k' => it' ← operator_pre_incr it; advance k' it'
  end.

End Operations.

(** The memory before any object exists, with a given allocator plan. *)
Definition init_mem {T} (p : list bool) : @Mem T := mkMem ∅ ∅ p.

(** [allocs_ok n p]: none of the next [n] calls of [new] fails. *)
Definition allocs_ok (n : nat) (p : list bool) : bool :=
  forallb (λ b, b) (take n p).

(** * Specification notions *)

Section Notions.

Context {T : Type}.

Abbreviation Node := (@Node T).
Abbreviation Mem := (@Mem T).
Abbreviation M := (@M T).

(** [wp c m O Q E]: run from [m], the computation [c] returns in a state
    satisfying [Q], or throws in a state satisfying [E]; it never
    faults, and it runs out of fuel only if [O]. *)
Definition wp {A} (c : M A) (m : Mem) (O : Prop)
    (Q : A → Mem → Prop) (E : exn → Mem → Prop) : Prop :=
  match c m with
  | Ret a m' => Q a m'
  | Throw e m' => E e m'
  | Fault => False
  | OutOfFuel => O
  end.

(** [chain h p cs]: starting at pointer [p] and following [next], the
    heap [h] holds exactly the nodes [cs] (address and element), the
    last one with a null [next]. *)
Fixpoint chain (h : gmap loc Node) (p : option loc)
    (cs : list (loc * T)) : Prop :=
  match cs with
  | [] => p = None
  | c :: cs' =>
      p = Some c.1 ∧
      ∃ nx, h !! c.1 = Some (mkNode c.2 nx) ∧ chain h nx cs'
  end.

(** A queue object [q] represents the cells [cs] in heap [h]. *)
Definition wfq (h : gmap loc Node) (q : Queue) (cs : list (loc * T))
  : Prop :=
  chain h (m_front q) cs ∧
  m_size q = Z.of_nat (length cs) ∧
  m_size q ≤ INT_MAX ∧
  NoDup cs.*1 ∧
  (cs ≠ [] → m_rear q = last cs.*1).

(** [Rep m G]: the live queue objects of [m] are exactly the keys of
    [G], each represents its cells, and no node belongs to two queues. *)
Definition Rep (m : Mem) (G : gmap qref (list (loc * T))) : Prop :=
  dom (queues m) = dom G ∧
  (∀ r q cs, queues m !! r = Some q → G !! r = Some cs →
             wfq (nodes m) q cs) ∧
  (∀ r1 r2 cs1 cs2 l, r1 ≠ r2 → G !! r1 = Some cs1 → G !! r2 = Some cs2 →
                      l ∈ cs1.*1 → l ∉ cs2.*1).

(** A well-formed memory. *)
Definition wf_mem (m : Mem) : Prop := ∃ G, Rep m G.

(** [holds m q vs]: in the well-formed memory [m], [q] is a live queue
    whose elements, front to back, are [vs]. *)
Definition holds (m : Mem) (q : qref) (vs : list T) : Prop :=
  ∃ G cs, Rep m G ∧ G !! q = Some cs ∧ cs.*2 = vs.

(** [observes m q vs]: in [m], [size()] of [q] returns the length of
    [vs], and a traversal from [begin()] to [end()] yields [vs]; neither
    changes the memory. *)
Definition observes (m : Mem) (q : qref) (vs : list T) : Prop :=
  size q m = Ret (Z.of_nat (length vs)) m ∧
  ∀ fuel, (length vs < fuel)%nat → elements fuel q m = Ret vs m.

(** [ends_in o m']: the outcome [o] is a return or a throw, in state [m']. *)
Definition ends_in {A} (o : outcome A) (m' : Mem) : Prop :=
  match o with
  | Ret _ m | Throw _ m => m = m'
  | _ => False
  end.

(** The two mutating member functions a client can call on a queue. *)
Inductive mutation : Type :=
  | Push (v : T)
  | Pop.

Definition mutate (q : qref) (μ : mutation) : M unit :=
  match μ with
  | Push v => pushBack q v
  | Pop => popFront q
  end.

(** [mutated a b m m']: [m'] comes from [m] by completed calls (returned
    or thrown) of [pushBack] and [popFront] on [a] and on [b], in any
    order. *)
Inductive mutated (a b : qref) : Mem → Mem → Prop :=
  | mutated_refl m : mutated a b m m
  | mutated_step m x μ m1 m2 :
      x = a ∨ x = b →
      ends_in (mutate x μ m) m1 →
      mutated a b m1 m2 →
      mutated a b m m2.

(** Memories reachable from the empty one through the public interface,
    each call made on live queue objects and completed by a return or
    by an exception. *)
Inductive reachable : Mem → Prop :=
  | reach_init p : reachable (init_mem p)
  | reach_default m m' :
      reachable m → ends_in (Queue_default m) m' → reachable m'
  | reach_copy m fuel other m' :
      reachable m → is_Some (queues m !! other) →
      ends_in (Queue_copy fuel other m) m' → reachable m'
  | reach_assign m fuel this other m' :
      reachable m → is_Some (queues m !! this) →
      is_Some (queues m !! other) →
      ends_in (operator_assign fuel this other m) m' → reachable m'
  | reach_pushBack m this v m' :
      reachable m → is_Some (queues m !! this) →
      ends_in (pushBack this v m) m' → reachable m'
  | reach_popFront m this m' :
      reachable m → is_Some (queues m !! this) →
      ends_in (popFront this m) m' → reachable m'
  | reach_destroy m fuel this m' :
      reachable m → is_Some (queues m !! this) →
      ends_in (destroy fuel this m) m' → reachable m'
  | reach_filter m fuel queue predict m' :
      reachable m → is_Some (queues m !! queue) →
      ends_in (filter fuel queue predict m) m' → reachable m'
  | reach_transform m fuel queue f m' :
      reachable m → is_Some (queues m !! queue) →
      ends_in (transform fuel queue f m) m' → reachable m'.

(** [independent_copies m c q vs]: in [m] the queues [c] and [q] both
    show the elements [vs], and from then on, after any interleaving of
    completed mutations of the two, one more mutation of either leaves
    the size and the element sequence of the other as they were. *)
Definition independent_copies (m : Mem) (c q : qref) (vs : list T) : Prop :=
  observes m c vs ∧ observes m q vs ∧
  ∀ m2, mutated c q m m2 →
    ∃ vc vq, observes m2 c vc ∧ observes m2 q vq ∧
      (∀ μ m3, ends_in (mutate c μ m2) m3 → observes m3 q vq) ∧
      (∀ μ m3, ends_in (mutate q μ m2) m3 → observes m3 c vc).

(** The calls a client can make. *)
Inductive call : Type :=
  | CDefault
  | CCopy (fuel : nat) (other : qref)
  | CAssign (fuel : nat) (this other : qref)
  | CPush (this : qref) (v : T)
  | CPop (this : qref)
  | CDestroy (fuel : nat) (this : qref)
  | CFilter (fuel : nat) (queue : qref) (predict : T → bool)
  | CTransform (fuel : nat) (queue : qref) (f : T → T).

(** The memory a completed computation ends in. *)
Definition final {A} (o : outcome A) : option Mem :=
  match o with
  | Ret _ m | Throw _ m => Some m
  | _ => None
  end.

Definition live (m : Mem) (q : qref) : bool :=
  bool_decide (is_Some (queues m !! q)).

(** One call on live objects, completed. *)
Definition perform (c : call) (m : Mem) : option Mem :=
  match c with
  | CDefault => final (Queue_default m)
  | CCopy fuel other =>
      if live m other then final (Queue_copy fuel other m) else None
  | CAssign fuel this other =>
      if live m this && live m other
      then final (operator_assign fuel this other m) else None
  | CPush this v =>
      if live m this then final (pushBack this v m) else None
  | CPop this =>
      if live m this then final (popFront this m) else None
  | CDestroy fuel this =>
      if live m this then final (destroy fuel this m) else None
  | CFilter fuel queue predict =>
      if live m queue then final (filter fuel queue predict m) else None
  | CTransform fuel queue f =>
      if live m queue then final (transform fuel queue f m) else None
  end.

(** A script runs its calls in order and stops at the first one that
    cannot be completed. *)
Fixpoint run_calls (cs : list call) (m : Mem) : Mem :=
  match cs with
  | [] => m
  | c :: cs' =>
      match perform c m with
      | Some m' => run_calls cs' m'
      | None => m
      end
  end.

(** The invariant as the specification words it. *)
Definition claimed_invariant (q : Queue) : Prop :=
  (m_size q = 0 ↔ m_front q = None) ∧ (m_front q = None ↔ m_rear q = None).

(** [Tight m G]: every allocated node is a cell of some queue of [G]. *)
Definition Tight (m : Mem) (G : gmap qref (list (loc * T))) : Prop :=
  ∀ l, is_Some (nodes m !! l) → ∃ r cs, G !! r = Some cs ∧ l ∈ cs.*1.

(** [Own m G]: [G] represents [m] and accounts for every node of it. *)
Definition Own (m : Mem) (G : gmap qref (list (loc * T))) : Prop :=
  Rep m G ∧ Tight m G.

(** The queue object a call works on in place, if any; the other calls
    only create a queue object. *)
Definition target (c : call) : option qref :=
  match c with
  | CDefault | CCopy _ _ | CFilter _ _ _ => None
  | CAssign _ this _ | CPush this _ | CPop this | CDestroy _ this
  | CTransform _ this _ => Some this
  end.

End Notions.

(** * Concrete memories over [Z] *)

(** One default-constructed queue, at object address 1. *)
Definition ex_empty : @Mem Z := run_calls [CDefault] (init_mem []).

(** Queue 1 holding a single element. *)
Definition ex_one : @Mem Z := run_calls [CDefault; CPush 1 5] (init_mem []).

(** Queue 1 after its only element was popped. *)
Definition ex_popped : @Mem Z :=
  run_calls [CDefault; CPush 1 5; CPop 1] (init_mem []).

(** Queue 1 holding 1, 2, 3. *)
Definition ex_123 : @Mem Z :=
  run_calls [CDefault; CPush 1 1; CPush 1 2; CPush 1 3] (init_mem []).

(** Queue 1 holding 1, 2, 3 and queue 2 holding 7, with an allocator
    that will serve one more node and then fail. *)
Definition ex_two : @Mem Z :=
  run_calls [CDefault; CPush 1 1; CPush 1 2; CPush 1 3; CDefault; CPush 2 7]
    (init_mem [true; true; true; true; true; false]).

(** Queue 1 freshly constructed, with an allocator that refuses the
    next node. *)
Definition ex_fail : @Mem Z := run_calls [CDefault] (init_mem [false]).

(** Queue 1 holding 1, 2, 3, with an allocator that will serve four more
    nodes and then fail. *)
Definition ex_123_low : @Mem Z :=
  run_calls [CDefault; CPush 1 1; CPush 1 2; CPush 1 3]
    (init_mem [true; true; true; true; true; true; true; false]).

(** * User code that throws

    [Queue<T>] runs code of its user in three places: the copy
    constructor of [T], twice in [new Node(val)] (the by-value parameter
    of [Node(T data)] and the member [data]); the predicate of [filter];
    and the callable of [transform].  The operations above are the case
    in which none of it throws.  Here each of them can throw; apart from
    that the definitions are the same statements of [Queue.h].

    User code may throw any exception class of the model.  The code of
    [Queue.h] tells exceptions apart in one place only, the handler
    [catch (std::bad_alloc&)] of the copy constructor, so an exception
    class of the user's own behaves like [EmptyQueue] or
    [InvalidOperation] thrown by user code. *)

Module User.

(** What a call of user code does: it returns a value or throws. *)
Inductive answer (A : Type) : Type :=
  | Returns (a : A)
  | Raises (e : exn).
Global Arguments Returns {A} a.
Global Arguments Raises {A} e.

Section Code.

Context {T : Type}.

Abbreviation Node := (@Node T).
Abbreviation Mem := (@Mem T).
Abbreviation M := (@M T).

(** The copy constructor of [T] during one call: [T_copy v] is the
    exception that copying [v] throws, if any; a copy that is made
    equals [v]. *)
Variable T_copy : T → option exn.

(** [T_copy] throws nothing but [std::bad_alloc] (as the copy
    constructors of the standard containers do). *)
Definition only_bad_alloc : Prop := ∀ v e, T_copy v = Some e → e = bad_alloc.

Definition call_user {A} (u : answer A) : M A :=
  λ m, match u with
       | Returns a => Ret a m
       | Raises e => Throw e m
       end.

(** [new Node(val)]: the storage is obtained first; [Node(T data)] then
    copies [val] into its parameter and the parameter into the member.
    When a copy throws, the new-expression gives the storage back and
    the exception leaves: no node has been added. *)
Definition new_Node (val : T) : M loc :=
  λ m, match plan m with
       | false :: p => Throw bad_alloc (set_plan p m)
       | _ =>
           match T_copy val with
           | Some e => Throw e (set_plan (tail (plan m)) m)
           | None =>
               let l := fresh (dom (nodes m)) in
               Ret l (set_plan (tail (plan m))
                        (set_nodes (<[l := mkNode val None]> (nodes m)) m))
           end
       end.

(** [Queue<T>::pushBack] *)
Definition pushBack (this : qref) (val : T) : M unit :=
  temp ← new_Node val;
  sz ← get_m_size this;
  if decide (sz = 0) then
    set_m_rear this (Some temp) ;;
    set_m_front this (Some temp) ;;
    incr_m_size this
  else
    r ← get_m_rear this;
    set_next r (Some temp) ;;
    set_m_rear this (Some temp) ;;
    incr_m_size this.

(** The loop of the copy constructor. *)
Fixpoint copy_loop (fuel : nat) (this other : qref) (iter : RawIterator)
  : M unit :=
  match fuel with
  | O => out_of_fuel
  | S fuel' =>
      if operator_ne iter (end_ other) then
        r ← operator_star iter;
        v ← read_ref r;
        pushBack this v ;;
        iter' ← operator_pre_incr iter;
        copy_loop fuel' this other iter'
      else ret ()
  end.

(** [Queue<T>::Queue(const Queue& other)].  The handler catches
    [std::bad_alloc] only: any other exception leaves the constructor
    with the nodes pushed so far still allocated.  The object under
    construction never comes to life, so its storage goes in both
    cases. *)
Definition Queue_copy (fuel : nat) (other : qref) : M qref :=
  this ← alloc_queue (mkQueue None None 0);
  catch
    (iter ← begin other; copy_loop fuel this other iter)
    (λ e,
       (match e with
        | bad_alloc => Queue_dtor fuel this
        | _ => ret ()
        end) ;;
       free_queue this ;; throw e) ;;
  ret this.

(** [Queue<T>::operator=] *)
Definition operator_assign (fuel : nat) (this other : qref) : M qref :=
  if decide (this = other) then ret this
  else
    temp ← Queue_copy fuel other;
    with_local fuel temp
      (swap_m_front temp this ;;
       swap_m_rear temp this ;;
       swap_m_size temp this ;;
       ret this).

(** The range-based loop of [filter], with a predicate that may
    throw. *)
Fixpoint filter_loop (fuel : nat) (filtered : qref)
    (predict : T → answer bool) (it e : RawIterator) : M unit :=
  match fuel with
  | O => out_of_fuel
  | S fuel' =>
      if operator_ne it e then
        r ← operator_star it;
        v ← read_ref r;
        b ← call_user (predict v);
        (if b : bool then pushBack filtered v else ret ()) ;;
        it' ← operator_pre_incr it;
        filter_loop fuel' filtered predict it' e
      else ret ()
  end.

(** [filter(queue, predict)].  The local [filtered] is destroyed when
    the function is left by an exception.  On [return filtered;] the
    compiler may take the local for the returned object ([elide]) or
    copy-construct the returned object from it and destroy the local;
    both are allowed. *)
Definition filter (elide : bool) (fuel : nat) (queue : qref)
    (predict : T → answer bool) : M qref :=
  filtered ← Queue_default;
  result ← catch
    (it ← begin queue;
     filter_loop fuel filtered predict it (end_ queue) ;;
     if elide then ret filtered else Queue_copy fuel filtered)
    (λ e, destroy fuel filtered ;; throw e);
  (if elide then ret () else destroy fuel filtered) ;;
  ret result.

(** The range-based loop of [transform].  The callable receives a [T&]:
    [(transformer v).1] is the value it leaves in the element and
    [(transformer v).2] the exception it throws, if any. *)
Fixpoint transform_loop (fuel : nat) (transformer : T → T * option exn)
    (it e : RawIterator) : M unit :=
  match fuel with
  | O => out_of_fuel
  | S fuel' =>
      if operator_ne it e then
        r ← operator_star it;
        v ← read_ref r;
        write_ref r (transformer v).1 ;;
        (match (transformer v).2 with
         | Some x => throw x
         | None => ret ()
         end) ;;
        it' ← operator_pre_incr it;
        transform_loop fuel' transformer it' e
      else ret ()
  end.

(** [transform(queue, transformer)] *)
Definition transform (fuel : nat) (queue : qref)
    (transformer : T → T * option exn) : M unit :=
  transformed ← Queue_copy fuel queue;
  with_local fuel transformed
    (it ← begin transformed;
     transform_loop fuel transformer it (end_ transformed) ;;
     operator_assign fuel queue transformed ;;
     ret ()).

End Code.

Section Reach.

Context {T : Type}.

(** Memories reachable from the empty one through the public interface
    when user code throws.  The predicate and the callable throw what
    they like; so does the copy constructor of [T] in [pushBack] and in
    [filter] with the returned object elided; while a queue is being
    copied it throws nothing but [std::bad_alloc]. *)
Inductive reachable : @Mem T → Prop :=
  | reach_init p : reachable (init_mem p)
  | reach_default m m' :
      reachable m → ends_in (Queue_default m) m' → reachable m'
  | reach_copy m T_copy fuel other m' :
      reachable m → is_Some (queues m !! other) →
      only_bad_alloc T_copy →
      ends_in (Queue_copy T_copy fuel other m) m' → reachable m'
  | reach_assign m T_copy fuel this other m' :
      reachable m → is_Some (queues m !! this) →
      is_Some (queues m !! other) →
      only_bad_alloc T_copy →
      ends_in (operator_assign T_copy fuel this other m) m' → reachable m'
  | reach_pushBack m T_copy this v m' :
      reachable m → is_Some (queues m !! this) →
      ends_in (pushBack T_copy this v m) m' → reachable m'
  | reach_popFront m this m' :
      reachable m → is_Some (queues m !! this) →
      ends_in (popFront this m) m' → reachable m'
  | reach_destroy m fuel this m' :
      reachable m → is_Some (queues m !! this) →
      ends_in (destroy fuel this m) m' → reachable m'
  | reach_filter m T_copy elide fuel queue predict m' :
      reachable m → is_Some (queues m !! queue) →
      elide = true ∨ only_bad_alloc T_copy →
      ends_in (filter T_copy elide fuel queue predict m) m' → reachable m'
  | reach_transform m T_copy fuel queue transformer m' :
      reachable m → is_Some (queues m !! queue) →
      only_bad_alloc T_copy →
      ends_in (transform T_copy fuel queue transformer m) m' →
      reachable m'.

(** [copy_left T_copy m G cs e m']: the memory [m'] in which a copy of
    a queue with cells [cs], started in [m], is left by the exception
    [e].  The queue objects are those of [m]; the copy failed at the
    element [v] that follows the copied elements [new]; after
    [std::bad_alloc] the nodes are owned as in [m]; after any other
    exception the nodes of [new] had been pushed on the object under
    construction and stay behind when its storage goes. *)
Definition copy_left (T_copy : T → option exn) (m : @Mem T)
    (G : gmap qref (list (loc * T))) (cs : list (loc * T)) (e : exn)
    (m' : @Mem T) : Prop :=
  queues m' = queues m ∧
  ∃ (new : list (loc * T)) v post,
    cs.*2 = new.*2 ++ v :: post ∧
    (e = bad_alloc ∨ T_copy v = Some e) ∧
    (e = bad_alloc → Own m' G) ∧
    (e ≠ bad_alloc →
     ∃ this q1 m1, G !! this = None ∧ Own m1 (<[this := new]> G) ∧
                   queues m1 = <[this := q1]> (queues m) ∧
                   m' = set_queues (delete this (queues m1)) m1).

End Reach.

End User.

(** User code over [Z]: a copy constructor that throws
    [InvalidOperation] on 3, one that throws [std::bad_alloc] on 6, a
    predicate that keeps everything and throws on 3, and a callable that
    doubles the element and throws once it has doubled 2. *)
Definition ex_copy_throws (v : Z) : option exn :=
  if v =? 3 then Some InvalidOperation else None.
Definition ex_copy_bad_alloc (v : Z) : option exn :=
  if v =? 6 then Some bad_alloc else None.
Definition ex_predict_throws (v : Z) : User.answer bool :=
  if v =? 3 then User.Raises EmptyQueue else User.Returns true.
Definition ex_transformer_throws (v : Z) : Z * option exn :=
  (2 * v, if v =? 2 then Some EmptyQueue else None).

(** The memory in which a [filter] on queue 1 of [ex_123] is left by the
    exception of the predicate. *)
Definition ex_after_throw : @Mem Z :=
  match User.filter ex_copy_throws true 10 1 ex_predict_throws ex_123 with
  | Throw _ m => m
  | _ => ex_123
  end.

(** Queue 1 holding 1, 2, 3 and queue 2 holding 7, with an allocator
    that never fails. *)
Definition ex_pair : @Mem Z :=
  run_calls [CDefault; CPush 1 1; CPush 1 2; CPush 1 3; CDefault; CPush 2 7]
    (init_mem []).

(** * Reasoning about computations *)

Section Logic.

Context {T : Type}.

Abbreviation Node := (@Node T).
Abbreviation Mem := (@Mem T).
Abbreviation M := (@M T).
Abbreviation init_mem := (@init_mem T).
Abbreviation wp := (@wp T).
Abbreviation chain := (@chain T).
Abbreviation wfq := (@wfq T).
Abbreviation Rep := (@Rep T).
Abbreviation wf_mem := (@wf_mem T).
Abbreviation holds := (@holds T).
Abbreviation observes := (@observes T).
Abbreviation ends_in := (@ends_in T).
Abbreviation mutation := (@mutation T).
Abbreviation Pop := (@Pop T).
Abbreviation mutated := (@mutated T).
Abbreviation reachable := (@reachable T).
Abbreviation call := (@call T).
Abbreviation final := (@final T).
Abbreviation live := (@live T).
Abbreviation mutate := (@mutate T).
Abbreviation perform := (@perform T).
Abbreviation run_calls := (@run_calls T).
Abbreviation independent_copies := (@independent_copies T).
Abbreviation target := (@target T).
Abbreviation Tight := (@Tight T).
Abbreviation Own := (@Own T).

Lemma wp_ret {A} (a : A) m O Q E : Q a m → wp (mret a) m O Q E.
Proof. done. Qed.

Lemma wp_throw {A} e m O (Q : A → Mem → Prop) E :
  E e m → wp (throw e) m O Q E.
Proof. done. Qed.

Lemma wp_bind {A B} (c : M A) (k : A → M B) m O Q E :
  wp c m O (λ a m', wp (k a) m' O Q E) E → wp (c ≫= k) m O Q E.
Proof.
  unfold wp, mbind, M_bind, bind. by destruct (c m).
Qed.

Lemma wp_catch {A} (c : M A) h m O Q E :
  wp c m O Q (λ e m', wp (h e) m' O Q E) → wp (catch c h) m O Q E.
Proof.
  unfold wp, catch. by destruct (c m).
Qed.

Lemma wp_mono {A} (c : M A) m (O O' : Prop) (Q Q' : A → Mem → Prop)
    (E E' : exn → Mem → Prop) :
  wp c m O Q E →
  (O → O') → (∀ a m', Q a m' → Q' a m') → (∀ e m', E e m' → E' e m') →
  wp c m O' Q' E'.
Proof.
  unfold wp. destruct (c m); eauto.
Qed.

(** A computation with a known outcome. *)
Lemma wp_eq_ret {A} (c : M A) m a m' O (Q : A → Mem → Prop) E :
  c m = Ret a m' → Q a m' → wp c m O Q E.
Proof. unfold wp. by intros ->. Qed.

Lemma wp_eq_throw {A} (c : M A) m e m' O (Q : A → Mem → Prop)
    (E : exn → Mem → Prop) :
  c m = Throw e m' → E e m' → wp c m O Q E.
Proof. unfold wp. by intros ->. Qed.

Lemma bind_ret_eq {A B} (c : M A) (k : A → M B) m a m' :
  c m = Ret a m' → (c ≫= k) m = k a m'.
Proof. unfold mbind, M_bind, bind. by intros ->. Qed.

Lemma bind_throw_eq {A B} (c : M A) (k : A → M B) m e m' :
  c m = Throw e m' → (c ≫= k) m = Throw e m'.
Proof. unfold mbind, M_bind, bind. by intros ->. Qed.

(** ** The chain of nodes of a queue *)

Lemma chain_head h p cs : chain h p cs → p = head cs.*1.
Proof. destruct cs as [|[l v] cs]; simpl; [done | by intros [-> _]]. Qed.

Lemma chain_lookup h p cs l :
  chain h p cs → l ∈ cs.*1 → is_Some (h !! l).
Proof.
  revert p. induction cs as [|[l0 v0] cs IH]; simpl; intros p Hc Hl.
  - by apply elem_of_nil in Hl.
  - destruct Hc as (_ & nx & Hl0 & Hc).
    apply elem_of_cons in Hl as [->|Hl]; eauto.
Qed.

Lemma chain_agree h h' p cs :
  (∀ l, l ∈ cs.*1 → h' !! l = h !! l) → chain h p cs → chain h' p cs.
Proof.
  revert p. induction cs as [|[l0 v0] cs IH]; simpl; intros p Hag Hc; [done|].
  destruct Hc as (-> & nx & Hl0 & Hc). split; [done|].
  exists nx. split.
  - rewrite Hag; [done | apply elem_of_cons; by left].
  - apply IH; [|done]. intros l Hl. apply Hag, elem_of_cons. by right.
Qed.

Lemma chain_suffix h p xs ys :
  chain h p (xs ++ ys) → chain h (head ys.*1) ys.
Proof.
  revert p. induction xs as [|x xs IH]; simpl; intros p Hc.
  - by rewrite <- (chain_head _ _ _ Hc).
  - destruct Hc as (_ & nx & _ & Hc). eauto.
Qed.

(** ** Closed forms of the member functions *)

Ltac run_defs :=
  do 2 unfold pushBack, popFront, front, front_const, size, begin,
    incr_m_size, decr_m_size, set_m_front, set_m_rear, set_m_size,
    get_m_front, get_m_rear, get_m_size, set_next, get_next, read_ref,
    write_ref, get_queue, put_queue, new_Node, load, store, data_ref,
    delete_Node, operator_star, operator_pre_incr, operator_post_incr,
    swap_m_front, swap_m_rear, swap_m_size, free_queue, alloc_queue,
    Queue_default,
    mbind, M_bind, bind, mret, M_ret, ret, throw, fault,
    set_plan, set_nodes, set_queues; simpl.

Ltac crunch :=
  repeat (simpl; match goal with
    | H : ?a = Some _ |- context [?a] => rewrite H
    | |- context [<[?k := _]> _ !! ?k] => rewrite lookup_insert_eq
    | H : ?k ≠ ?k' |- context [<[?k := _]> _ !! ?k'] =>
        rewrite (lookup_insert_ne _ k k') by exact H
    | H : ?k' ≠ ?k |- context [<[?k := _]> _ !! ?k'] =>
        rewrite (lookup_insert_ne _ k k') by (intros ?; by apply H)
    | |- context [<[?k := _]> (<[?k := _]> _)] => rewrite insert_insert_eq
    | |- context [decide ?P] =>
        first [ rewrite (decide_True (P:=P)) by (simpl; first [lia | done])
              | rewrite (decide_False (P:=P))
                  by (simpl; first [lia | done]) ]
    end).

Lemma fresh_node_ne (h : gmap loc Node) l :
  is_Some (h !! l) → l ≠ fresh (dom h).
Proof.
  intros Hl ->. apply (is_fresh (dom h)). by apply elem_of_dom.
Qed.

Lemma pushBack_fail this (v : T) (m : Mem) p :
  plan m = false :: p → pushBack this v m = Throw bad_alloc (set_plan p m).
Proof. intros Hp. run_defs. by rewrite Hp. Qed.

Lemma pushBack_first this (v : T) (m : Mem) q :
  head (plan m) ≠ Some false → queues m !! this = Some q → m_size q = 0 →
  pushBack this v m =
    Ret () (mkMem (<[fresh (dom (nodes m)) := mkNode v None]> (nodes m))
              (<[this := mkQueue (Some (fresh (dom (nodes m))))
                           (Some (fresh (dom (nodes m)))) 1]> (queues m))
              (tail (plan m))).
Proof.
  intros Hp Hq Hz. run_defs.
  destruct (plan m) as [|[] p]; simpl in *; try congruence;
    crunch; unfold INT_MAX; crunch; by rewrite Hz.
Qed.

Lemma pushBack_next this (v : T) (m : Mem) q r n :
  head (plan m) ≠ Some false → queues m !! this = Some q →
  m_size q ≠ 0 → m_size q < INT_MAX →
  m_rear q = Some r → nodes m !! r = Some n →
  pushBack this v m =
    Ret () (mkMem (<[r := mkNode (data n) (Some (fresh (dom (nodes m))))]>
                     (<[fresh (dom (nodes m)) := mkNode v None]> (nodes m)))
              (<[this := mkQueue (m_front q) (Some (fresh (dom (nodes m))))
                           (m_size q + 1)]> (queues m))
              (tail (plan m))).
Proof.
  intros Hp Hq Hz Hlt Hr Hn.
  pose proof (fresh_node_ne (nodes m) r (mk_is_Some _ _ Hn)) as Hne.
  run_defs.
  destruct (plan m) as [|[] p]; simpl in *; try congruence; crunch; done.
Qed.

Lemma popFront_empty this (m : Mem) q :
  queues m !! this = Some q → m_size q = 0 →
  popFront this m = Throw EmptyQueue m.
Proof. intros Hq Hz. run_defs. crunch. done. Qed.

Lemma popFront_node this (m : Mem) q l n :
  queues m !! this = Some q → m_size q ≠ 0 → INT_MIN < m_size q →
  m_front q = Some l → nodes m !! l = Some n →
  popFront this m =
    Ret () (mkMem (delete l (nodes m))
              (<[this := mkQueue (next n) (m_rear q) (m_size q - 1)]>
                 (queues m))
              (plan m)).
Proof. intros Hq Hz Hlt Hf Hn. run_defs. crunch. done. Qed.

Lemma front_empty this (m : Mem) q :
  queues m !! this = Some q → m_size q = 0 →
  front this m = Throw EmptyQueue m.
Proof. intros Hq Hz. run_defs. crunch. done. Qed.

Lemma front_const_empty this (m : Mem) q :
  queues m !! this = Some q → m_size q = 0 →
  front_const this m = Throw EmptyQueue m.
Proof. intros Hq Hz. run_defs. crunch. done. Qed.

Lemma front_node this (m : Mem) q l n :
  queues m !! this = Some q → m_size q ≠ 0 →
  m_front q = Some l → nodes m !! l = Some n →
  front this m = Ret l m.
Proof. intros Hq Hz Hf Hn. run_defs. crunch. done. Qed.

Lemma front_const_node this (m : Mem) q l n :
  queues m !! this = Some q → m_size q ≠ 0 →
  m_front q = Some l → nodes m !! l = Some n →
  front_const this m = Ret l m.
Proof. intros Hq Hz Hf Hn. run_defs. crunch. done. Qed.

Lemma size_eq this (m : Mem) q :
  queues m !! this = Some q → size this m = Ret (m_size q) m.
Proof. intros Hq. run_defs. crunch. done. Qed.

Lemma get_m_size_eq this (m : Mem) q :
  queues m !! this = Some q → get_m_size this m = Ret (m_size q) m.
Proof. intros Hq. run_defs. crunch. done. Qed.

Lemma begin_eq this (m : Mem) q :
  queues m !! this = Some q → begin this m = Ret (mkIter this (m_front q)) m.
Proof. intros Hq. run_defs. crunch. done. Qed.

Lemma read_ref_eq l (m : Mem) n :
  nodes m !! l = Some n → read_ref l m = Ret (data n) m.
Proof. intros Hn. run_defs. crunch. done. Qed.

Lemma write_ref_eq l (v : T) (m : Mem) n :
  nodes m !! l = Some n →
  write_ref l v m = Ret () (set_nodes (<[l := mkNode v (next n)]> (nodes m)) m).
Proof. intros Hn. run_defs. crunch. done. Qed.

Lemma operator_star_end r (m : Mem) :
  operator_star (mkIter r None) m = Throw InvalidOperation m.
Proof. done. Qed.

Lemma operator_star_node r l (m : Mem) n :
  nodes m !! l = Some n → operator_star (mkIter r (Some l)) m = Ret l m.
Proof. intros Hn. run_defs. crunch. done. Qed.

Lemma operator_pre_incr_end r (m : Mem) :
  operator_pre_incr (mkIter r None) m = Throw InvalidOperation m.
Proof. done. Qed.

Lemma operator_pre_incr_node r l (m : Mem) n :
  nodes m !! l = Some n →
  operator_pre_incr (mkIter r (Some l)) m = Ret (mkIter r (next n)) m.
Proof. intros Hn. run_defs. crunch. done. Qed.

Lemma operator_post_incr_end r (m : Mem) :
  operator_post_incr (mkIter r None) m = Throw InvalidOperation m.
Proof. done. Qed.

Lemma operator_post_incr_node r l (m : Mem) n :
  nodes m !! l = Some n →
  operator_post_incr (mkIter r (Some l)) m =
    Ret (mkIter r (Some l), mkIter r (next n)) m.
Proof. intros Hn. run_defs. crunch. done. Qed.

(** ** Preservation of the representation *)

Lemma Rep_lookup m G r cs :
  Rep m G → G !! r = Some cs →
  ∃ q, queues m !! r = Some q ∧ wfq (nodes m) q cs.
Proof.
  intros (Hdom & Hwf & _) Hr.
  assert (is_Some (queues m !! r)) as [q Hq].
  { apply elem_of_dom. rewrite Hdom. apply elem_of_dom. eauto. }
  eauto.
Qed.

Lemma Rep_lookup_inv m G r q :
  Rep m G → queues m !! r = Some q →
  ∃ cs, G !! r = Some cs ∧ wfq (nodes m) q cs.
Proof.
  intros (Hdom & Hwf & _) Hq.
  assert (is_Some (G !! r)) as [cs Hr].
  { apply elem_of_dom. rewrite <- Hdom. apply elem_of_dom. eauto. }
  eauto.
Qed.

Lemma Rep_fresh m G : Rep m G → G !! fresh (dom (queues m)) = None.
Proof.
  intros (Hdom & _). apply not_elem_of_dom. rewrite <- Hdom. apply is_fresh.
Qed.

Lemma Rep_cell_alloc m G r cs l :
  Rep m G → G !! r = Some cs → l ∈ cs.*1 → is_Some (nodes m !! l).
Proof.
  intros HR Hr Hl. destruct (Rep_lookup _ _ _ _ HR Hr) as (q & _ & Hc & _).
  eauto using chain_lookup.
Qed.

Lemma Rep_cell_not_fresh m G r cs :
  Rep m G → G !! r = Some cs → fresh (dom (nodes m)) ∉ cs.*1.
Proof.
  intros HR Hr Hl.
  by apply (fresh_node_ne (nodes m) _ (Rep_cell_alloc _ _ _ _ _ HR Hr Hl)).
Qed.

Lemma wfq_agree h h' q cs :
  (∀ l, l ∈ cs.*1 → h' !! l = h !! l) → wfq h q cs → wfq h' q cs.
Proof.
  intros Hag (Hc & Hrest). split; [|done]. by apply (chain_agree h).
Qed.

(** The queue object at [this] is replaced and the heap changes only
    outside the cells of the other queues. *)
Lemma Rep_put m G this q' cs' h' p :
  Rep m G →
  wfq h' q' cs' →
  (∀ r cs l, r ≠ this → G !! r = Some cs → l ∈ cs.*1 →
             h' !! l = nodes m !! l ∧ l ∉ cs'.*1) →
  Rep (mkMem h' (<[this := q']> (queues m)) p) (<[this := cs']> G).
Proof.
  intros (Hdom & Hwf & Hdis) Hq' Hframe. split; [|split]; simpl.
  - by rewrite !dom_insert_L, Hdom.
  - intros r q cs Hq Hcs. destruct (decide (r = this)) as [->|Hne].
    + rewrite lookup_insert_eq in Hq. rewrite lookup_insert_eq in Hcs.
      by simplify_eq.
    + rewrite lookup_insert_ne in Hq by done.
      rewrite lookup_insert_ne in Hcs by done.
      apply (wfq_agree (nodes m)); [|by eauto].
      intros l Hl. by apply (Hframe r cs l).
  - intros r1 r2 cs1 cs2 l Hne H1 H2 Hl1 Hl2.
    destruct (decide (r1 = this)) as [->|Hne1].
    + rewrite lookup_insert_eq in H1. rewrite lookup_insert_ne in H2 by done.
      simplify_eq. by apply (Hframe r2 cs2 l).
    + rewrite lookup_insert_ne in H1 by done.
      destruct (decide (r2 = this)) as [->|Hne2].
      * rewrite lookup_insert_eq in H2. simplify_eq.
        by apply (Hframe r1 cs1 l).
      * rewrite lookup_insert_ne in H2 by done. by apply (Hdis r1 r2 cs1 cs2 l).
Qed.

Lemma Rep_free m G this :
  Rep m G →
  Rep (set_queues (delete this (queues m)) m) (delete this G).
Proof.
  intros (Hdom & Hwf & Hdis). split; [|split]; simpl.
  - by rewrite !dom_delete_L, Hdom.
  - intros r q cs Hq Hcs.
    apply lookup_delete_Some in Hq as [_ Hq].
    apply lookup_delete_Some in Hcs as [_ Hcs]. eauto.
  - intros r1 r2 cs1 cs2 l Hne H1 H2.
    apply lookup_delete_Some in H1 as [_ H1].
    apply lookup_delete_Some in H2 as [_ H2]. eauto.
Qed.

Lemma Rep_init p : Rep (init_mem p) ∅.
Proof.
  split; [|split]; simpl.
  - by rewrite !dom_empty_L.
  - intros r q cs Hq. by rewrite lookup_empty in Hq.
  - intros r1 r2 cs1 cs2 l _ H1. by rewrite lookup_empty in H1.
Qed.

Lemma wfq_nil h r : wfq h (mkQueue None r 0) [].
Proof.
  repeat split; simpl; try done. constructor.
Qed.

Lemma wfq_size_nil h q : wfq h q [] → m_size q = 0 ∧ m_front q = None.
Proof. by intros (Hc & Hs & _). Qed.

Lemma wfq_singleton (h : gmap loc Node) l v :
  wfq (<[l := mkNode v None]> h) (mkQueue (Some l) (Some l) 1) [(l, v)].
Proof.
  repeat split; simpl; try done.
  - exists None. by rewrite lookup_insert_eq.
  - apply NoDup_singleton.
Qed.

Lemma last_snoc_fst (cs : list (loc * T)) l v :
  last (cs ++ [(l, v)]).*1 = Some l.
Proof. rewrite fmap_app. simpl. apply last_snoc. Qed.

Lemma chain_snoc h p cs r n l v :
  chain h p cs → cs ≠ [] → last cs.*1 = Some r → NoDup cs.*1 →
  l ∉ cs.*1 → h !! r = Some n →
  chain (<[r := mkNode (data n) (Some l)]> (<[l := mkNode v None]> h)) p
    (cs ++ [(l, v)]).
Proof.
  revert p. induction cs as [|[l0 v0] cs IH]; [done|].
  intros p (-> & nx & Hl0 & Hc) _ Hlast Hnd Hl Hr. simpl in *.
  apply NoDup_cons in Hnd as [Hl0cs Hnd].
  apply not_elem_of_cons in Hl as [Hne Hl].
  split; [done|]. destruct cs as [|c cs].
  - simpl in *. simplify_eq. exists (Some l). split.
    + by rewrite lookup_insert_eq.
    + split; [done|]. exists None. split; [|done].
      by rewrite lookup_insert_ne, lookup_insert_eq.
  - exists nx. split.
    + assert (l0 ≠ r) as Hne'.
      { intros ->. apply Hl0cs. simpl in Hlast.
        change (r ∈ (c :: cs).*1). apply last_Some_elem_of. done. }
      by rewrite !lookup_insert_ne.
    + by apply IH.
Qed.

Lemma wfq_push_next h q cs r n l v :
  wfq h q cs → cs ≠ [] → m_size q < INT_MAX → l ∉ cs.*1 →
  m_rear q = Some r → h !! r = Some n →
  wfq (<[r := mkNode (data n) (Some l)]> (<[l := mkNode v None]> h))
    (mkQueue (m_front q) (Some l) (m_size q + 1)) (cs ++ [(l, v)]).
Proof.
  intros (Hc & Hs & Hm & Hnd & Hrear) Hne Hlt Hl Hr Hn.
  rewrite (Hrear Hne) in Hr. repeat split; simpl.
  - by apply chain_snoc.
  - rewrite length_app. simpl. lia.
  - lia.
  - rewrite fmap_app. apply NoDup_app. repeat split; [done| |].
    + intros x Hx Hx'. apply list_elem_of_singleton in Hx'. by subst.
    + apply NoDup_singleton.
  - intros _. by rewrite last_snoc_fst.
Qed.

Lemma wfq_pop h q l v cs n :
  wfq h q ((l, v) :: cs) → h !! l = Some n →
  wfq (delete l h) (mkQueue (next n) (m_rear q) (m_size q - 1)) cs.
Proof.
  intros (Hc & Hs & Hm & Hnd & Hrear) Hn. simpl in *.
  destruct Hc as (Hf & nx & Hl & Hc). simplify_eq. simpl.
  apply NoDup_cons in Hnd as [Hlcs Hnd].
  repeat split; simpl; try done; try lia.
  - apply (chain_agree h); [|done].
    intros l' Hl'. apply lookup_delete_ne. by intros ->.
  - intros Hne. rewrite Hrear by done. by destruct cs.
Qed.

(** ** Specifications of the member functions *)

Lemma pushBack_spec m G this cs v :
  Rep m G → G !! this = Some cs → Z.of_nat (length cs) < INT_MAX →
  wp (pushBack this v) m False
    (λ _ m', head (plan m) ≠ Some false ∧ plan m' = tail (plan m) ∧
             ∃ l, Rep m' (<[this := cs ++ [(l, v)]]> G))
    (λ e m', e = bad_alloc ∧ head (plan m) = Some false ∧
             m' = set_plan (tail (plan m)) m).
Proof.
  intros HR Hthis Hlt.
  destruct (Rep_lookup _ _ _ _ HR Hthis) as (q & Hq & Hwf).
  destruct (decide (head (plan m) = Some false)) as [Hp|Hp].
  { destruct (plan m) as [|[] p] eqn:Hpl; simplify_eq/=.
    eapply wp_eq_throw; [by apply pushBack_fail|]. done. }
  pose proof Hwf as (Hc & Hs & Hm & Hnd & Hrear).
  set (l := fresh (dom (nodes m))).
  assert (∀ r cs0 l0, G !! r = Some cs0 → l0 ∈ cs0.*1 → l0 ≠ l) as Hfresh.
  { intros r cs0 l0 Hr Hl0 ->. by apply (Rep_cell_not_fresh _ _ _ _ HR Hr). }
  destruct cs as [|c cs'].
  - eapply wp_eq_ret; [by apply (pushBack_first _ _ _ q)|].
    split; [done|]. split; [done|]. exists l.
    apply Rep_put; [done|apply wfq_singleton|].
    intros r cs0 l0 Hne Hr Hl0. pose proof (Hfresh _ _ _ Hr Hl0). split.
    + by rewrite lookup_insert_ne.
    + simpl. by intros ?%list_elem_of_singleton.
  - assert (∃ r, m_rear q = Some r ∧ r ∈ (c :: cs').*1) as (r & Hr & Hrin).
    { rewrite Hrear by done.
      destruct (last (c :: cs').*1) as [r|] eqn:Hlast.
      - exists r. split; [done|]. by apply last_Some_elem_of.
      - by apply last_None in Hlast. }
    destruct (chain_lookup _ _ _ _ Hc Hrin) as [n Hn].
    eapply wp_eq_ret.
    { apply (pushBack_next _ _ _ q r n); try done.
      - rewrite Hs. simpl. lia.
      - lia. }
    split; [done|]. split; [done|]. exists l. fold l.
    apply Rep_put; [done| |].
    + apply wfq_push_next; try done; [lia|].
      intros Hl. by apply (Hfresh _ _ _ Hthis Hl).
    + intros r' cs0 l0 Hne Hr' Hl0. pose proof (Hfresh _ _ _ Hr' Hl0).
      destruct HR as (_ & _ & Hdis).
      pose proof (Hdis r' this _ _ l0 Hne Hr' Hthis Hl0) as Hnot.
      split.
      * rewrite !lookup_insert_ne; [done..|]. by intros ->.
      * rewrite fmap_app.
        intros [?|?%list_elem_of_singleton]%elem_of_app; done.
Qed.

Lemma popFront_spec m G this l v cs :
  Rep m G → G !! this = Some ((l, v) :: cs) →
  wp (popFront this) m False
    (λ _ m', Rep m' (<[this := cs]> G) ∧ plan m' = plan m)
    (λ _ _, False).
Proof.
  intros HR Hthis.
  destruct (Rep_lookup _ _ _ _ HR Hthis) as (q & Hq & Hwf).
  pose proof Hwf as (Hc & Hs & Hm & Hnd & Hrear).
  simpl in Hc. destruct Hc as (Hf & nx & Hl & Hc). simpl in *.
  eapply wp_eq_ret.
  { eapply (popFront_node _ _ q l _ Hq); try done; unfold INT_MIN; lia. }
  split; [|done].
  apply Rep_put; [done|by apply (wfq_pop _ _ l v)|].
  intros r cs0 l0 Hne Hr Hl0.
  destruct HR as (_ & _ & Hdis).
  pose proof (Hdis r this _ _ l0 Hne Hr Hthis Hl0) as Hnot.
  apply not_elem_of_cons in Hnot as [Hne0 Hnot]. simpl in *.
  split; [|done]. by rewrite lookup_delete_ne.
Qed.

Lemma front_spec m G this l v cs :
  Rep m G → G !! this = Some ((l, v) :: cs) →
  front this m = Ret l m ∧ front_const this m = Ret l m ∧
  read_ref l m = Ret v m.
Proof.
  intros HR Hthis.
  destruct (Rep_lookup _ _ _ _ HR Hthis) as (q & Hq & Hwf).
  pose proof Hwf as (Hc & Hs & Hm & Hnd & Hrear).
  simpl in Hc. destruct Hc as (Hf & nx & Hl & Hc). simpl in *.
  split; [|split].
  - eapply (front_node _ _ q l _ Hq); try done. lia.
  - eapply (front_const_node _ _ q l _ Hq); try done. lia.
  - by rewrite (read_ref_eq _ _ _ Hl).
Qed.

Lemma size_spec m G this cs :
  Rep m G → G !! this = Some cs →
  size this m = Ret (Z.of_nat (length cs)) m.
Proof.
  intros HR Hthis.
  destruct (Rep_lookup _ _ _ _ HR Hthis) as (q & Hq & Hwf).
  rewrite (size_eq _ _ _ Hq). by destruct Hwf as (_ & -> & _).
Qed.

Lemma begin_spec m G this cs :
  Rep m G → G !! this = Some cs →
  begin this m = Ret (mkIter this (head cs.*1)) m.
Proof.
  intros HR Hthis.
  destruct (Rep_lookup _ _ _ _ HR Hthis) as (q & Hq & Hwf).
  rewrite (begin_eq _ _ _ Hq). destruct Hwf as (Hc & _).
  by rewrite (chain_head _ _ _ Hc).
Qed.

(** One step of a traversal standing at the first cell of a chain. *)
Lemma iter_step (m : Mem) r l v cs :
  chain (nodes m) (Some l) ((l, v) :: cs) →
  operator_star (mkIter r (Some l)) m = Ret l m ∧
  read_ref l m = Ret v m ∧
  operator_pre_incr (mkIter r (Some l)) m = Ret (mkIter r (head cs.*1)) m ∧
  operator_post_incr (mkIter r (Some l)) m =
    Ret (mkIter r (Some l), mkIter r (head cs.*1)) m.
Proof.
  simpl. intros (_ & nx & Hl & Hc).
  rewrite (operator_star_node _ _ _ _ Hl), (read_ref_eq _ _ _ Hl),
    (operator_pre_incr_node _ _ _ _ Hl), (operator_post_incr_node _ _ _ _ Hl).
  simpl. by rewrite (chain_head _ _ _ Hc).
Qed.

(** ** Allocator plans *)

Lemma allocs_ok_0 p : allocs_ok 0 p = true.
Proof. done. Qed.

Lemma allocs_ok_S n p :
  allocs_ok (S n) p = true ↔
  head p ≠ Some false ∧ allocs_ok n (tail p) = true.
Proof.
  unfold allocs_ok. destruct p as [|[] p]; simpl.
  - by destruct n.
  - split; [by intros ->|by intros [_ ->]].
  - split; [done|by intros [? _]].
Qed.

Lemma allocs_ok_S_false n p :
  allocs_ok (S n) p = false ↔
  head p = Some false ∨ allocs_ok n (tail p) = false.
Proof.
  unfold allocs_ok. destruct p as [|[] p]; simpl.
  - destruct n; split; try done; by intros [?|?].
  - split; [by right|by intros [?|?]].
  - split; [by left|done].
Qed.

Lemma drop_S_tail {A} n (p : list A) : drop (S n) p = drop n (tail p).
Proof. destruct p; simpl; [by destruct n | done]. Qed.

(** ** Loops *)

Ltac wp_run H :=
  apply wp_bind; eapply wp_eq_ret; [apply H|]; cbv beta.

Lemma Queue_dtor_spec cs : ∀ fuel m G this,
  Rep m G → G !! this = Some cs →
  wp (Queue_dtor fuel this) m (fuel ≤ length cs)%nat
    (λ _ m', Rep m' (<[this := []]> G) ∧ plan m' = plan m)
    (λ _ _, False).
Proof.
  induction cs as [|[l v] cs IH]; intros fuel m G this HR Hthis;
    (destruct fuel as [|fuel]; [unfold wp; simpl; lia|]);
    destruct (Rep_lookup _ _ _ _ HR Hthis) as (q & Hq & Hwf);
    pose proof Hwf as (_ & Hs & _); simpl in Hs;
    simpl Queue_dtor; wp_run (get_m_size_eq _ _ _ Hq).
  - rewrite decide_False by lia. apply wp_ret.
    rewrite insert_id by done. done.
  - rewrite decide_True by lia. apply wp_bind.
    eapply wp_mono;
      [apply (popFront_spec m G this l v cs HR Hthis)|done| |done].
    intros _ m1 [HR1 Hp1]. cbv beta.
    eapply wp_mono; [apply (IH fuel m1 _ this HR1)| | |done].
    + by rewrite lookup_insert_eq.
    + simpl. lia.
    + intros _ m2 [HR2 Hp2]. rewrite insert_insert_eq in HR2.
      split; [done | congruence].
Qed.

Lemma operator_ne_end r r' : operator_ne (mkIter r None) (end_ r') = false.
Proof. done. Qed.

Lemma operator_ne_node r l r' :
  operator_ne (mkIter r (Some l)) (end_ r') = true.
Proof. done. Qed.

Lemma Rep_suffix_chain m G r xs ys :
  Rep m G → G !! r = Some (xs ++ ys) → chain (nodes m) (head ys.*1) ys.
Proof.
  intros HR Hr. destruct (Rep_lookup _ _ _ _ HR Hr) as (q & _ & Hc & _).
  by apply (chain_suffix _ (m_front q) xs).
Qed.

Lemma copy_loop_spec rest : ∀ fuel m G this other acc done,
  Rep m G → this ≠ other →
  G !! this = Some acc → G !! other = Some (done ++ rest) →
  Z.of_nat (length acc + length rest) ≤ INT_MAX →
  wp (copy_loop fuel this other (mkIter other (head rest.*1))) m
    (fuel ≤ length rest)%nat
    (λ _ m', allocs_ok (length rest) (plan m) = true ∧
             plan m' = drop (length rest) (plan m) ∧
             ∃ new, new.*2 = rest.*2 ∧ Rep m' (<[this := acc ++ new]> G))
    (λ e m', e = bad_alloc ∧ allocs_ok (length rest) (plan m) = false ∧
             ∃ new, (length new ≤ length rest)%nat ∧
                    Rep m' (<[this := acc ++ new]> G)).
Proof.
  induction rest as [|[l v] rest IH];
    intros fuel m G this other acc done HR Hne Hthis Hother Hlen;
    (destruct fuel as [|fuel]; [unfold wp; simpl; lia|]); simpl copy_loop.
  - eapply wp_eq_ret; [reflexivity|].
    split; [done|]. split; [done|]. exists [].
    by rewrite app_nil_r, insert_id.
  - change (head ((l, v) :: rest).*1) with (Some l).
    pose proof (Rep_suffix_chain _ _ _ _ _ HR Hother) as Hc.
    destruct (iter_step m other l v rest Hc) as (Hstar & Hread & _).
    wp_run Hstar. wp_run Hread. apply wp_bind.
    eapply wp_mono; [apply (pushBack_spec m G this acc v HR Hthis)| done | |].
    { simpl in Hlen. lia. }
    + intros _ m1 (Hp & Hpl & l1 & HR1). cbv beta.
      assert (<[this := acc ++ [(l1, v)]]> G !! other = Some (done ++ (l, v) :: rest))
        as Hother1 by by rewrite lookup_insert_ne.
      pose proof (Rep_suffix_chain _ _ _ _ _ HR1 Hother1) as Hc1.
      destruct (iter_step m1 other l v rest Hc1) as (_ & _ & Hincr & _).
      wp_run Hincr.
      eapply wp_mono;
        [apply (IH fuel m1 _ this other (acc ++ [(l1, v)]) (done ++ [(l, v)])
                  HR1 Hne)| | |].
      * by rewrite lookup_insert_eq.
      * by rewrite <- app_assoc.
      * rewrite length_app. simpl in *. lia.
      * simpl. lia.
      * intros _ m2 (Hok & Hpl2 & new & Hnew & HR2).
        split; [by apply allocs_ok_S; rewrite <- Hpl|].
        split; [by rewrite Hpl2, Hpl; simpl length; rewrite drop_S_tail|].
        exists ((l1, v) :: new). split; [simpl; by f_equal|].
        by rewrite insert_insert_eq, <- app_assoc in HR2.
      * intros e m2 (-> & Hok & new & Hnew & HR2). split; [done|].
        split; [apply allocs_ok_S_false; right; by rewrite <- Hpl|].
        exists ((l1, v) :: new). split; [simpl; lia|].
        by rewrite insert_insert_eq, <- app_assoc in HR2.
    + intros e m1 (-> & Hp & ->). split; [done|].
      split; [apply allocs_ok_S_false; by left|].
      exists []. split; [simpl; lia|]. by rewrite app_nil_r, insert_id.
Qed.

Lemma free_queue_eq this (m : Mem) q :
  queues m !! this = Some q →
  free_queue this m = Ret () (set_queues (delete this (queues m)) m).
Proof. intros Hq. run_defs. crunch. done. Qed.

Lemma Rep_alloc_queue m G r0 :
  Rep m G →
  Rep (set_queues (<[fresh (dom (queues m)) := mkQueue None r0 0]> (queues m)) m)
    (<[fresh (dom (queues m)) := []]> G).
Proof.
  intros HR. apply (Rep_put m G); [done|apply wfq_nil|].
  intros r cs l _ _ _. split; [done|]. simpl. apply not_elem_of_nil.
Qed.

(** Destructor and release of a queue object that is in [G]. *)
Lemma destroy_spec fuel m G this cs :
  Rep m G → G !! this = Some cs →
  wp (destroy fuel this) m (fuel ≤ length cs)%nat
    (λ _ m', Rep m' (delete this G) ∧ plan m' = plan m)
    (λ _ _, False).
Proof.
  intros HR Hthis. unfold destroy. apply wp_bind.
  eapply wp_mono; [apply (Queue_dtor_spec cs fuel m G this HR Hthis)
                  |done| |done].
  intros _ m1 [HR1 Hp1]. cbv beta.
  destruct (Rep_lookup m1 _ this [] HR1) as (q & Hq & _);
    [by rewrite lookup_insert_eq|].
  eapply wp_eq_ret; [by apply (free_queue_eq _ _ q)|].
  split; [|done].
  apply (Rep_free _ _ this) in HR1. by rewrite delete_insert_eq in HR1.
Qed.

Lemma wfq_length_le h q cs : wfq h q cs → Z.of_nat (length cs) ≤ INT_MAX.
Proof. intros (_ & Hs & Hm & _). lia. Qed.

Lemma Queue_copy_spec fuel m G other cs :
  Rep m G → G !! other = Some cs →
  wp (Queue_copy fuel other) m (fuel ≤ length cs)%nat
    (λ this m', allocs_ok (length cs) (plan m) = true ∧
                plan m' = drop (length cs) (plan m) ∧
                G !! this = None ∧
                ∃ new, new.*2 = cs.*2 ∧ Rep m' (<[this := new]> G))
    (λ e m', e = bad_alloc ∧ allocs_ok (length cs) (plan m) = false ∧
             Rep m' G).
Proof.
  intros HR Hother. unfold Queue_copy.
  pose proof (Rep_fresh _ _ HR) as Hfresh.
  pose proof (Rep_alloc_queue m G None HR) as HR0.
  set (this := fresh (dom (queues m))) in *.
  set (m0 := set_queues _ m) in HR0.
  assert (this ≠ other) as Hne by (intros ->; congruence).
  assert (<[this := []]> G !! other = Some cs) as Hother0
    by by rewrite lookup_insert_ne.
  destruct (Rep_lookup _ _ _ _ HR Hother) as (qo & _ & Hwfo).
  apply wfq_length_le in Hwfo.
  apply wp_bind. eapply wp_eq_ret; [reflexivity|]. fold this m0.
  apply wp_bind. apply wp_catch. apply wp_bind.
  eapply wp_eq_ret; [apply (begin_spec _ _ _ _ HR0 Hother0)|].
  eapply wp_mono;
    [apply (copy_loop_spec cs fuel m0 _ this other [] [] HR0 Hne)|done| |].
  - by rewrite lookup_insert_eq.
  - done.
  - simpl. lia.
  - intros _ m1 (Hok & Hpl & new & Hnew & HR1). apply wp_ret.
    rewrite insert_insert_eq in HR1. eauto 10.
  - intros e m1 (-> & Hok & new & Hlen & HR1). simpl in HR1.
    rewrite insert_insert_eq in HR1.
    apply wp_bind.
    eapply wp_mono;
      [apply (Queue_dtor_spec new fuel m1 _ this HR1)| | |done].
    + by rewrite lookup_insert_eq.
    + lia.
    + intros _ m2 [HR2 _]. cbv beta. rewrite insert_insert_eq in HR2.
      destruct (Rep_lookup m2 _ this [] HR2) as (q & Hq & _);
        [by rewrite lookup_insert_eq|].
      wp_run (free_queue_eq _ _ _ Hq). apply wp_throw.
      apply (Rep_free _ _ this) in HR2.
      rewrite delete_insert_eq, (delete_id _ _ Hfresh) in HR2.
      split; [done|]. split; [exact Hok|exact HR2].
Qed.

(** The three [std::swap] calls of the assignment operator. *)
Lemma swap_members_eq a b (m : Mem) qa qb (x : qref) :
  a ≠ b → queues m !! a = Some qa → queues m !! b = Some qb →
  (swap_m_front a b ;; swap_m_rear a b ;; swap_m_size a b ;; mret x) m =
    Ret x (set_queues (<[b := qa]> (<[a := qb]> (queues m))) m).
Proof.
  intros Hne Ha Hb. destruct qa as [fa ra sa], qb as [fb rb sb].
  run_defs. crunch. do 2 f_equal.
  apply map_eq. intros i.
  destruct (decide (i = b)) as [->|?]; [by rewrite !lookup_insert_eq|].
  destruct (decide (i = a)) as [->|?];
    repeat (rewrite lookup_insert_eq || rewrite lookup_insert_ne by done);
    done.
Qed.

Lemma Rep_swap m G a b qa qb ca cb :
  Rep m G → a ≠ b →
  queues m !! a = Some qa → queues m !! b = Some qb →
  G !! a = Some ca → G !! b = Some cb →
  Rep (set_queues (<[b := qa]> (<[a := qb]> (queues m))) m)
    (<[b := ca]> (<[a := cb]> G)).
Proof.
  intros (Hdom & Hwf & Hdis) Hne Hqa Hqb Ha Hb.
  set (σ := λ r : qref,
         if decide (r = b) then a else if decide (r = a) then b else r).
  assert (∀ r, <[b := ca]> (<[a := cb]> G) !! r = G !! σ r ∧
               <[b := qa]> (<[a := qb]> (queues m)) !! r = queues m !! σ r)
    as Hperm.
  { intros r. unfold σ.
    destruct (decide (r = b)) as [->|?].
    { rewrite !lookup_insert_eq. by rewrite Ha, Hqa. }
    rewrite !(lookup_insert_ne _ b r) by done.
    destruct (decide (r = a)) as [->|?].
    { rewrite !lookup_insert_eq. by rewrite Hb, Hqb. }
    by rewrite !lookup_insert_ne by done. }
  assert (∀ r1 r2, σ r1 = σ r2 → r1 = r2) as Hinj.
  { intros r1 r2. unfold σ. repeat case_decide; congruence. }
  split; [|split]; simpl.
  - rewrite !dom_insert_L, Hdom. done.
  - intros r q cs Hq Hcs. destruct (Hperm r) as [HG Hqs].
    rewrite HG in Hcs. rewrite Hqs in Hq. eauto.
  - intros r1 r2 cs1 cs2 l Hne12 H1 H2.
    destruct (Hperm r1) as [HG1 _]. destruct (Hperm r2) as [HG2 _].
    rewrite HG1 in H1. rewrite HG2 in H2.
    apply (Hdis (σ r1) (σ r2)); [|done..].
    intros Heq. by apply Hne12, Hinj.
Qed.

Lemma catch_ret_eq {A} (c : M A) h m a m' :
  c m = Ret a m' → catch c h m = Ret a m'.
Proof. unfold catch. by intros ->. Qed.

Lemma operator_assign_spec fuel m G this other ct co :
  Rep m G → G !! this = Some ct → G !! other = Some co →
  wp (operator_assign fuel this other) m
    (fuel ≤ length ct ∨ fuel ≤ length co)%nat
    (λ r m', r = this ∧
             (this = other ∨ allocs_ok (length co) (plan m) = true) ∧
             (this = other → m' = m) ∧
             (this ≠ other → plan m' = drop (length co) (plan m)) ∧
             ∃ new, new.*2 = co.*2 ∧ Rep m' (<[this := new]> G))
    (λ e m', e = bad_alloc ∧ this ≠ other ∧
             allocs_ok (length co) (plan m) = false ∧ Rep m' G).
Proof.
  intros HR Hthis Hother. unfold operator_assign.
  destruct (decide (this = other)) as [->|Hne].
  { apply wp_ret. split; [done|]. split; [by left|]. split; [done|].
    split; [done|]. exists co. split; [done|].
    rewrite insert_id by done. done. }
  apply wp_bind.
  eapply wp_mono;
    [apply (Queue_copy_spec fuel m G other co HR Hother)|by right| |].
  2:{ intros e m1 (-> & Hok & HR1). done. }
  intros temp m1 (Hok & Hpl & Htemp & new & Hnew & HR1). cbv beta.
  assert (temp ≠ this) as Hne' by (intros ->; congruence).
  assert (<[temp := new]> G !! this = Some ct) as Hthis1
    by by rewrite lookup_insert_ne.
  assert (<[temp := new]> G !! temp = Some new) as Htemp1
    by by rewrite lookup_insert_eq.
  destruct (Rep_lookup _ _ _ _ HR1 Hthis1) as (qt & Hqt & _).
  destruct (Rep_lookup _ _ _ _ HR1 Htemp1) as (qn & Hqn & _).
  pose proof (Rep_swap _ _ temp this _ _ _ _ HR1 Hne' Hqn Hqt Htemp1 Hthis1)
    as HR2.
  unfold with_local. apply wp_bind.
  eapply wp_eq_ret.
  { apply catch_ret_eq.
    apply (swap_members_eq temp this m1 qn qt this Hne' Hqn Hqt). }
  apply wp_bind.
  eapply wp_mono;
    [apply (destroy_spec fuel _ _ temp ct HR2)| | |done].
  - by rewrite lookup_insert_ne, lookup_insert_eq.
  - by left.
  - intros _ m3 [HR3 Hpl3]. apply wp_ret.
    split; [done|]. split; [by right|]. split; [done|].
    split; [intros _; by rewrite Hpl3|].
    exists new. split; [done|].
    rewrite delete_insert_ne, !delete_insert_eq, delete_id in HR3 by done.
    done.
Qed.

(** ** Writing through a reference into a chain *)

Lemma chain_update h p pre l v post n v' :
  chain h p (pre ++ (l, v) :: post) →
  NoDup (pre ++ (l, v) :: post).*1 → h !! l = Some n →
  chain (<[l := mkNode v' (next n)]> h) p (pre ++ (l, v') :: post).
Proof.
  revert p. induction pre as [|[l0 v0] pre IH]; simpl; intros p Hc Hnd Hn.
  - destruct Hc as (-> & nx & Hl & Hc). simplify_eq. simpl.
    apply NoDup_cons in Hnd as [Hlp _].
    split; [done|]. exists nx. split; [by rewrite lookup_insert_eq|].
    apply (chain_agree h); [|done].
    intros l' Hl'. apply lookup_insert_ne. by intros ->.
  - destruct Hc as (-> & nx & Hl0 & Hc).
    apply NoDup_cons in Hnd as [Hl0p Hnd].
    split; [done|]. exists nx. split; [|by apply IH].
    rewrite lookup_insert_ne; [done|]. intros ->. apply Hl0p.
    rewrite fmap_app. apply elem_of_app. right. simpl. apply elem_of_cons.
    by left.
Qed.

Lemma fmap_fst_update (pre post : list (loc * T)) l v v' :
  (pre ++ (l, v') :: post).*1 = (pre ++ (l, v) :: post).*1.
Proof. by rewrite !fmap_app. Qed.

Lemma Rep_write m G r pre l v post n v' :
  Rep m G → G !! r = Some (pre ++ (l, v) :: post) → nodes m !! l = Some n →
  Rep (set_nodes (<[l := mkNode v' (next n)]> (nodes m)) m)
    (<[r := pre ++ (l, v') :: post]> G).
Proof.
  intros HR Hr Hn.
  destruct (Rep_lookup _ _ _ _ HR Hr) as (q & Hq & Hwf).
  unfold set_nodes. rewrite <- (insert_id (queues m) r q Hq).
  apply Rep_put; [done| |].
  - destruct Hwf as (Hc & Hs & Hm & Hnd & Hrear).
    split; [by apply (chain_update _ _ _ _ v)|].
    rewrite (fmap_fst_update _ _ _ v). rewrite !length_app in *. simpl in *.
    repeat split; try done.
    intros _. apply Hrear. by destruct pre.
  - intros r' cs l0 Hne Hr' Hl0. rewrite (fmap_fst_update _ _ _ v).
    destruct HR as (_ & _ & Hdis).
    pose proof (Hdis r' r _ _ l0 Hne Hr' Hr Hl0) as Hnot.
    split; [|done]. apply lookup_insert_ne. intros ->. apply Hnot.
    rewrite fmap_app. apply elem_of_app. right. simpl. apply elem_of_cons.
    by left.
Qed.

Lemma transform_loop_spec (f : T → T) rest : ∀ fuel m G tq done,
  Rep m G → G !! tq = Some (done ++ rest) →
  wp (transform_loop fuel f (mkIter tq (head rest.*1)) (end_ tq)) m
    (fuel ≤ length rest)%nat
    (λ _ m', Rep m' (<[tq := done ++ ((λ c, (c.1, f c.2)) <$> rest)]> G) ∧
             plan m' = plan m)
    (λ _ _, False).
Proof.
  induction rest as [|[l v] rest IH]; intros fuel m G tq done HR Htq;
    (destruct fuel as [|fuel]; [unfold wp; simpl; lia|]);
    simpl transform_loop.
  - eapply wp_eq_ret; [reflexivity|]. split; [|done].
    by rewrite insert_id.
  - change (head ((l, v) :: rest).*1) with (Some l).
    pose proof (Rep_suffix_chain _ _ _ _ _ HR Htq) as Hc.
    destruct (iter_step m tq l v rest Hc) as (Hstar & Hread & _).
    pose proof Hc as (_ & nx & Hl & _). simpl in Hl.
    wp_run Hstar. wp_run Hread.
    wp_run (write_ref_eq l (f v) m _ Hl). simpl next.
    pose proof (Rep_write m G tq done l v rest _ (f v) HR Htq Hl) as HR1.
    simpl next in HR1.
    set (m1 := set_nodes _ m) in *.
    assert (<[tq := done ++ (l, f v) :: rest]> G !! tq
            = Some (done ++ (l, f v) :: rest)) as Htq1
      by by rewrite lookup_insert_eq.
    pose proof (Rep_suffix_chain _ _ _ _ _ HR1 Htq1) as Hc1.
    destruct (iter_step m1 tq l (f v) rest Hc1) as (_ & _ & Hincr & _).
    wp_run Hincr.
    eapply wp_mono;
      [apply (IH fuel m1 _ tq (done ++ [(l, f v)]) HR1)| | |done].
    + by rewrite lookup_insert_eq, <- app_assoc.
    + simpl. lia.
    + intros _ m2 [HR2 Hp2]. split; [|done].
      by rewrite insert_insert_eq, <- app_assoc in HR2.
Qed.

Lemma allocs_ok_add a b p :
  allocs_ok (a + b) p = allocs_ok a p && allocs_ok b (drop a p).
Proof.
  unfold allocs_ok. by rewrite <- take_take_drop, forallb_app.
Qed.

Lemma fmap_snd_mapped (f : T → T) (cs : list (loc * T)) :
  ((λ c, (c.1, f c.2)) <$> cs).*2 = f <$> cs.*2.
Proof. induction cs as [|[l v] cs IH]; simpl; [done | by f_equal]. Qed.

Lemma snd_length_eq (xs ys : list (loc * T)) :
  xs.*2 = ys.*2 → length xs = length ys.
Proof.
  intros H. apply (f_equal length) in H. by rewrite !length_fmap in H.
Qed.

Lemma transform_spec fuel m G queue cs (f : T → T) :
  Rep m G → G !! queue = Some cs →
  wp (transform fuel queue f) m (fuel ≤ length cs)%nat
    (λ _ m', allocs_ok (length cs + length cs) (plan m) = true ∧
             plan m' = drop (length cs + length cs) (plan m) ∧
             ∃ new, new.*2 = f <$> cs.*2 ∧ Rep m' (<[queue := new]> G))
    (λ e m', e = bad_alloc ∧
             allocs_ok (length cs + length cs) (plan m) = false ∧
             Rep m' G).
Proof.
  intros HR Hq. unfold transform. rewrite allocs_ok_add. apply wp_bind.
  eapply wp_mono;
    [apply (Queue_copy_spec fuel m G queue cs HR Hq)|done| |].
  2:{ intros e m1 (-> & Hok & HR1). rewrite Hok. done. }
  intros tq m1 (Hok & Hpl & Htq & new & Hnew & HR1). cbv beta.
  rewrite Hok. simpl andb.
  pose proof (snd_length_eq _ _ Hnew) as Hlen.
  assert (tq ≠ queue) as Hne by (intros ->; congruence).
  assert (<[tq := new]> G !! tq = Some ([] ++ new)) as Htq1
    by by rewrite lookup_insert_eq.
  unfold with_local. apply wp_bind. apply wp_catch. apply wp_bind.
  eapply wp_eq_ret; [apply (begin_spec _ _ tq new HR1 Htq1)|].
  apply wp_bind.
  eapply wp_mono;
    [apply (transform_loop_spec f new fuel m1 _ tq [] HR1 Htq1)
    |lia| |done].
  intros _ m2 [HR2 Hpl2]. cbv beta. simpl app in HR2.
  rewrite insert_insert_eq in HR2.
  set (new' := (λ c, (c.1, f c.2)) <$> new) in *.
  assert (new'.*2 = f <$> cs.*2) as Hnew'
    by (unfold new'; by rewrite fmap_snd_mapped, Hnew).
  assert (length new' = length cs) as Hlen'
    by (unfold new'; by rewrite length_fmap).
  apply wp_bind.
  eapply wp_mono;
    [apply (operator_assign_spec fuel m2 _ queue tq cs new' HR2)| | |].
  - by rewrite lookup_insert_ne.
  - by rewrite lookup_insert_eq.
  - lia.
  - intros r m3 (-> & Hok3 & _ & Hpl3 & new2 & Hnew2 & HR3). cbv beta.
    apply wp_ret. cbv beta. apply wp_bind.
    eapply wp_mono;
      [apply (destroy_spec fuel m3 _ tq new' HR3)| | |done].
    + by rewrite lookup_insert_ne, lookup_insert_eq.
    + lia.
    + intros _ m4 [HR4 Hpl4]. apply wp_ret.
      destruct Hok3 as [?|Hok3]; [done|].
      rewrite Hlen', Hpl2, Hpl in Hok3. split; [done|].
      split.
      { rewrite Hpl4, Hpl3, Hlen', Hpl2, Hpl by done. apply drop_drop. }
      exists new2. split; [congruence|].
      rewrite delete_insert_ne, delete_insert_eq, delete_id in HR4 by done.
      done.
  - intros e m3 (-> & _ & Hok3 & HR3). cbv beta. apply wp_bind.
    eapply wp_mono;
      [apply (destroy_spec fuel m3 _ tq new' HR3)| | |done].
    + by rewrite lookup_insert_eq.
    + lia.
    + intros _ m4 [HR4 Hpl4]. apply wp_throw.
      rewrite Hlen', Hpl2, Hpl in Hok3. split; [done|]. split; [done|].
      rewrite delete_insert_eq, delete_id in HR4 by done. done.
Qed.

(** ** The loop and the body of [filter] *)

Lemma filter_loop_spec (predict : T → bool) rest :
  ∀ fuel m G fq queue acc done,
  Rep m G → fq ≠ queue →
  G !! fq = Some acc → G !! queue = Some (done ++ rest) →
  Z.of_nat (length acc + length rest) ≤ INT_MAX →
  wp (filter_loop fuel fq predict (mkIter queue (head rest.*1)) (end_ queue))
    m (fuel ≤ length rest)%nat
    (λ _ m',
       allocs_ok (length (List.filter predict rest.*2)) (plan m) = true ∧
       plan m' = drop (length (List.filter predict rest.*2)) (plan m) ∧
       ∃ new, new.*2 = List.filter predict rest.*2 ∧
              Rep m' (<[fq := acc ++ new]> G))
    (λ e m',
       e = bad_alloc ∧
       allocs_ok (length (List.filter predict rest.*2)) (plan m) = false ∧
       ∃ new, (length new ≤ length rest)%nat ∧
              Rep m' (<[fq := acc ++ new]> G)).
Proof.
  induction rest as [|[l v] rest IH];
    intros fuel m G fq queue acc done HR Hne Hfq Hqueue Hlen;
    (destruct fuel as [|fuel]; [unfold wp; simpl; lia|]); simpl filter_loop.
  - eapply wp_eq_ret; [reflexivity|].
    split; [done|]. split; [done|]. exists [].
    by rewrite app_nil_r, insert_id.
  - change (head ((l, v) :: rest).*1) with (Some l).
    pose proof (Rep_suffix_chain _ _ _ _ _ HR Hqueue) as Hc.
    destruct (iter_step m queue l v rest Hc) as (Hstar & Hread & Hincr & _).
    wp_run Hstar. wp_run Hread. simpl fmap. simpl List.filter.
    destruct (predict v) eqn:Hpv.
    + apply wp_bind.
      eapply wp_mono; [apply (pushBack_spec m G fq acc v HR Hfq)| done | |].
      { simpl in Hlen. lia. }
      * intros _ m1 (Hp & Hpl & l1 & HR1). cbv beta.
        assert (<[fq := acc ++ [(l1, v)]]> G !! queue
                = Some (done ++ (l, v) :: rest))
          as Hqueue1 by by rewrite lookup_insert_ne.
        pose proof (Rep_suffix_chain _ _ _ _ _ HR1 Hqueue1) as Hc1.
        destruct (iter_step m1 queue l v rest Hc1) as (_ & _ & Hincr1 & _).
        wp_run Hincr1.
        eapply wp_mono;
          [apply (IH fuel m1 _ fq queue (acc ++ [(l1, v)]) (done ++ [(l, v)])
                    HR1 Hne)| | |].
        -- by rewrite lookup_insert_eq.
        -- by rewrite <- app_assoc.
        -- rewrite length_app. simpl in *. lia.
        -- simpl. lia.
        -- intros _ m2 (Hok & Hpl2 & new & Hnew & HR2).
           split; [by apply allocs_ok_S; rewrite <- Hpl|].
           split; [by rewrite Hpl2, Hpl; simpl length; rewrite drop_S_tail|].
           exists ((l1, v) :: new). split; [simpl; by f_equal|].
           by rewrite insert_insert_eq, <- app_assoc in HR2.
        -- intros e m2 (-> & Hok & new & Hnew & HR2). split; [done|].
           split; [apply allocs_ok_S_false; right; by rewrite <- Hpl|].
           exists ((l1, v) :: new). split; [simpl; lia|].
           by rewrite insert_insert_eq, <- app_assoc in HR2.
      * intros e m1 (-> & Hp & ->). split; [done|].
        split; [apply allocs_ok_S_false; by left|].
        exists []. split; [simpl; lia|]. by rewrite app_nil_r, insert_id.
    + apply wp_bind. apply wp_ret. wp_run Hincr.
      eapply wp_mono;
        [apply (IH fuel m G fq queue acc (done ++ [(l, v)]) HR Hne Hfq)| | |].
      * by rewrite <- app_assoc.
      * simpl in *. lia.
      * simpl. lia.
      * done.
      * intros e m2 (-> & Hok & new & Hnew & HR2). split; [done|].
        split; [done|]. exists new. split; [simpl; lia|done].
Qed.

Lemma filter_length_le (predict : T → bool) (vs : list T) :
  (length (List.filter predict vs) ≤ length vs)%nat.
Proof.
  induction vs as [|v vs IH]; simpl; [done|].
  destruct (predict v); simpl; lia.
Qed.

Lemma filter_spec fuel m G queue cs (predict : T → bool) :
  Rep m G → G !! queue = Some cs →
  wp (filter fuel queue predict) m (fuel ≤ length cs)%nat
    (λ r m',
       allocs_ok (length (List.filter predict cs.*2)) (plan m) = true ∧
       plan m' = drop (length (List.filter predict cs.*2)) (plan m) ∧
       G !! r = None ∧
       ∃ new, new.*2 = List.filter predict cs.*2 ∧ Rep m' (<[r := new]> G))
    (λ e m',
       e = bad_alloc ∧
       allocs_ok (length (List.filter predict cs.*2)) (plan m) = false ∧
       Rep m' G).
Proof.
  intros HR Hqueue. unfold filter, Queue_default.
  pose proof (Rep_fresh _ _ HR) as Hfresh.
  pose proof (Rep_alloc_queue m G None HR) as HR0.
  set (fq := fresh (dom (queues m))) in *.
  set (m0 := set_queues _ m) in HR0.
  assert (fq ≠ queue) as Hne by (intros ->; congruence).
  assert (<[fq := []]> G !! queue = Some cs) as Hqueue0
    by by rewrite lookup_insert_ne.
  destruct (Rep_lookup _ _ _ _ HR Hqueue) as (qo & _ & Hwfo).
  apply wfq_length_le in Hwfo.
  apply wp_bind. eapply wp_eq_ret; [reflexivity|]. fold fq m0.
  apply wp_bind. apply wp_catch. apply wp_bind.
  eapply wp_eq_ret; [apply (begin_spec _ _ _ _ HR0 Hqueue0)|].
  eapply wp_mono;
    [apply (filter_loop_spec predict cs fuel m0 _ fq queue [] [] HR0 Hne)
    |done| |].
  - by rewrite lookup_insert_eq.
  - done.
  - simpl. lia.
  - intros _ m1 (Hok & Hpl & new & Hnew & HR1). apply wp_ret.
    rewrite insert_insert_eq in HR1. eauto 10.
  - intros e m1 (-> & Hok & new & Hlen & HR1). simpl in HR1.
    rewrite insert_insert_eq in HR1. apply wp_bind.
    eapply wp_mono; [apply (destroy_spec fuel m1 _ fq new HR1)| | |done].
    + by rewrite lookup_insert_eq.
    + lia.
    + intros _ m2 [HR2 _]. apply wp_throw.
      rewrite delete_insert_eq, (delete_id _ _ Hfresh) in HR2.
      split; [done|]. split; [exact Hok|exact HR2].
Qed.

(** ** Observers *)

Lemma operator_ne_none r e :
  m_currentNode e = None → operator_ne (mkIter r None) e = false.
Proof. unfold operator_ne. simpl. by intros ->. Qed.

Lemma operator_ne_some r l e :
  m_currentNode e = None → operator_ne (mkIter r (Some l)) e = true.
Proof. unfold operator_ne. simpl. by intros ->. Qed.

Lemma iterate_spec rest : ∀ fuel (m : Mem) r e,
  chain (nodes m) (head rest.*1) rest → m_currentNode e = None →
  (length rest < fuel)%nat →
  iterate fuel (mkIter r (head rest.*1)) e m = Ret rest.*2 m.
Proof.
  induction rest as [|[l v] rest IH]; intros fuel m r e Hc He Hfuel;
    (destruct fuel as [|fuel]; [simpl in Hfuel; lia|]); simpl iterate.
  - change (head ([] : list (loc * T)).*1) with (@None loc).
    by rewrite operator_ne_none.
  - change (head ((l, v) :: rest).*1) with (Some l).
    rewrite operator_ne_some by done.
    destruct (iter_step m r l v rest Hc) as (Hstar & Hread & Hincr & _).
    rewrite (bind_ret_eq _ _ _ _ _ Hstar), (bind_ret_eq _ _ _ _ _ Hread),
      (bind_ret_eq _ _ _ _ _ Hincr).
    destruct Hc as (_ & nx & _ & Hc). rewrite (chain_head _ _ _ Hc) in Hc.
    rewrite (bind_ret_eq _ _ _ _ _ (IH fuel m r e Hc He ltac:(simpl in *; lia))).
    done.
Qed.

Lemma elements_spec fuel m G this cs :
  Rep m G → G !! this = Some cs → (length cs < fuel)%nat →
  elements fuel this m = Ret cs.*2 m.
Proof.
  intros HR Hthis Hfuel. unfold elements.
  rewrite (bind_ret_eq _ _ _ _ _ (begin_spec _ _ _ _ HR Hthis)).
  apply iterate_spec; [|done..].
  apply (Rep_suffix_chain m G this [] cs HR Hthis).
Qed.

(** ** Well-formed queues and what their clients observe *)

Lemma chain_unique h p cs1 cs2 :
  chain h p cs1 → chain h p cs2 → cs1 = cs2.
Proof.
  revert p cs2. induction cs1 as [|[l1 v1] cs1 IH];
    intros p [|[l2 v2] cs2]; simpl; try done.
  - by intros -> [? _].
  - by intros [-> _] ?.
  - intros (-> & nx1 & Hl1 & Hc1) (? & nx2 & Hl2 & Hc2). simplify_eq.
    f_equal. eauto.
Qed.

Lemma Rep_unique m G G' q cs cs' :
  Rep m G → Rep m G' → G !! q = Some cs → G' !! q = Some cs' → cs = cs'.
Proof.
  intros HR HR' Hq Hq'.
  destruct (Rep_lookup _ _ _ _ HR Hq) as (qq & Hqq & Hc & _).
  destruct (Rep_lookup _ _ _ _ HR' Hq') as (qq' & Hqq' & Hc' & _).
  simplify_eq. by apply (chain_unique (nodes m) (m_front qq)).
Qed.

Lemma holds_intro m G q cs : Rep m G → G !! q = Some cs → holds m q cs.*2.
Proof. intros ??. by exists G, cs. Qed.

Lemma holds_elim m G q vs :
  Rep m G → holds m q vs → ∃ cs, G !! q = Some cs ∧ cs.*2 = vs.
Proof.
  intros HR (G' & cs' & HR' & Hq' & Hvs).
  destruct (Rep_lookup _ _ _ _ HR' Hq') as (qq & Hqq & _).
  destruct (Rep_lookup_inv _ _ _ _ HR Hqq) as (cs & Hq & _).
  exists cs. split; [done|].
  by rewrite (Rep_unique _ _ _ _ _ _ HR HR' Hq Hq').
Qed.

Lemma holds_observes m q vs : holds m q vs → observes m q vs.
Proof.
  intros (G & cs & HR & Hq & <-). split.
  - rewrite length_fmap. by apply (size_spec _ G).
  - intros fuel Hfuel. rewrite length_fmap in Hfuel.
    by apply (elements_spec _ _ G).
Qed.

Lemma holds_live m q vs : holds m q vs → is_Some (queues m !! q).
Proof.
  intros (G & cs & HR & Hq & _).
  destruct (Rep_lookup _ _ _ _ HR Hq) as (qq & Hqq & _). eauto.
Qed.

Lemma holds_length m q vs : holds m q vs → Z.of_nat (length vs) ≤ INT_MAX.
Proof.
  intros (G & cs & HR & Hq & <-).
  destruct (Rep_lookup _ _ _ _ HR Hq) as (qq & _ & Hwf).
  rewrite length_fmap. by apply (wfq_length_le _ _ _ Hwf).
Qed.

(** Only the allocator plan differs. *)
Lemma holds_set_plan m p q vs : holds m q vs → holds (set_plan p m) q vs.
Proof. intros (G & cs & HR & Hq & Hvs). by exists G, cs. Qed.

(** ** From [wp] back to outcomes *)

Lemma wp_inv_ret {A} (c : M A) m (Q : A → Mem → Prop) E :
  wp c m False Q E → (∀ e m', E e m' → False) →
  ∃ a m', c m = Ret a m' ∧ Q a m'.
Proof.
  unfold wp. destruct (c m) as [a m'|e m'| |]; try done; [eauto|].
  intros HE Hno. by destruct (Hno e m').
Qed.

Lemma wp_inv_throw {A} (c : M A) m (Q : A → Mem → Prop) E :
  wp c m False Q E → (∀ a m', Q a m' → False) →
  ∃ e m', c m = Throw e m' ∧ E e m'.
Proof.
  unfold wp. destruct (c m) as [a m'|e m'| |]; try done; [|eauto].
  intros HQ Hno. by destruct (Hno a m').
Qed.

Lemma wp_fuel {A} (c : M A) m (O : Prop) (Q : A → Mem → Prop) E :
  wp c m O Q E → ¬ O → wp c m False Q E.
Proof. intros H HO. eapply wp_mono; eauto. Qed.

Lemma wp_ends_in {A} (c : M A) m O (Q : A → Mem → Prop) E (P : Mem → Prop) m' :
  wp c m O Q E → ends_in (c m) m' →
  (∀ a m1, Q a m1 → P m1) → (∀ e m1, E e m1 → P m1) → P m'.
Proof.
  unfold wp, ends_in. destruct (c m); try done; intros ? <-; eauto.
Qed.

(** ** Sequences of pushes and pops *)

Lemma push_all_spec vs : ∀ m G this cs,
  Rep m G → G !! this = Some cs →
  Z.of_nat (length cs + length vs) ≤ INT_MAX →
  allocs_ok (length vs) (plan m) = true →
  ∃ m' new, push_all this vs m = Ret () m' ∧ new.*2 = vs ∧
            Rep m' (<[this := cs ++ new]> G) ∧
            plan m' = drop (length vs) (plan m).
Proof.
  induction vs as [|v vs IH]; intros m G this cs HR Hthis Hlen Hok.
  - exists m, []. rewrite app_nil_r, insert_id by done. done.
  - apply allocs_ok_S in Hok as [Hhd Hok]. simpl in Hlen.
    destruct (wp_inv_ret _ _ _ _
                (pushBack_spec m G this cs v HR Hthis ltac:(lia)))
      as ([] & m1 & Hrun & _ & Hpl & l & HR1).
    { by intros e m' (_ & ? & _). }
    destruct (IH m1 _ this (cs ++ [(l, v)]) HR1) as (m2 & new & Hrun2 & Hnew & HR2 & Hpl2).
    + by rewrite lookup_insert_eq.
    + rewrite length_app. simpl. lia.
    + by rewrite Hpl.
    + exists m2, ((l, v) :: new). simpl push_all.
      rewrite (bind_ret_eq _ _ _ _ _ Hrun). split; [done|].
      split; [simpl; by f_equal|].
      rewrite insert_insert_eq, <- app_assoc in HR2. split; [done|].
      rewrite Hpl2, Hpl. simpl length. by rewrite drop_S_tail.
Qed.

Lemma pop_n_spec k : ∀ m G this cs,
  Rep m G → G !! this = Some cs → (k ≤ length cs)%nat →
  ∃ m', pop_n k this m = Ret (take k cs.*2) m' ∧
        Rep m' (<[this := drop k cs]> G) ∧ plan m' = plan m.
Proof.
  induction k as [|k IH]; intros m G this cs HR Hthis Hk.
  - exists m. rewrite drop_0, insert_id by done. done.
  - destruct cs as [|[l v] cs]; [simpl in Hk; lia|]. simpl in Hk.
    destruct (front_spec m G this l v cs HR Hthis) as (Hfront & _ & Hread).
    destruct (wp_inv_ret _ _ _ _ (popFront_spec m G this l v cs HR Hthis))
      as ([] & m1 & Hpop & HR1 & Hpl); [done|].
    destruct (IH m1 _ this cs HR1) as (m2 & Hrun & HR2 & Hpl2).
    + by rewrite lookup_insert_eq.
    + lia.
    + exists m2. simpl pop_n.
      rewrite (bind_ret_eq _ _ _ _ _ Hfront), (bind_ret_eq _ _ _ _ _ Hread),
        (bind_ret_eq _ _ _ _ _ Hpop), (bind_ret_eq _ _ _ _ _ Hrun).
      rewrite insert_insert_eq in HR2. split; [done|].
      split; [done | congruence].
Qed.

(** ** Single mutations from any well-formed state *)

Lemma pushBack_overflow this (v : T) (m : Mem) q r n :
  head (plan m) ≠ Some false → queues m !! this = Some q →
  m_size q ≠ 0 → ¬ m_size q < INT_MAX →
  m_rear q = Some r → nodes m !! r = Some n →
  pushBack this v m = Fault.
Proof.
  intros Hp Hq Hz Hlt Hr Hn.
  pose proof (fresh_node_ne (nodes m) r (mk_is_Some _ _ Hn)) as Hne.
  run_defs.
  destruct (plan m) as [|[] p]; simpl in *; try congruence; crunch; done.
Qed.

(** Whatever the allocator does and however full the queue is, a
    completed [pushBack] either appended one cell or threw
    [std::bad_alloc] and changed nothing but the allocator plan. *)
Lemma pushBack_ends m G this cs v m' :
  Rep m G → G !! this = Some cs → ends_in (pushBack this v m) m' →
  (pushBack this v m = Ret () m' ∧
   ∃ l, Rep m' (<[this := cs ++ [(l, v)]]> G)) ∨
  (pushBack this v m = Throw bad_alloc m' ∧
   m' = set_plan (tail (plan m)) m).
Proof.
  intros HR Hthis Hend.
  destruct (decide (Z.of_nat (length cs) < INT_MAX)) as [Hlt|Hge].
  - pose proof (pushBack_spec m G this cs v HR Hthis Hlt) as Hwp.
    unfold wp, ends_in in *.
    destruct (pushBack this v m) as [[] m1|e m1| |]; try done; subst m1.
    + left. destruct Hwp as (_ & _ & Hl). done.
    + right. by destruct Hwp as (-> & _ & ->).
  - destruct (decide (head (plan m) = Some false)) as [Hp|Hp].
    { destruct (plan m) as [|[] p] eqn:Hpl; simplify_eq/=.
      rewrite (pushBack_fail this v m p Hpl) in Hend |- *.
      simpl in Hend. subst m'. by right. }
    destruct (Rep_lookup _ _ _ _ HR Hthis) as (q & Hq & Hwf).
    pose proof Hwf as (Hc & Hs & Hm & Hnd & Hrear).
    destruct cs as [|c cs']; [simpl in Hge; unfold INT_MAX in Hge; lia|].
    assert (∃ r, m_rear q = Some r ∧ r ∈ (c :: cs').*1) as (r & Hr & Hrin).
    { rewrite Hrear by done.
      destruct (last (c :: cs').*1) as [r|] eqn:Hlast.
      - exists r. split; [done|]. by apply last_Some_elem_of.
      - by apply last_None in Hlast. }
    destruct (chain_lookup _ _ _ _ Hc Hrin) as [n Hn].
    rewrite (pushBack_overflow this v m q r n) in Hend; try done.
    + rewrite Hs. simpl. lia.
    + lia.
Qed.

Lemma popFront_ends m G this cs m' :
  Rep m G → G !! this = Some cs → ends_in (popFront this m) m' →
  (popFront this m = Ret () m' ∧ cs ≠ [] ∧ Rep m' (<[this := tail cs]> G)) ∨
  (popFront this m = Throw EmptyQueue m' ∧ cs = [] ∧ m' = m).
Proof.
  intros HR Hthis Hend. destruct cs as [|[l v] cs].
  - destruct (Rep_lookup _ _ _ _ HR Hthis) as (q & Hq & Hwf).
    apply wfq_size_nil in Hwf as [Hz _].
    rewrite (popFront_empty this m q Hq Hz) in Hend |- *.
    simpl in Hend. right. by subst.
  - pose proof (popFront_spec m G this l v cs HR Hthis) as Hwp.
    unfold wp, ends_in in *.
    destruct (popFront this m) as [[] m1|e m1| |]; try done; subst m1.
    left. by destruct Hwp as [? _].
Qed.

(** ** Mutations and reachable memories *)

Lemma Rep_live m G r : Rep m G → is_Some (queues m !! r) → is_Some (G !! r).
Proof.
  intros (Hdom & _) Hr. apply elem_of_dom. rewrite <- Hdom.
  by apply elem_of_dom.
Qed.

Lemma mutate_frame m G x cs μ m' :
  Rep m G → G !! x = Some cs → ends_in (mutate x μ m) m' →
  ∃ cs', Rep m' (<[x := cs']> G).
Proof.
  intros HR Hx Hend. destruct μ as [v|]; simpl in Hend.
  - destruct (pushBack_ends _ _ _ _ _ _ HR Hx Hend)
      as [(_ & l & HR')|(_ & ->)]; [eauto|].
    exists cs. by rewrite insert_id.
  - destruct (popFront_ends _ _ _ _ _ HR Hx Hend)
      as [(_ & _ & HR')|(_ & _ & ->)]; [eauto|].
    exists cs. by rewrite insert_id.
Qed.

Lemma reachable_Rep m : reachable m → wf_mem m.
Proof.
  induction 1 as [p|m m' _ [G HR] Hend|m fuel other m' _ [G HR] Ho Hend
                 |m fuel this other m' _ [G HR] Ht Ho Hend
                 |m this v m' _ [G HR] Ht Hend|m this m' _ [G HR] Ht Hend
                 |m fuel this m' _ [G HR] Ht Hend
                 |m fuel queue predict m' _ [G HR] Hq Hend
                 |m fuel queue f m' _ [G HR] Hq Hend].
  - exists ∅. apply Rep_init.
  - simpl in Hend. subst m'. eexists. by apply (Rep_alloc_queue m G None).
  - destruct (Rep_live _ _ _ HR Ho) as [co Hco].
    apply (wp_ends_in _ _ _ _ _ wf_mem _
             (Queue_copy_spec fuel m G other co HR Hco) Hend).
    + intros c m1 (_ & _ & _ & new & _ & HR1). by eexists.
    + intros e m1 (_ & _ & HR1). by eexists.
  - destruct (Rep_live _ _ _ HR Ho) as [co Hco].
    destruct (Rep_live _ _ _ HR Ht) as [ct Hct].
    apply (wp_ends_in _ _ _ _ _ wf_mem _
             (operator_assign_spec fuel m G this other ct co HR Hct Hco)
             Hend).
    + intros c m1 (_ & _ & _ & _ & new & _ & HR1). by eexists.
    + intros e m1 (_ & _ & _ & HR1). by eexists.
  - destruct (Rep_live _ _ _ HR Ht) as [ct Hct].
    destruct (mutate_frame m G this ct (Push v) m' HR Hct Hend) as [cs' HR'].
    by eexists.
  - destruct (Rep_live _ _ _ HR Ht) as [ct Hct].
    destruct (mutate_frame m G this ct Pop m' HR Hct Hend) as [cs' HR'].
    by eexists.
  - destruct (Rep_live _ _ _ HR Ht) as [ct Hct].
    apply (wp_ends_in _ _ _ _ _ wf_mem _
             (destroy_spec fuel m G this ct HR Hct) Hend).
    + intros c m1 (HR1 & _). by eexists.
    + done.
  - destruct (Rep_live _ _ _ HR Hq) as [cq Hcq].
    apply (wp_ends_in _ _ _ _ _ wf_mem _
             (filter_spec fuel m G queue cq predict HR Hcq) Hend).
    + intros c m1 (_ & _ & _ & new & _ & HR1). by eexists.
    + intros e m1 (_ & _ & HR1). by eexists.
  - destruct (Rep_live _ _ _ HR Hq) as [cq Hcq].
    apply (wp_ends_in _ _ _ _ _ wf_mem _
             (transform_spec fuel m G queue cq f HR Hcq) Hend).
    + intros c m1 (_ & _ & new & _ & HR1). by eexists.
    + intros e m1 (_ & _ & HR1). by eexists.
Qed.

(** Mutating two distinct queues keeps the memory well formed, and a
    mutation of one never touches the cells of the other. *)
Lemma mutated_Rep a b m m' G ca cb :
  mutated a b m m' → Rep m G → G !! a = Some ca → G !! b = Some cb →
  ∃ G' ca' cb', Rep m' G' ∧ G' !! a = Some ca' ∧ G' !! b = Some cb'.
Proof.
  intros Hmut. revert G ca cb.
  induction Hmut as [m|m x μ m1 m2 Hx Hend _ IH]; intros G ca cb HR Ha Hb.
  - by exists G, ca, cb.
  - destruct (decide (a = b)) as [->|Hne].
    { assert (x = b) as -> by by destruct Hx.
      destruct (mutate_frame m G b cb μ m1 HR Hb Hend) as [cs' HR'].
      apply (IH _ cs' cs' HR'); by rewrite lookup_insert_eq. }
    destruct Hx as [->| ->].
    + destruct (mutate_frame m G a ca μ m1 HR Ha Hend) as [cs' HR'].
      apply (IH _ cs' cb HR');
        [by rewrite lookup_insert_eq | by rewrite lookup_insert_ne].
    + destruct (mutate_frame m G b cb μ m1 HR Hb Hend) as [cs' HR'].
      apply (IH _ ca cs' HR');
        [by rewrite lookup_insert_ne | by rewrite lookup_insert_eq].
Qed.

Lemma mutate_other m G x y cx cy μ m' :
  Rep m G → x ≠ y → G !! x = Some cx → G !! y = Some cy →
  ends_in (mutate x μ m) m' → holds m' y cy.*2.
Proof.
  intros HR Hne Hx Hy Hend.
  destruct (mutate_frame m G x cx μ m' HR Hx Hend) as [cs' HR'].
  apply (holds_intro m' _ y cy HR'). by rewrite lookup_insert_ne.
Qed.

(** * The properties of the specification *)

Lemma list_fmap_map {A B} (f : A → B) (l : list A) : f <$> l = map f l.
Proof. induction l as [|x l IH]; simpl; [done | by f_equal]. Qed.

(** C1 (FIFO discipline).  Pushing [vs = v1..vn] with [pushBack] onto an
    empty queue (no allocation failing, [n] within the range of [int])
    gives a queue whose [size()] is [n] and whose traversal from
    [begin()] to [end()] yields [v1..vn]; from there, [k] successive
    [popFront()] calls remove [v1..vk] in that order ([front()] shows
    each one just before it goes), leave [size()] at [n - k] and the
    traversal at [v(k+1)..vn]. *)
Theorem fifo_discipline (m : Mem) (q : qref) (vs : list T) :
  holds m q [] →
  Z.of_nat (length vs) ≤ INT_MAX →
  allocs_ok (length vs) (plan m) = true →
  ∃ m', push_all q vs m = Ret () m' ∧
        observes m' q vs ∧
        ∀ k, (k ≤ length vs)%nat →
          ∃ m'', pop_n k q m' = Ret (take k vs) m'' ∧
                 size q m'' = Ret (Z.of_nat (length vs) - Z.of_nat k) m'' ∧
                 observes m'' q (drop k vs).
Proof.
  intros (G & cs & HR & Hq & Hcs) Hlen Hok.
  apply fmap_nil_inv in Hcs. subst cs.
  destruct (push_all_spec vs m G q [] HR Hq) as (m' & new & Hrun & Hnew & HR' & _);
    [simpl; lia|done|].
  simpl in HR'. subst vs.
  assert (<[q := new]> G !! q = Some new) as Hq' by by rewrite lookup_insert_eq.
  exists m'. split; [done|]. split.
  { apply holds_observes. by apply (holds_intro _ _ _ _ HR'). }
  intros k Hk. rewrite length_fmap in Hk.
  destruct (pop_n_spec k m' _ q new HR' Hq' Hk) as (m'' & Hpop & HR'' & _).
  exists m''. split; [done|].
  assert (holds m'' q (drop k new.*2)) as Hh.
  { rewrite <- fmap_drop. apply (holds_intro _ _ _ _ HR'').
    by rewrite lookup_insert_eq. }
  apply holds_observes in Hh. split; [|done].
  destruct Hh as [Hsz _]. rewrite Hsz. f_equal.
  rewrite length_drop, length_fmap. lia.
Qed.

Lemma chain_last_null h p cs r :
  chain h p cs → last cs.*1 = Some r →
  ∃ n, h !! r = Some n ∧ next n = None.
Proof.
  revert p. induction cs as [|[l v] cs IH]; [done|].
  intros p (_ & nx & Hl & Hc) Hlast. destruct cs as [|c cs].
  - simpl in *. simplify_eq. eauto.
  - apply (IH nx Hc). exact Hlast.
Qed.

(** C2, as the code has it (state invariant).  In every memory reachable
    through the public operations, each live queue satisfies: count is 0
    exactly when front is null; when count is not 0, the nodes linked
    from front form a chain of count nodes and rear is the address of
    the last node of that chain, a live node whose [next] is null, so
    that a null rear implies count 0; and a [popFront] on a queue of
    count 1 returns and leaves count 0 and front null.  Nothing is said
    about rear when count is 0: [popFront] never writes it. *)
Theorem size_front_invariant (m : Mem) (r : qref) (q : Queue) :
  reachable m → queues m !! r = Some q →
  (m_size q = 0 ↔ m_front q = None) ∧
  (m_size q ≠ 0 →
   ∃ cs l n, chain (nodes m) (m_front q) cs ∧
             m_size q = Z.of_nat (length cs) ∧
             last cs.*1 = Some l ∧
             m_rear q = Some l ∧ nodes m !! l = Some n ∧ next n = None) ∧
  (m_rear q = None → m_size q = 0) ∧
  (m_size q = 1 →
   ∃ m' q', popFront r m = Ret () m' ∧ queues m' !! r = Some q' ∧
            m_size q' = 0 ∧ m_front q' = None).
Proof.
  intros [G HR]%reachable_Rep Hq.
  destruct (Rep_lookup_inv _ _ _ _ HR Hq) as (cs & Hcs & Hwf).
  pose proof Hwf as (Hc & Hs & Hm & Hnd & Hrear).
  split; [|split; [|split]].
  - destruct cs as [|[l v] cs]; simpl in *.
    + by rewrite Hs, Hc.
    + destruct Hc as [-> _]. split; [lia|done].
  - intros Hnz. destruct cs as [|c cs]; [done|].
    destruct (last (c :: cs).*1) as [l|] eqn:Hlast;
      [|by apply last_None in Hlast].
    destruct (chain_last_null _ _ _ _ Hc Hlast) as (n & Hn & Hnx).
    exists (c :: cs), l, n. rewrite Hrear by done. by rewrite Hlast.
  - intros Hr. destruct cs as [|c cs]; [done|].
    rewrite Hrear in Hr by done. by apply last_None in Hr.
  - intros H1. destruct cs as [|[l v] [|c cs]]; simpl in Hs; try lia.
    destruct (wp_inv_ret _ _ _ _ (popFront_spec m G r l v [] HR Hcs))
      as ([] & m' & Hpop & HR' & _); [done|].
    destruct (Rep_lookup m' _ r [] HR') as (q' & Hq' & Hwf');
      [by rewrite lookup_insert_eq|].
    apply wfq_size_nil in Hwf' as [? ?]. by exists m', q'.
Qed.

(** C4 (empty-queue misuse).  When [size()] is 0, both overloads of
    [front()] and [popFront()] throw [EmptyQueue] and leave the memory
    exactly as it was; when [size()] is not 0 none of them throws
    [EmptyQueue]. *)
Theorem empty_queue_misuse (m : Mem) (this : qref) (z : Z) :
  size this m = Ret z m →
  (z = 0 →
   front this m = Throw EmptyQueue m ∧
   front_const this m = Throw EmptyQueue m ∧
   popFront this m = Throw EmptyQueue m) ∧
  (z ≠ 0 →
   ∀ m', front this m ≠ Throw EmptyQueue m' ∧
         front_const this m ≠ Throw EmptyQueue m' ∧
         popFront this m ≠ Throw EmptyQueue m').
Proof.
  intros Hsize.
  assert (∃ q, queues m !! this = Some q ∧ m_size q = z) as (q & Hq & Hz).
  { revert Hsize. run_defs. destruct (queues m !! this) as [q|]; [|done].
    intros [= <-]. eauto. }
  split.
  - intros ->.
    by rewrite (front_empty _ _ _ Hq Hz), (front_const_empty _ _ _ Hq Hz),
         (popFront_empty _ _ _ Hq Hz).
  - intros Hnz m'. subst z. destruct q as [f r sz]. simpl in Hnz.
    run_defs. crunch. repeat split; repeat case_match; congruence.
Qed.

(** C8 (iterator sentinel misuse).  On an iterator that compares equal
    to [end()], dereferencing and both increments throw
    [InvalidOperation] (memory unchanged); on an iterator that compares
    different from [end()] none of them throws it.  *)
Theorem iterator_sentinel_misuse (it : RawIterator) (q : qref) (m : Mem) :
  (operator_ne it (end_ q) = false →
   operator_star it m = Throw InvalidOperation m ∧
   operator_pre_incr it m = Throw InvalidOperation m ∧
   operator_post_incr it m = Throw InvalidOperation m) ∧
  (operator_ne it (end_ q) = true →
   ∀ m', operator_star it m ≠ Throw InvalidOperation m' ∧
         operator_pre_incr it m ≠ Throw InvalidOperation m' ∧
         operator_post_incr it m ≠ Throw InvalidOperation m').
Proof.
  destruct it as [p [l|]]; (split; [intros Hne|intros Hne m']);
    try discriminate Hne; try done.
  run_defs. repeat split; repeat case_match; congruence.
Qed.

(** C9 (iterator comparison).  Two iterators compare equal (that is,
    [operator!=] answers [false]) exactly when their current node
    pointers are the same, node or null; [operator!=] answers [true]
    exactly when they differ. *)
Theorem iterator_comparison (a b : RawIterator) :
  (operator_ne a b = false ↔ m_currentNode a = m_currentNode b) ∧
  (operator_ne a b = true ↔ m_currentNode a ≠ m_currentNode b).
Proof.
  unfold operator_ne. destruct (decide (m_currentNode a = m_currentNode b)).
  - rewrite bool_decide_eq_true_2 by done. simpl. split; split; done.
  - rewrite bool_decide_eq_false_2 by done. simpl. split; split; done.
Qed.

(** C10 (the queue is ignored by the comparison).  [operator!=] answers
    [false] on any two iterators with the same current node, whatever
    queues they came from; in particular on the [end()] iterators of any
    two queues. *)
Theorem end_iterators_equal (q1 q2 : qref) :
  operator_ne (end_ q1) (end_ q2) = false ∧
  ∀ p, operator_ne (mkIter q1 p) (mkIter q2 p) = false.
Proof.
  split; [done|]. intros p. unfold operator_ne. simpl.
  by rewrite bool_decide_eq_true_2.
Qed.

Lemma independent_copies_intro m G c q cc cq :
  Rep m G → c ≠ q → G !! c = Some cc → G !! q = Some cq →
  cc.*2 = cq.*2 → independent_copies m c q cq.*2.
Proof.
  intros HR Hne Hc Hq Heq. split; [|split].
  - rewrite <- Heq. apply holds_observes. by apply (holds_intro _ G).
  - apply holds_observes. by apply (holds_intro _ G).
  - intros m2 Hmut.
    destruct (mutated_Rep _ _ _ _ _ _ _ Hmut HR Hc Hq)
      as (G2 & cc2 & cq2 & HR2 & Hc2 & Hq2).
    exists cc2.*2, cq2.*2.
    split; [apply holds_observes; by apply (holds_intro _ G2)|].
    split; [apply holds_observes; by apply (holds_intro _ G2)|].
    split; intros μ m3 Hend; apply holds_observes.
    + by apply (mutate_other m2 G2 c q cc2 cq2 μ).
    + by apply (mutate_other m2 G2 q c cq2 cc2 μ).
Qed.

(** C3 (deep-copy value semantics).  For a queue [q] with elements [vs]:
    a returning copy construction gives a new queue object with the same
    size and the same element sequence, and a returning assignment of
    [q] to another queue [t] gives [t] the same; in both cases a later
    [pushBack] or [popFront] on either queue, however many came before,
    leaves the size and element sequence of the other unchanged.  Both
    operations do return when none of the [length vs] allocations
    fails. *)
Theorem copy_deep_independence (m : Mem) (q : qref) (vs : list T)
    (fuel : nat) :
  holds m q vs → (length vs < fuel)%nat →
  (∀ c m1, Queue_copy fuel q m = Ret c m1 →
           c ≠ q ∧ independent_copies m1 c q vs) ∧
  (allocs_ok (length vs) (plan m) = true →
   ∃ c m1, Queue_copy fuel q m = Ret c m1) ∧
  (∀ t ws, holds m t ws → (length ws < fuel)%nat → t ≠ q →
     (∀ r m1, operator_assign fuel t q m = Ret r m1 →
              r = t ∧ independent_copies m1 t q vs) ∧
     (allocs_ok (length vs) (plan m) = true →
      ∃ m1, operator_assign fuel t q m = Ret t m1)).
Proof.
  intros (G & cq & HR & Hq & <-) Hfuel. rewrite length_fmap in *.
  pose proof (Queue_copy_spec fuel m G q cq HR Hq) as Hcopy.
  pose proof (wp_fuel _ _ _ _ _ Hcopy ltac:(lia)) as Hcopy'.
  split; [|split].
  - intros c m1 Hrun. unfold wp in Hcopy. rewrite Hrun in Hcopy.
    destruct Hcopy as (_ & _ & Hc & new & Hnew & HR1).
    assert (c ≠ q) as Hne by (intros ->; congruence).
    split; [done|].
    apply (independent_copies_intro m1 _ c q new cq HR1 Hne);
      [by rewrite lookup_insert_eq|by rewrite lookup_insert_ne|done].
  - intros Hok.
    destruct (wp_inv_ret _ _ _ _ Hcopy') as (c & m1 & Hrun & _); [|eauto].
    intros e m' (_ & Hno & _). congruence.
  - intros t ws Ht Hfuelt Hne.
    destruct (holds_elim _ _ _ _ HR Ht) as (ct & Hct & <-).
    rewrite length_fmap in Hfuelt.
    pose proof (operator_assign_spec fuel m G t q ct cq HR Hct Hq) as Hasg.
    split.
    + intros r m1 Hrun. unfold wp in Hasg. rewrite Hrun in Hasg.
      destruct Hasg as (-> & _ & _ & _ & new & Hnew & HR1).
      split; [done|].
      apply (independent_copies_intro m1 _ t q new cq HR1 Hne);
        [by rewrite lookup_insert_eq|by rewrite lookup_insert_ne|done].
    + intros Hok.
      apply wp_fuel in Hasg; [|lia].
      destruct (wp_inv_ret _ _ _ _ Hasg) as (r & m1 & Hrun & -> & _);
        [|eauto].
      intros e m' (_ & _ & Hno & _). congruence.
Qed.

(** C5 (assignment atomicity).  Assigning [other] to a different queue
    [this]: the copy of [other] is built first, and an exception leaving
    that copy leaves the assignment at once with the same exception and
    the same memory; when one of the [length vo] allocations of the copy
    fails, the assignment throws [std::bad_alloc] and [this] (like
    [other]) still has the size and element sequence it had before.  No
    other exception leaves an assignment. *)
Theorem assignment_atomicity (m : Mem) (this other : qref)
    (vt vo : list T) (fuel : nat) :
  holds m this vt → holds m other vo → this ≠ other →
  (length vt < fuel)%nat → (length vo < fuel)%nat →
  (∀ e m1, Queue_copy fuel other m = Throw e m1 →
           operator_assign fuel this other m = Throw e m1) ∧
  (allocs_ok (length vo) (plan m) = false →
   ∃ m', operator_assign fuel this other m = Throw bad_alloc m' ∧
         observes m' this vt ∧ observes m' other vo) ∧
  (∀ e m', operator_assign fuel this other m = Throw e m' →
           e = bad_alloc ∧ allocs_ok (length vo) (plan m) = false ∧
           observes m' this vt ∧ observes m' other vo).
Proof.
  intros (G & ct & HR & Ht & <-) Ho Hne Hft Hfo.
  destruct (holds_elim _ _ _ _ HR Ho) as (co & Hco & <-).
  rewrite length_fmap in *.
  pose proof (operator_assign_spec fuel m G this other ct co HR Ht Hco)
    as Hasg.
  apply wp_fuel in Hasg; [|lia].
  assert (∀ m', Rep m' G → observes m' this ct.*2 ∧ observes m' other co.*2)
    as Hobs.
  { intros m' HR'. split; apply holds_observes; by apply (holds_intro _ G). }
  split; [|split].
  - intros e m1 Hrun. unfold operator_assign.
    rewrite decide_False by done. by apply bind_throw_eq.
  - intros Hno.
    destruct (wp_inv_throw _ _ _ _ Hasg)
      as (e & m' & Hrun & -> & _ & _ & HR').
    { intros r m' (_ & [?|?] & _); congruence. }
    exists m'. split; [done|]. by apply Hobs.
  - intros e m' Hrun. unfold wp in Hasg. rewrite Hrun in Hasg.
    destruct Hasg as (-> & _ & Hno & HR').
    split; [done|]. split; [done|]. by apply Hobs.
Qed.

(** C6 (filter).  [filter(q, predict)] on a queue with elements [vs]
    (none of the needed allocations failing) returns a new queue object
    whose elements are those [v] of [vs] with [predict v = true], in the
    order of [vs]; and however the call ends, [q] has the size and the
    element sequence [vs] afterwards. *)
Theorem filter_correct (m : Mem) (q : qref) (vs : list T)
    (predict : T → bool) (fuel : nat) :
  holds m q vs → (length vs < fuel)%nat →
  (allocs_ok (length (List.filter predict vs)) (plan m) = true →
   ∃ r m', filter fuel q predict m = Ret r m' ∧ r ≠ q ∧
           observes m' r (List.filter predict vs) ∧ observes m' q vs) ∧
  (∀ m', ends_in (filter fuel q predict m) m' → observes m' q vs).
Proof.
  intros (G & cq & HR & Hq & <-) Hfuel. rewrite length_fmap in *.
  pose proof (filter_spec fuel m G q cq predict HR Hq) as Hf.
  split.
  - intros Hok. apply wp_fuel in Hf; [|lia].
    destruct (wp_inv_ret _ _ _ _ Hf)
      as (r & m' & Hrun & _ & _ & Hr & new & Hnew & HR').
    { intros e m' (_ & Hno & _). congruence. }
    assert (r ≠ q) as Hne by (intros ->; congruence).
    exists r, m'. split; [done|]. split; [done|].
    split; apply holds_observes.
    + rewrite <- Hnew. apply (holds_intro _ _ _ _ HR').
      by rewrite lookup_insert_eq.
    + apply (holds_intro _ _ _ _ HR'). by rewrite lookup_insert_ne.
  - intros m' Hend. apply holds_observes.
    apply (wp_ends_in _ _ _ _ _ (λ m', holds m' q cq.*2) _ Hf Hend).
    + intros r m1 (_ & _ & Hr & new & _ & HR').
      apply (holds_intro _ _ _ _ HR'). rewrite lookup_insert_ne; [done|].
      intros ->. congruence.
    + intros e m1 (_ & _ & HR'). by apply (holds_intro _ G).
Qed.

(** C7 (transform).  [transform(q, f)] on a queue with elements [vs]
    (none of the [2 * length vs] allocations failing) returns and leaves
    [q] with the elements [map f vs]: same size, same order of
    positions, each element [e] replaced by [f e]. *)
Theorem transform_correct (m : Mem) (q : qref) (vs : list T)
    (f : T → T) (fuel : nat) :
  holds m q vs → (length vs < fuel)%nat →
  allocs_ok (length vs + length vs) (plan m) = true →
  ∃ m', transform fuel q f m = Ret () m' ∧
        observes m' q (map f vs) ∧
        size q m' = Ret (Z.of_nat (length vs)) m'.
Proof.
  intros (G & cq & HR & Hq & <-) Hfuel Hok. rewrite length_fmap in *.
  pose proof (transform_spec fuel m G q cq f HR Hq) as Ht.
  apply wp_fuel in Ht; [|lia].
  destruct (wp_inv_ret _ _ _ _ Ht) as ([] & m' & Hrun & _ & _ & new & Hnew & HR').
  { intros e m' (_ & Hno & _). congruence. }
  exists m'. split; [done|].
  assert (observes m' q (map f cq.*2)) as Hobs.
  { apply holds_observes. rewrite <- list_fmap_map, <- Hnew.
    apply (holds_intro _ _ _ _ HR'). by rewrite lookup_insert_eq. }
  split; [done|]. destruct Hobs as [Hsz _].
  by rewrite Hsz, length_map, length_fmap.
Qed.

(** ** Client scripts *)

Lemma final_ends_in {A} (o : outcome A) m' : final o = Some m' → ends_in o m'.
Proof. destruct o; simpl; congruence. Qed.

Lemma live_is_Some m q : live m q = true → is_Some (queues m !! q).
Proof. unfold live. by intros ?%bool_decide_eq_true_1. Qed.

Lemma perform_reachable c m m' :
  reachable m → perform c m = Some m' → reachable m'.
Proof.
  intros Hm. destruct c; cbv beta iota delta [perform];
    repeat (case_match; try done);
    repeat match goal with
      | H : _ && _ = true |- _ => apply andb_true_iff in H as [? ?]
      | H : live _ _ = true |- _ => apply live_is_Some in H
      end;
    intros Hf%final_ends_in.
  - by eapply reach_default.
  - eapply reach_copy; [exact Hm| |exact Hf]; done.
  - eapply reach_assign; [exact Hm| | |exact Hf]; done.
  - eapply reach_pushBack; [exact Hm| |exact Hf]; done.
  - eapply reach_popFront; [exact Hm| |exact Hf]; done.
  - eapply reach_destroy; [exact Hm| |exact Hf]; done.
  - eapply reach_filter; [exact Hm| |exact Hf]; done.
  - eapply reach_transform; [exact Hm| |exact Hf]; done.
Qed.

Lemma run_calls_reachable cs : ∀ m, reachable m → reachable (run_calls cs m).
Proof.
  induction cs as [|c cs IH]; intros m Hm; simpl; [done|].
  destruct (perform c m) as [m'|] eqn:Hp; [|done].
  apply IH. by apply (perform_reachable c m).
Qed.

(** ** From observations back to the representation *)

Lemma iterate_short rest : ∀ fuel (m : Mem) r e,
  chain (nodes m) (head rest.*1) rest → m_currentNode e = None →
  (fuel ≤ length rest)%nat →
  iterate fuel (mkIter r (head rest.*1)) e m = OutOfFuel.
Proof.
  induction rest as [|[l v] rest IH]; intros fuel m r e Hc He Hfuel;
    (destruct fuel as [|fuel]; [done|]); simpl in Hfuel; [lia|].
  simpl iterate. change (head ((l, v) :: rest).*1) with (Some l).
  rewrite operator_ne_some by done.
  destruct (iter_step m r l v rest Hc) as (Hstar & Hread & Hincr & _).
  rewrite (bind_ret_eq _ _ _ _ _ Hstar), (bind_ret_eq _ _ _ _ _ Hread),
    (bind_ret_eq _ _ _ _ _ Hincr).
  destruct Hc as (_ & nx & _ & Hc). rewrite (chain_head _ _ _ Hc) in Hc.
  unfold mbind, M_bind, bind. by rewrite (IH fuel m r e Hc He ltac:(lia)).
Qed.

Lemma wf_observes_holds m q vs fuel :
  wf_mem m → elements fuel q m = Ret vs m → holds m q vs.
Proof.
  intros [G HR] Hel.
  destruct (queues m !! q) as [qq|] eqn:Hqq.
  2:{ revert Hel. unfold elements. run_defs. by rewrite Hqq. }
  destruct (Rep_lookup_inv _ _ _ _ HR Hqq) as (cs & Hq & _).
  exists G, cs. split; [done|]. split; [done|].
  destruct (decide (length cs < fuel)%nat) as [Hlt|Hge].
  - rewrite (elements_spec fuel m G q cs HR Hq Hlt) in Hel. congruence.
  - revert Hel. unfold elements.
    rewrite (bind_ret_eq _ _ _ _ _ (begin_spec _ _ _ _ HR Hq)).
    rewrite iterate_short; [done| |done|lia].
    apply (Rep_suffix_chain m G q [] cs HR Hq).
Qed.

(** * Ownership of the nodes *)

Lemma Own_put m G this q' cs' h' p :
  Own m G →
  wfq h' q' cs' →
  (∀ r cs l, r ≠ this → G !! r = Some cs → l ∈ cs.*1 →
             h' !! l = nodes m !! l ∧ l ∉ cs'.*1) →
  (∀ l, is_Some (h' !! l) → l ∉ cs'.*1 →
        is_Some (nodes m !! l) ∧ ∀ cs, G !! this = Some cs → l ∉ cs.*1) →
  Own (mkMem h' (<[this := q']> (queues m)) p) (<[this := cs']> G).
Proof.
  intros [HR HT] Hwf Hframe Hnew. split; [by apply Rep_put|].
  intros l Hl. simpl in Hl.
  destruct (decide (l ∈ cs'.*1)) as [Hin|Hout].
  { exists this, cs'. by rewrite lookup_insert_eq. }
  destruct (Hnew l Hl Hout) as [Hold Hnot].
  destruct (HT l Hold) as (r & cs & Hr & Hlr).
  assert (r ≠ this) as Hne by (intros ->; by apply (Hnot cs)).
  exists r, cs. by rewrite lookup_insert_ne.
Qed.

Lemma Own_set_plan m G p : Own m G → Own (set_plan p m) G.
Proof. by intros [HR HT]. Qed.

Lemma Own_init p : Own (init_mem p) ∅.
Proof.
  split; [apply Rep_init|]. intros l [n Hn]. simpl in Hn.
  by rewrite lookup_empty in Hn.
Qed.

Lemma Own_alloc_queue m G r0 :
  Own m G →
  Own (set_queues (<[fresh (dom (queues m)) := mkQueue None r0 0]> (queues m)) m)
    (<[fresh (dom (queues m)) := []]> G).
Proof.
  intros HO. apply (Own_put m G); [done|apply wfq_nil| |].
  - intros r cs l _ _ _. split; [done|]. simpl. apply not_elem_of_nil.
  - intros l Hl _. split; [done|]. intros cs Hcs.
    destruct HO as [HR _]. by rewrite (Rep_fresh _ _ HR) in Hcs.
Qed.

(** Releasing the storage of a queue object that owns no node. *)
Lemma Own_free m G this :
  Own m G → G !! this = Some [] →
  Own (set_queues (delete this (queues m)) m) (delete this G).
Proof.
  intros [HR HT] Hthis. split; [by apply Rep_free|].
  intros l Hl. destruct (HT l Hl) as (r & cs & Hr & Hlr).
  assert (r ≠ this) as Hne.
  { intros ->. simplify_eq. by apply elem_of_nil in Hlr. }
  exists r, cs. by rewrite lookup_delete_ne.
Qed.

Lemma Own_swap m G a b qa qb ca cb :
  Own m G → a ≠ b →
  queues m !! a = Some qa → queues m !! b = Some qb →
  G !! a = Some ca → G !! b = Some cb →
  Own (set_queues (<[b := qa]> (<[a := qb]> (queues m))) m)
    (<[b := ca]> (<[a := cb]> G)).
Proof.
  intros [HR HT] Hne Hqa Hqb Ha Hb. split; [by apply Rep_swap|].
  intros l Hl. destruct (HT l Hl) as (r & cs & Hr & Hlr).
  destruct (decide (r = a)) as [->|Hra].
  { assert (cs = ca) as -> by congruence.
    exists b, ca. by rewrite lookup_insert_eq. }
  destruct (decide (r = b)) as [->|Hrb].
  { assert (cs = cb) as -> by congruence.
    exists a, cb. by rewrite lookup_insert_ne, lookup_insert_eq. }
  exists r, cs. by rewrite !lookup_insert_ne.
Qed.

Lemma Own_write m G r pre l v post n v' :
  Own m G → G !! r = Some (pre ++ (l, v) :: post) → nodes m !! l = Some n →
  Own (set_nodes (<[l := mkNode v' (next n)]> (nodes m)) m)
    (<[r := pre ++ (l, v') :: post]> G).
Proof.
  intros [HR HT] Hr Hn. split; [by apply (Rep_write _ _ _ _ _ v)|].
  intros l' Hl'. simpl in Hl'.
  assert (is_Some (nodes m !! l')) as Hold.
  { destruct (decide (l' = l)) as [->|Hne]; [eauto|].
    by rewrite lookup_insert_ne in Hl'. }
  destruct (HT l' Hold) as (r' & cs & Hr' & Hlr).
  destruct (decide (r' = r)) as [->|Hne].
  - assert (cs = pre ++ (l, v) :: post) as -> by congruence.
    exists r, (pre ++ (l, v') :: post).
    rewrite lookup_insert_eq. split; [done|].
    by rewrite (fmap_fst_update _ _ _ v).
  - exists r', cs. by rewrite lookup_insert_ne.
Qed.

Lemma pushBack_own m G this cs v :
  Own m G → G !! this = Some cs → Z.of_nat (length cs) < INT_MAX →
  wp (pushBack this v) m True
    (λ _ m', ∃ l q', Own m' (<[this := cs ++ [(l, v)]]> G) ∧
                     queues m' = <[this := q']> (queues m))
    (λ e m', e = bad_alloc ∧ m' = set_plan (tail (plan m)) m).
Proof.
  intros HO Hthis Hlt. pose proof HO as [HR HT].
  destruct (Rep_lookup _ _ _ _ HR Hthis) as (q & Hq & Hwf).
  destruct (decide (head (plan m) = Some false)) as [Hp|Hp].
  { destruct (plan m) as [|[] p] eqn:Hpl; simplify_eq/=.
    eapply wp_eq_throw; [by apply pushBack_fail|]. done. }
  pose proof Hwf as (Hc & Hs & Hm & Hnd & Hrear).
  set (l := fresh (dom (nodes m))).
  assert (∀ r cs0 l0, G !! r = Some cs0 → l0 ∈ cs0.*1 → l0 ≠ l) as Hfresh.
  { intros r cs0 l0 Hr Hl0 ->. by apply (Rep_cell_not_fresh _ _ _ _ HR Hr). }
  destruct cs as [|c cs'].
  - eapply wp_eq_ret; [by apply (pushBack_first _ _ _ q)|].
    exists l. eexists. split; [|reflexivity].
    apply Own_put; [done|apply wfq_singleton| |].
    + intros r cs0 l0 Hne Hr Hl0. pose proof (Hfresh _ _ _ Hr Hl0). split.
      * by rewrite lookup_insert_ne.
      * simpl. by intros ?%list_elem_of_singleton.
    + intros l0 Hl0 Hout. simpl in Hout.
      assert (l0 ≠ l) as Hne.
      { intros ->. apply Hout. by apply list_elem_of_singleton. }
      rewrite lookup_insert_ne in Hl0 by done. split; [done|].
      intros cs Hcs. simplify_eq. apply not_elem_of_nil.
  - assert (∃ r, m_rear q = Some r ∧ r ∈ (c :: cs').*1) as (r & Hr & Hrin).
    { rewrite Hrear by done.
      destruct (last (c :: cs').*1) as [r|] eqn:Hlast.
      - exists r. split; [done|]. by apply last_Some_elem_of.
      - by apply last_None in Hlast. }
    destruct (chain_lookup _ _ _ _ Hc Hrin) as [n Hn].
    eapply wp_eq_ret.
    { apply (pushBack_next _ _ _ q r n); try done.
      - rewrite Hs. simpl. lia.
      - lia. }
    exists l. eexists. fold l. split; [|reflexivity].
    apply Own_put; [done| | |].
    + apply wfq_push_next; try done; [lia|].
      intros Hl. by apply (Hfresh _ _ _ Hthis Hl).
    + intros r' cs0 l0 Hne Hr' Hl0. pose proof (Hfresh _ _ _ Hr' Hl0).
      destruct HR as (_ & _ & Hdis).
      pose proof (Hdis r' this _ _ l0 Hne Hr' Hthis Hl0) as Hnot.
      split.
      * rewrite !lookup_insert_ne; [done..|]. by intros ->.
      * rewrite fmap_app.
        intros [?|?%list_elem_of_singleton]%elem_of_app; done.
    + intros l0 Hl0 Hout. rewrite fmap_app in Hout.
      apply not_elem_of_app in Hout as [Hout1 Hout2].
      assert (l0 ≠ l) as Hne.
      { intros ->. apply Hout2. by apply list_elem_of_singleton. }
      assert (l0 ≠ r) as Hne' by (by intros ->).
      rewrite !lookup_insert_ne in Hl0 by done. split; [done|].
      intros cs Hcs. by simplify_eq.
Qed.

Lemma popFront_own m G this l v cs :
  Own m G → G !! this = Some ((l, v) :: cs) →
  wp (popFront this) m True
    (λ _ m', ∃ q', Own m' (<[this := cs]> G) ∧
                   queues m' = <[this := q']> (queues m) ∧
                   nodes m' = delete l (nodes m) ∧ plan m' = plan m)
    (λ _ _, False).
Proof.
  intros HO Hthis. pose proof HO as [HR HT].
  destruct (Rep_lookup _ _ _ _ HR Hthis) as (q & Hq & Hwf).
  pose proof Hwf as (Hc & Hs & Hm & Hnd & Hrear).
  simpl in Hc. destruct Hc as (Hf & nx & Hl & Hc). simpl in *.
  eapply wp_eq_ret.
  { eapply (popFront_node _ _ q l _ Hq); try done; unfold INT_MIN; lia. }
  eexists. split; [|done].
  apply Own_put; [done|by apply (wfq_pop _ _ l v)| |].
  - intros r cs0 l0 Hne Hr Hl0.
    destruct HR as (_ & _ & Hdis).
    pose proof (Hdis r this _ _ l0 Hne Hr Hthis Hl0) as Hnot.
    apply not_elem_of_cons in Hnot as [Hne0 Hnot]. simpl in *.
    split; [|done]. by rewrite lookup_delete_ne.
  - intros l0 Hl0 Hout.
    assert (l0 ≠ l) as Hne.
    { intros ->. rewrite lookup_delete_eq in Hl0. by destruct Hl0. }
    rewrite lookup_delete_ne in Hl0 by done. split; [done|].
    intros cs0 Hcs0. simplify_eq. simpl.
    by intros [?|?]%elem_of_cons.
Qed.

Lemma Rep_not_live m G r : Rep m G → G !! r = None → queues m !! r = None.
Proof.
  intros (Hdom & _) Hr. apply not_elem_of_dom. rewrite Hdom.
  by apply not_elem_of_dom.
Qed.

Lemma Queue_dtor_own cs : ∀ fuel m G this,
  Own m G → G !! this = Some cs →
  wp (Queue_dtor fuel this) m True
    (λ _ m', ∃ q', Own m' (<[this := []]> G) ∧
                   queues m' = <[this := q']> (queues m) ∧
                   (∀ l, nodes m' !! l =
                         if decide (l ∈ cs.*1) then None else nodes m !! l) ∧
                   plan m' = plan m)
    (λ _ _, False).
Proof.
  induction cs as [|[l v] cs IH]; intros fuel m G this HO Hthis;
    (destruct fuel as [|fuel]; [done|]);
    pose proof HO as [HR _];
    destruct (Rep_lookup _ _ _ _ HR Hthis) as (q & Hq & Hwf);
    pose proof Hwf as (_ & Hs & _); simpl in Hs;
    simpl Queue_dtor; wp_run (get_m_size_eq _ _ _ Hq).
  - rewrite decide_False by lia. apply wp_ret. exists q.
    rewrite !insert_id by done. done.
  - rewrite decide_True by lia. apply wp_bind.
    eapply wp_mono;
      [apply (popFront_own m G this l v cs HO Hthis)|done| |done].
    intros _ m1 (q1 & HO1 & Hqs1 & Hn1 & Hp1). cbv beta.
    eapply wp_mono; [apply (IH fuel m1 _ this HO1)| | |done].
    + by rewrite lookup_insert_eq.
    + done.
    + intros _ m2 (q2 & HO2 & Hqs2 & Hn2 & Hp2).
      rewrite insert_insert_eq in HO2. exists q2.
      split; [done|]. split; [by rewrite Hqs2, Hqs1, insert_insert_eq|].
      split; [|congruence].
      intros l'. rewrite Hn2, Hn1.
      change ((l, v) :: cs).*1 with (l :: cs.*1).
      destruct (decide (l' ∈ cs.*1)) as [Hin|Hout];
        destruct (decide (l' ∈ l :: cs.*1)) as [Hin'|Hout']; try done.
      * exfalso. apply Hout'. apply elem_of_cons. by right.
      * apply elem_of_cons in Hin' as [->|?]; [|done].
        apply lookup_delete_eq.
      * apply lookup_delete_ne. intros ->. apply Hout'.
        apply elem_of_cons. by left.
Qed.

Lemma destroy_own fuel m G this cs :
  Own m G → G !! this = Some cs →
  wp (destroy fuel this) m True
    (λ _ m', Own m' (delete this G) ∧
             queues m' = delete this (queues m) ∧
             (∀ l, nodes m' !! l =
                   if decide (l ∈ cs.*1) then None else nodes m !! l) ∧
             plan m' = plan m)
    (λ _ _, False).
Proof.
  intros HO Hthis. unfold destroy. apply wp_bind.
  eapply wp_mono; [apply (Queue_dtor_own cs fuel m G this HO Hthis)
                  |done| |done].
  intros _ m1 (q1 & HO1 & Hqs1 & Hn1 & Hp1). cbv beta.
  pose proof HO1 as [HR1 _].
  destruct (Rep_lookup m1 _ this [] HR1) as (q & Hq & _);
    [by rewrite lookup_insert_eq|].
  eapply wp_eq_ret; [by apply (free_queue_eq _ _ q)|].
  split.
  { apply (Own_free _ _ this) in HO1; [|by rewrite lookup_insert_eq].
    by rewrite delete_insert_eq in HO1. }
  split; [simpl; by rewrite Hqs1, delete_insert_eq|]. done.
Qed.

Lemma copy_loop_own rest : ∀ fuel m G this other acc seen,
  Own m G → this ≠ other →
  G !! this = Some acc → G !! other = Some (seen ++ rest) →
  Z.of_nat (length acc + length rest) ≤ INT_MAX →
  wp (copy_loop fuel this other (mkIter other (head rest.*1))) m True
    (λ _ m', ∃ new q', Own m' (<[this := acc ++ new]> G) ∧
                       queues m' = <[this := q']> (queues m))
    (λ e m', e = bad_alloc ∧
             ∃ new q', Own m' (<[this := acc ++ new]> G) ∧
                       queues m' = <[this := q']> (queues m)).
Proof.
  induction rest as [|[l v] rest IH];
    intros fuel m G this other acc seen HO Hne Hthis Hother Hlen;
    (destruct fuel as [|fuel]; [done|]); simpl copy_loop;
    pose proof HO as [HR _];
    destruct (Rep_lookup _ _ _ _ HR Hthis) as (q & Hq & _).
  - eapply wp_eq_ret; [reflexivity|]. exists [], q.
    by rewrite app_nil_r, !insert_id.
  - change (head ((l, v) :: rest).*1) with (Some l).
    pose proof (Rep_suffix_chain _ _ _ _ _ HR Hother) as Hc.
    destruct (iter_step m other l v rest Hc) as (Hstar & Hread & _).
    wp_run Hstar. wp_run Hread. apply wp_bind.
    eapply wp_mono; [apply (pushBack_own m G this acc v HO Hthis)| done | |].
    { simpl in Hlen. lia. }
    + intros _ m1 (l1 & q1 & HO1 & Hqs1). cbv beta.
      pose proof HO1 as [HR1 _].
      assert (<[this := acc ++ [(l1, v)]]> G !! other
              = Some (seen ++ (l, v) :: rest))
        as Hother1 by by rewrite lookup_insert_ne.
      pose proof (Rep_suffix_chain _ _ _ _ _ HR1 Hother1) as Hc1.
      destruct (iter_step m1 other l v rest Hc1) as (_ & _ & Hincr & _).
      wp_run Hincr.
      assert (∀ m2, (∃ new q', Own m2 (<[this := (acc ++ [(l1, v)]) ++ new]>
                                         (<[this := acc ++ [(l1, v)]]> G)) ∧
                               queues m2 = <[this := q']> (queues m1)) →
                    ∃ new q', Own m2 (<[this := acc ++ new]> G) ∧
                              queues m2 = <[this := q']> (queues m)) as Hpost.
      { intros m2 (new & q2 & HO2 & Hqs2). exists ((l1, v) :: new), q2.
        rewrite insert_insert_eq, <- app_assoc in HO2. split; [done|].
        by rewrite Hqs2, Hqs1, insert_insert_eq. }
      eapply wp_mono;
        [apply (IH fuel m1 _ this other (acc ++ [(l1, v)]) (seen ++ [(l, v)])
                  HO1 Hne)| | |].
      * by rewrite lookup_insert_eq.
      * by rewrite <- app_assoc.
      * rewrite length_app. simpl in *. lia.
      * done.
      * intros ? m2. apply Hpost.
      * intros e m2 [-> H2]. split; [done|]. by apply Hpost.
    + intros e m1 [-> ->]. split; [done|]. exists [], q.
      rewrite app_nil_r, insert_id by done. split; [by apply Own_set_plan|].
      simpl. by rewrite insert_id.
Qed.

Lemma Queue_copy_own fuel m G other cs :
  Own m G → G !! other = Some cs →
  wp (Queue_copy fuel other) m True
    (λ this m', G !! this = None ∧
                ∃ new q', Own m' (<[this := new]> G) ∧
                          queues m' = <[this := q']> (queues m))
    (λ _ m', Own m' G ∧ queues m' = queues m).
Proof.
  intros HO Hother. unfold Queue_copy. pose proof HO as [HR _].
  pose proof (Rep_fresh _ _ HR) as Hfresh.
  pose proof (Rep_not_live _ _ _ HR Hfresh) as Hdead.
  pose proof (Own_alloc_queue m G None HO) as HO0.
  set (this := fresh (dom (queues m))) in *.
  set (m0 := set_queues _ m) in HO0.
  assert (this ≠ other) as Hne by (intros ->; congruence).
  assert (<[this := []]> G !! other = Some cs) as Hother0
    by by rewrite lookup_insert_ne.
  destruct (Rep_lookup _ _ _ _ HR Hother) as (qo & _ & Hwfo).
  apply wfq_length_le in Hwfo. pose proof HO0 as [HR0 _].
  apply wp_bind. eapply wp_eq_ret; [reflexivity|]. fold this m0.
  apply wp_bind. apply wp_catch. apply wp_bind.
  eapply wp_eq_ret; [apply (begin_spec _ _ _ _ HR0 Hother0)|].
  eapply wp_mono;
    [apply (copy_loop_own cs fuel m0 _ this other [] [] HO0 Hne)|done| |].
  - by rewrite lookup_insert_eq.
  - done.
  - simpl. lia.
  - intros _ m1 (new & q1 & HO1 & Hqs1). apply wp_ret.
    rewrite insert_insert_eq in HO1. split; [done|].
    exists new, q1. split; [done|].
    rewrite Hqs1. unfold m0. simpl. by rewrite insert_insert_eq.
  - intros e m1 (-> & new & q1 & HO1 & Hqs1). simpl in HO1.
    rewrite insert_insert_eq in HO1. apply wp_bind.
    eapply wp_mono;
      [apply (Queue_dtor_own new fuel m1 _ this HO1)| | |done].
    + by rewrite lookup_insert_eq.
    + done.
    + intros _ m2 (q2 & HO2 & Hqs2 & _). cbv beta.
      rewrite insert_insert_eq in HO2. pose proof HO2 as [HR2 _].
      destruct (Rep_lookup m2 _ this [] HR2) as (q & Hq & _);
        [by rewrite lookup_insert_eq|].
      wp_run (free_queue_eq _ _ _ Hq). apply wp_throw.
      apply (Own_free _ _ this) in HO2; [|by rewrite lookup_insert_eq].
      rewrite delete_insert_eq, (delete_id _ _ Hfresh) in HO2.
      split; [exact HO2|]. simpl.
      rewrite Hqs2, Hqs1. unfold m0. simpl.
      by rewrite !delete_insert_eq, (delete_id _ _ Hdead).
Qed.

Lemma operator_assign_own fuel m G this other ct co :
  Own m G → G !! this = Some ct → G !! other = Some co →
  wp (operator_assign fuel this other) m True
    (λ _ m', ∃ new q', Own m' (<[this := new]> G) ∧
                       queues m' = <[this := q']> (queues m) ∧
                       (this ≠ other → ∀ l, l ∈ new.*1 → l ∉ ct.*1))
    (λ _ m', Own m' G ∧ queues m' = queues m).
Proof.
  intros HO Hthis Hother. unfold operator_assign. pose proof HO as [HR _].
  destruct (Rep_lookup _ _ _ _ HR Hthis) as (q & Hq & _).
  destruct (decide (this = other)) as [->|Hne].
  { apply wp_ret. exists co, q. by rewrite !insert_id. }
  apply wp_bind.
  eapply wp_mono;
    [apply (Queue_copy_own fuel m G other co HO Hother)|done| |done].
  intros temp m1 (Htemp & new & q1 & HO1 & Hqs1). cbv beta.
  pose proof HO1 as [HR1 _].
  pose proof (Rep_not_live _ _ _ HR Htemp) as Hdead.
  assert (temp ≠ this) as Hne' by (intros ->; congruence).
  assert (<[temp := new]> G !! this = Some ct) as Hthis1
    by by rewrite lookup_insert_ne.
  assert (<[temp := new]> G !! temp = Some new) as Htemp1
    by by rewrite lookup_insert_eq.
  destruct (Rep_lookup _ _ _ _ HR1 Hthis1) as (qt & Hqt & _).
  destruct (Rep_lookup _ _ _ _ HR1 Htemp1) as (qn & Hqn & _).
  pose proof (Own_swap _ _ temp this _ _ _ _ HO1 Hne' Hqn Hqt Htemp1 Hthis1)
    as HO2.
  unfold with_local. apply wp_bind.
  eapply wp_eq_ret.
  { apply catch_ret_eq.
    apply (swap_members_eq temp this m1 qn qt this Hne' Hqn Hqt). }
  apply wp_bind.
  eapply wp_mono;
    [apply (destroy_own fuel _ _ temp ct HO2)| | |done].
  - by rewrite lookup_insert_ne, lookup_insert_eq.
  - done.
  - intros _ m3 (HO3 & Hqs3 & _). apply wp_ret.
    exists new, qn. split; [|split].
    + rewrite delete_insert_ne, !delete_insert_eq, delete_id in HO3 by done.
      done.
    + rewrite Hqs3. simpl. rewrite Hqs1.
      by rewrite delete_insert_ne, !delete_insert_eq, delete_id by done.
    + intros _ l Hl. destruct HR1 as (_ & _ & Hdis).
      by apply (Hdis temp this new ct l Hne' Htemp1 Hthis1).
Qed.

Lemma transform_loop_own (f : T → T) rest : ∀ fuel m G tq seen,
  Own m G → G !! tq = Some (seen ++ rest) →
  wp (transform_loop fuel f (mkIter tq (head rest.*1)) (end_ tq)) m True
    (λ _ m', Own m' (<[tq := seen ++ ((λ c, (c.1, f c.2)) <$> rest)]> G) ∧
             queues m' = queues m)
    (λ _ _, False).
Proof.
  induction rest as [|[l v] rest IH]; intros fuel m G tq seen HO Htq;
    (destruct fuel as [|fuel]; [by unfold wp|]);
    simpl transform_loop; pose proof HO as [HR _].
  - eapply wp_eq_ret; [reflexivity|]. by rewrite insert_id.
  - change (head ((l, v) :: rest).*1) with (Some l).
    pose proof (Rep_suffix_chain _ _ _ _ _ HR Htq) as Hc.
    destruct (iter_step m tq l v rest Hc) as (Hstar & Hread & _).
    pose proof Hc as (_ & nx & Hl & _). simpl in Hl.
    wp_run Hstar. wp_run Hread.
    wp_run (write_ref_eq l (f v) m _ Hl). simpl next.
    pose proof (Own_write m G tq seen l v rest _ (f v) HO Htq Hl) as HO1.
    simpl next in HO1.
    set (m1 := set_nodes _ m) in *. pose proof HO1 as [HR1 _].
    assert (<[tq := seen ++ (l, f v) :: rest]> G !! tq
            = Some (seen ++ (l, f v) :: rest)) as Htq1
      by by rewrite lookup_insert_eq.
    pose proof (Rep_suffix_chain _ _ _ _ _ HR1 Htq1) as Hc1.
    destruct (iter_step m1 tq l (f v) rest Hc1) as (_ & _ & Hincr & _).
    wp_run Hincr.
    eapply wp_mono;
      [apply (IH fuel m1 _ tq (seen ++ [(l, f v)]) HO1)| | |done].
    + by rewrite lookup_insert_eq, <- app_assoc.
    + done.
    + intros ? m2 [HO2 Hqs2]. split; [|done].
      by rewrite insert_insert_eq, <- app_assoc in HO2.
Qed.

Lemma transform_own fuel m G queue cs (f : T → T) :
  Own m G → G !! queue = Some cs →
  wp (transform fuel queue f) m True
    (λ _ m', ∃ new q', Own m' (<[queue := new]> G) ∧
                       queues m' = <[queue := q']> (queues m) ∧
                       ∀ l, l ∈ new.*1 → l ∉ cs.*1)
    (λ _ m', Own m' G ∧ queues m' = queues m).
Proof.
  intros HO Hq. unfold transform. pose proof HO as [HR _]. apply wp_bind.
  eapply wp_mono;
    [apply (Queue_copy_own fuel m G queue cs HO Hq)|done| |done].
  intros tq m1 (Htq & new & q1 & HO1 & Hqs1). cbv beta.
  pose proof HO1 as [HR1 _].
  pose proof (Rep_not_live _ _ _ HR Htq) as Hdead.
  assert (tq ≠ queue) as Hne by (intros ->; congruence).
  assert (<[tq := new]> G !! tq = Some ([] ++ new)) as Htq1
    by by rewrite lookup_insert_eq.
  unfold with_local. apply wp_bind. apply wp_catch. apply wp_bind.
  eapply wp_eq_ret; [apply (begin_spec _ _ tq new HR1 Htq1)|].
  apply wp_bind.
  eapply wp_mono;
    [apply (transform_loop_own f new fuel m1 _ tq [] HO1 Htq1)
    |done| |done].
  intros ? m2 [HO2 Hqs2]. cbv beta. simpl app in HO2.
  rewrite insert_insert_eq in HO2.
  set (new' := (λ c, (c.1, f c.2)) <$> new) in *.
  apply wp_bind.
  eapply wp_mono;
    [apply (operator_assign_own fuel m2 _ queue tq cs new' HO2)| | |].
  - by rewrite lookup_insert_ne.
  - by rewrite lookup_insert_eq.
  - done.
  - intros r m3 (new2 & q3 & HO3 & Hqs3 & Hfresh). cbv beta.
    apply wp_ret. cbv beta. apply wp_bind.
    eapply wp_mono;
      [apply (destroy_own fuel m3 _ tq new' HO3)| | |done].
    + by rewrite lookup_insert_ne, lookup_insert_eq.
    + done.
    + intros ? m4 (HO4 & Hqs4 & _). apply wp_ret.
      exists new2, q3. split; [|split].
      * rewrite delete_insert_ne, delete_insert_eq, delete_id in HO4
          by done. done.
      * rewrite Hqs4, Hqs3, Hqs2, Hqs1.
        by rewrite delete_insert_ne, delete_insert_eq, delete_id by done.
      * apply Hfresh. by intros ->.
  - intros e m3 (HO3 & Hqs3). cbv beta. apply wp_bind.
    eapply wp_mono;
      [apply (destroy_own fuel m3 _ tq new' HO3)| | |done].
    + by rewrite lookup_insert_eq.
    + done.
    + intros ? m4 (HO4 & Hqs4 & _). apply wp_throw.
      rewrite delete_insert_eq, delete_id in HO4 by done.
      split; [done|].
      rewrite Hqs4, Hqs3, Hqs2, Hqs1.
      by rewrite delete_insert_eq, delete_id by done.
Qed.

Lemma filter_loop_own (predict : T → bool) rest :
  ∀ fuel m G fq queue acc seen,
  Own m G → fq ≠ queue →
  G !! fq = Some acc → G !! queue = Some (seen ++ rest) →
  Z.of_nat (length acc + length rest) ≤ INT_MAX →
  wp (filter_loop fuel fq predict (mkIter queue (head rest.*1)) (end_ queue))
    m True
    (λ _ m', ∃ new q', Own m' (<[fq := acc ++ new]> G) ∧
                       queues m' = <[fq := q']> (queues m))
    (λ _ m', ∃ new q', Own m' (<[fq := acc ++ new]> G) ∧
                       queues m' = <[fq := q']> (queues m)).
Proof.
  induction rest as [|[l v] rest IH];
    intros fuel m G fq queue acc seen HO Hne Hfq Hqueue Hlen;
    (destruct fuel as [|fuel]; [by unfold wp|]); simpl filter_loop;
    pose proof HO as [HR _];
    destruct (Rep_lookup _ _ _ _ HR Hfq) as (q & Hq & _).
  - eapply wp_eq_ret; [reflexivity|]. exists [], q.
    by rewrite app_nil_r, !insert_id.
  - change (head ((l, v) :: rest).*1) with (Some l).
    pose proof (Rep_suffix_chain _ _ _ _ _ HR Hqueue) as Hc.
    destruct (iter_step m queue l v rest Hc) as (Hstar & Hread & Hincr & _).
    wp_run Hstar. wp_run Hread.
    destruct (predict v) eqn:Hpv.
    + apply wp_bind.
      eapply wp_mono; [apply (pushBack_own m G fq acc v HO Hfq)| done | |].
      { simpl in Hlen. lia. }
      * intros ? m1 (l1 & q1 & HO1 & Hqs1). cbv beta.
        pose proof HO1 as [HR1 _].
        assert (<[fq := acc ++ [(l1, v)]]> G !! queue
                = Some (seen ++ (l, v) :: rest))
          as Hqueue1 by by rewrite lookup_insert_ne.
        pose proof (Rep_suffix_chain _ _ _ _ _ HR1 Hqueue1) as Hc1.
        destruct (iter_step m1 queue l v rest Hc1) as (_ & _ & Hincr1 & _).
        wp_run Hincr1.
        assert (∀ m2, (∃ new q', Own m2 (<[fq := (acc ++ [(l1, v)]) ++ new]>
                                           (<[fq := acc ++ [(l1, v)]]> G)) ∧
                                 queues m2 = <[fq := q']> (queues m1)) →
                      ∃ new q', Own m2 (<[fq := acc ++ new]> G) ∧
                                queues m2 = <[fq := q']> (queues m)) as Hpost.
        { intros m2 (new & q2 & HO2 & Hqs2). exists ((l1, v) :: new), q2.
          rewrite insert_insert_eq, <- app_assoc in HO2. split; [done|].
          by rewrite Hqs2, Hqs1, insert_insert_eq. }
        eapply wp_mono;
          [apply (IH fuel m1 _ fq queue (acc ++ [(l1, v)]) (seen ++ [(l, v)])
                    HO1 Hne)| | |].
        -- by rewrite lookup_insert_eq.
        -- by rewrite <- app_assoc.
        -- rewrite length_app. simpl in *. lia.
        -- done.
        -- intros ? m2. apply Hpost.
        -- intros ? m2. apply Hpost.
      * intros e m1 [-> ->]. exists [], q.
        rewrite app_nil_r, insert_id by done.
        split; [by apply Own_set_plan|]. simpl. by rewrite insert_id.
    + apply wp_bind. apply wp_ret. wp_run Hincr.
      eapply wp_mono;
        [apply (IH fuel m G fq queue acc (seen ++ [(l, v)]) HO Hne Hfq)
        | | |]; try done.
      * by rewrite <- app_assoc.
      * simpl in *. lia.
Qed.

Lemma filter_own fuel m G queue cs (predict : T → bool) :
  Own m G → G !! queue = Some cs →
  wp (filter fuel queue predict) m True
    (λ r m', G !! r = None ∧
             ∃ new q', Own m' (<[r := new]> G) ∧
                       queues m' = <[r := q']> (queues m))
    (λ _ m', Own m' G ∧ queues m' = queues m).
Proof.
  intros HO Hqueue. unfold filter, Queue_default. pose proof HO as [HR _].
  pose proof (Rep_fresh _ _ HR) as Hfresh.
  pose proof (Rep_not_live _ _ _ HR Hfresh) as Hdead.
  pose proof (Own_alloc_queue m G None HO) as HO0.
  set (fq := fresh (dom (queues m))) in *.
  set (m0 := set_queues _ m) in HO0.
  assert (fq ≠ queue) as Hne by (intros ->; congruence).
  assert (<[fq := []]> G !! queue = Some cs) as Hqueue0
    by by rewrite lookup_insert_ne.
  destruct (Rep_lookup _ _ _ _ HR Hqueue) as (qo & _ & Hwfo).
  apply wfq_length_le in Hwfo. pose proof HO0 as [HR0 _].
  apply wp_bind. eapply wp_eq_ret; [reflexivity|]. fold fq m0.
  apply wp_bind. apply wp_catch. apply wp_bind.
  eapply wp_eq_ret; [apply (begin_spec _ _ _ _ HR0 Hqueue0)|].
  eapply wp_mono;
    [apply (filter_loop_own predict cs fuel m0 _ fq queue [] [] HO0 Hne)
    |done| |].
  - by rewrite lookup_insert_eq.
  - done.
  - simpl. lia.
  - intros ? m1 (new & q1 & HO1 & Hqs1). apply wp_ret.
    rewrite insert_insert_eq in HO1. split; [done|].
    exists new, q1. split; [done|].
    rewrite Hqs1. unfold m0. simpl. by rewrite insert_insert_eq.
  - intros e m1 (new & q1 & HO1 & Hqs1). simpl in HO1.
    rewrite insert_insert_eq in HO1. apply wp_bind.
    eapply wp_mono; [apply (destroy_own fuel m1 _ fq new HO1)| | |done].
    + by rewrite lookup_insert_eq.
    + done.
    + intros ? m2 (HO2 & Hqs2 & _). apply wp_throw.
      rewrite delete_insert_eq, (delete_id _ _ Hfresh) in HO2.
      split; [exact HO2|].
      rewrite Hqs2, Hqs1. unfold m0. simpl.
      by rewrite !delete_insert_eq, (delete_id _ _ Hdead).
Qed.

(** Two heaps that hold the same cells as a chain agree on them. *)
Lemma chain_same_nodes h h' p p' cs l :
  chain h p cs → chain h' p' cs → l ∈ cs.*1 → h' !! l = h !! l.
Proof.
  revert p p'. induction cs as [|[l0 v0] cs IH]; intros p p' Hc Hc' Hl.
  - by apply elem_of_nil in Hl.
  - destruct Hc as (_ & nx & Hl0 & Hc). destruct Hc' as (_ & nx' & Hl0' & Hc').
    simpl in *. apply elem_of_cons in Hl as [->|Hl]; [|by eauto].
    rewrite Hl0, Hl0'.
    by rewrite (chain_head _ _ _ Hc), (chain_head _ _ _ Hc').
Qed.

Lemma Own_nodes_eq m m' G : Own m G → Own m' G → nodes m' = nodes m.
Proof.
  intros [HR HT] [HR' HT']. apply map_eq. intros l.
  assert (∀ r cs, G !! r = Some cs → l ∈ cs.*1 →
                  nodes m' !! l = nodes m !! l) as Hsame.
  { intros r cs Hr Hl.
    destruct (Rep_lookup _ _ _ _ HR Hr) as (q & _ & Hc & _).
    destruct (Rep_lookup _ _ _ _ HR' Hr) as (q' & _ & Hc' & _).
    by apply (chain_same_nodes _ _ (m_front q) (m_front q') cs). }
  destruct (nodes m !! l) as [n|] eqn:Hn.
  - destruct (HT l) as (r & cs & Hr & Hl); [by rewrite Hn|].
    by rewrite (Hsame r cs Hr Hl).
  - destruct (nodes m' !! l) as [n'|] eqn:Hn'; [|done].
    destruct (HT' l) as (r & cs & Hr & Hl); [by rewrite Hn'|].
    pose proof (Hsame r cs Hr Hl) as He. congruence.
Qed.

Lemma pushBack_own_ends m G this cs v m' :
  Own m G → G !! this = Some cs → ends_in (pushBack this v m) m' →
  ∃ cs' q', Own m' (<[this := cs']> G) ∧
            queues m' = <[this := q']> (queues m).
Proof.
  intros HO Hthis Hend. pose proof HO as [HR _].
  destruct (Rep_lookup _ _ _ _ HR Hthis) as (q & Hq & _).
  destruct (pushBack_ends _ _ _ _ _ _ HR Hthis Hend)
    as [(Hret & l & HR')|(_ & ->)].
  - destruct (Rep_lookup m' _ this (cs ++ [(l, v)]) HR')
      as (q' & _ & Hwf'); [by rewrite lookup_insert_eq|].
    apply wfq_length_le in Hwf'. rewrite length_app in Hwf'. simpl in Hwf'.
    pose proof (pushBack_own m G this cs v HO Hthis ltac:(lia)) as Hwp.
    unfold wp in Hwp. rewrite Hret in Hwp.
    destruct Hwp as (l' & q2 & HO' & Hqs). eauto.
  - exists cs, q. rewrite insert_id by done.
    split; [by apply Own_set_plan|]. simpl. by rewrite insert_id.
Qed.

Lemma popFront_own_ends m G this cs m' :
  Own m G → G !! this = Some cs → ends_in (popFront this m) m' →
  ∃ cs' q', Own m' (<[this := cs']> G) ∧
            queues m' = <[this := q']> (queues m).
Proof.
  intros HO Hthis Hend. pose proof HO as [HR _].
  destruct (Rep_lookup _ _ _ _ HR Hthis) as (q & Hq & _).
  destruct (popFront_ends _ _ _ _ _ HR Hthis Hend)
    as [(Hret & Hne & _)|(_ & _ & ->)].
  - destruct cs as [|[l v] cs]; [done|].
    pose proof (popFront_own m G this l v cs HO Hthis) as Hwp.
    unfold wp in Hwp. rewrite Hret in Hwp.
    destruct Hwp as (q2 & HO' & Hqs & _). eauto.
  - exists cs, q. by rewrite !insert_id.
Qed.

Lemma reachable_Own m : reachable m → ∃ G, Own m G.
Proof.
  induction 1 as [p|m m' _ [G HO] Hend|m fuel other m' _ [G HO] Ho Hend
                 |m fuel this other m' _ [G HO] Ht Ho Hend
                 |m this v m' _ [G HO] Ht Hend|m this m' _ [G HO] Ht Hend
                 |m fuel this m' _ [G HO] Ht Hend
                 |m fuel queue predict m' _ [G HO] Hq Hend
                 |m fuel queue f m' _ [G HO] Hq Hend];
    try pose proof HO as [HR _].
  - exists ∅. apply Own_init.
  - simpl in Hend. subst m'. eexists. by apply (Own_alloc_queue m G None).
  - destruct (Rep_live _ _ _ HR Ho) as [co Hco].
    apply (wp_ends_in _ _ _ _ _ (λ m', ∃ G, Own m' G) _
             (Queue_copy_own fuel m G other co HO Hco) Hend).
    + intros c m1 (_ & new & q' & HO1 & _). by eexists.
    + intros e m1 (HO1 & _). by eexists.
  - destruct (Rep_live _ _ _ HR Ho) as [co Hco].
    destruct (Rep_live _ _ _ HR Ht) as [ct Hct].
    apply (wp_ends_in _ _ _ _ _ (λ m', ∃ G, Own m' G) _
             (operator_assign_own fuel m G this other ct co HO Hct Hco)
             Hend).
    + intros c m1 (new & q' & HO1 & _). by eexists.
    + intros e m1 (HO1 & _). by eexists.
  - destruct (Rep_live _ _ _ HR Ht) as [ct Hct].
    destruct (pushBack_own_ends m G this ct v m' HO Hct Hend)
      as (cs' & q' & HO' & _).
    by eexists.
  - destruct (Rep_live _ _ _ HR Ht) as [ct Hct].
    destruct (popFront_own_ends m G this ct m' HO Hct Hend)
      as (cs' & q' & HO' & _).
    by eexists.
  - destruct (Rep_live _ _ _ HR Ht) as [ct Hct].
    apply (wp_ends_in _ _ _ _ _ (λ m', ∃ G, Own m' G) _
             (destroy_own fuel m G this ct HO Hct) Hend).
    + intros c m1 (HO1 & _). by eexists.
    + done.
  - destruct (Rep_live _ _ _ HR Hq) as [cq Hcq].
    apply (wp_ends_in _ _ _ _ _ (λ m', ∃ G, Own m' G) _
             (filter_own fuel m G queue cq predict HO Hcq) Hend).
    + intros c m1 (_ & new & q' & HO1 & _). by eexists.
    + intros e m1 (HO1 & _). by eexists.
  - destruct (Rep_live _ _ _ HR Hq) as [cq Hcq].
    apply (wp_ends_in _ _ _ _ _ (λ m', ∃ G, Own m' G) _
             (transform_own fuel m G queue cq f HO Hcq) Hend).
    + intros c m1 (new & q' & HO1 & _). by eexists.
    + intros e m1 (HO1 & _). by eexists.
Qed.

(** * Further properties of the code *)

(** X2 (destructor).  In a reachable memory, [~Queue] on a queue whose
    chain is [cs] returns without throwing, leaves the queue with size 0
    and nothing to traverse, releases exactly the nodes of [cs] and
    touches no other node, no other queue object and no allocation. *)
Theorem destructor_releases_nodes (m : Mem) (this : qref) (q : Queue)
    (cs : list (loc * T)) (fuel : nat) :
  reachable m → queues m !! this = Some q →
  chain (nodes m) (m_front q) cs → (length cs < fuel)%nat →
  ∃ m', Queue_dtor fuel this m = Ret () m' ∧
        observes m' this [] ∧
        (∀ l, nodes m' !! l =
              if decide (l ∈ cs.*1) then None else nodes m !! l) ∧
        (∀ r, r ≠ this → queues m' !! r = queues m !! r) ∧
        plan m' = plan m.
Proof.
  intros [G HO]%reachable_Own Hq Hc Hfuel. pose proof HO as [HR _].
  destruct (Rep_lookup_inv _ _ _ _ HR Hq) as (cs2 & Hthis & Hc2 & _).
  rewrite <- (chain_unique _ _ _ _ Hc Hc2) in Hthis. clear cs2 Hc2.
  pose proof (Queue_dtor_spec cs fuel m G this HR Hthis) as Hspec.
  apply wp_fuel in Hspec; [|lia].
  destruct (wp_inv_ret _ _ _ _ Hspec) as ([] & m' & Hrun & _); [done|].
  pose proof (Queue_dtor_own cs fuel m G this HO Hthis) as Hown.
  unfold wp in Hown. rewrite Hrun in Hown.
  destruct Hown as (q' & [HR' _] & Hqs & Hn & Hp).
  exists m'. split; [done|]. split.
  { apply holds_observes. apply (holds_intro m' _ this [] HR').
    by rewrite lookup_insert_eq. }
  split; [done|]. split; [|done].
  intros r Hne. by rewrite Hqs, lookup_insert_ne.
Qed.

(** X3 ([popFront] and the heap).  In a reachable memory, [popFront] on
    a queue of size other than 0 returns; it releases the node the front
    pointer referred to and no other, makes that node's successor the
    front, lowers the size by one, and leaves the rear pointer, the
    other queue objects and the allocator as they were. *)
Theorem popFront_releases_front_node (m : Mem) (this : qref) (q : Queue) :
  reachable m → queues m !! this = Some q → m_size q ≠ 0 →
  ∃ l n m',
    m_front q = Some l ∧ nodes m !! l = Some n ∧
    popFront this m = Ret () m' ∧
    nodes m' = delete l (nodes m) ∧
    queues m' =
      <[this := mkQueue (next n) (m_rear q) (m_size q - 1)]> (queues m) ∧
    plan m' = plan m.
Proof.
  intros [G HR]%reachable_Rep Hq Hnz.
  destruct (Rep_lookup_inv _ _ _ _ HR Hq) as (cs & Hthis & Hwf).
  pose proof Hwf as (Hc & Hs & Hm & _).
  destruct cs as [|[l v] cs]; [done|].
  destruct Hc as (Hf & nx & Hl & _). simpl in *.
  exists l, (mkNode v nx). eexists. split; [done|]. split; [done|].
  rewrite (popFront_node this m q l _ Hq Hnz ltac:(unfold INT_MIN; lia) Hf Hl).
  done.
Qed.


(** X8 (default constructor).  In any memory, [Queue()] returns a queue
    object at an address that was not live; the new queue has size 0, an
    empty traversal, [begin()] equal to [end()], and [front()] throws
    [EmptyQueue] on it; no node, no other queue object and no allocation
    is touched. *)
Theorem default_constructed_empty (m : Mem) :
  ∃ r m', Queue_default m = Ret r m' ∧
          queues m !! r = None ∧
          observes m' r [] ∧
          begin r m' = Ret (end_ r) m' ∧
          front r m' = Throw EmptyQueue m' ∧
          nodes m' = nodes m ∧ plan m' = plan m ∧
          ∀ r', r' ≠ r → queues m' !! r' = queues m !! r'.
Proof.
  set (r := fresh (dom (queues m))).
  exists r, (set_queues (<[r := mkQueue None None 0]> (queues m)) m).
  assert (queues (set_queues (<[r := mkQueue None None 0]> (queues m)) m)
            !! r = Some (mkQueue None None 0)) as Hq
    by (simpl; by rewrite lookup_insert_eq).
  split; [done|]. split.
  { apply not_elem_of_dom. apply is_fresh. }
  split.
  { split; [by rewrite (size_eq _ _ _ Hq)|].
    intros [|fuel] Hfuel; [simpl in Hfuel; lia|].
    unfold elements. by rewrite (bind_ret_eq _ _ _ _ _ (begin_eq _ _ _ Hq)). }
  split; [by rewrite (begin_eq _ _ _ Hq)|].
  split; [by rewrite (front_empty _ _ _ Hq)|].
  split; [done|]. split; [done|].
  intros r' Hne. simpl. by rewrite lookup_insert_ne.
Qed.

(** X10 (calls leave the other queues alone).  In a well-formed memory,
    a completed call (returned or thrown) of any public operation leaves
    the size and the element sequence of every queue other than the one
    it works on as they were; the default constructor, the copy
    constructor and [filter] work on no existing queue at all. *)
Theorem calls_leave_other_queues (c : call) (m m' : Mem) (r : qref)
    (vs : list T) :
  holds m r vs → perform c m = Some m' → target c ≠ Some r →
  observes m' r vs.
Proof.
  intros (G & cs & HR & Hr & <-) Hperf Htgt. apply holds_observes.
  assert (∀ m1 G', Rep m1 G' → G' !! r = Some cs → holds m1 r cs.*2)
    as Hfin.
  { intros m1 G' HR' Hr'. by apply (holds_intro _ G'). }
  assert (∀ this (X : list (loc * T)), G !! this = None →
            <[this := X]> G !! r = Some cs) as Hnew.
  { intros this X Hnone. rewrite lookup_insert_ne; [done|].
    intros ->. congruence. }
  destruct c as [|fuel other|fuel this other|this v|this|fuel this
                |fuel queue predict|fuel queue f];
    cbv beta iota delta [perform] in Hperf; simpl in Htgt;
    repeat match type of Hperf with
      | (if ?b then _ else _) = _ =>
          let H := fresh "Hlive" in
          destruct b eqn:H; [|discriminate Hperf]
      end;
    repeat match goal with
      | H : _ && _ = true |- _ => apply andb_true_iff in H as [? ?]
      | H : live _ _ = true |- _ =>
          apply live_is_Some, (Rep_live _ _ _ HR) in H as [? ?]
      end;
    apply final_ends_in in Hperf;
    try assert (this ≠ r) as Hne by congruence.
  - simpl in Hperf. subst m'.
    apply (Hfin _ _ (Rep_alloc_queue m G None HR)).
    apply Hnew. by apply Rep_fresh.
  - eapply (wp_ends_in _ _ _ _ _ (λ m', holds m' r cs.*2) _
              (Queue_copy_spec fuel m G other _ HR ltac:(eassumption)) Hperf).
    + intros c m1 (_ & _ & Hc & new & _ & HR1).
      by apply (Hfin _ _ HR1), Hnew.
    + intros e m1 (_ & _ & HR1). by apply (Hfin _ _ HR1).
  - eapply (wp_ends_in _ _ _ _ _ (λ m', holds m' r cs.*2) _
              (operator_assign_spec fuel m G this other _ _ HR
                 ltac:(eassumption) ltac:(eassumption)) Hperf).
    + intros c m1 (_ & _ & _ & _ & new & _ & HR1).
      apply (Hfin _ _ HR1). by rewrite lookup_insert_ne.
    + intros e m1 (_ & _ & _ & HR1). by apply (Hfin _ _ HR1).
  - eapply (mutate_other m G this r _ cs (Push v)); eauto.
  - eapply (mutate_other m G this r _ cs Pop); eauto.
  - eapply (wp_ends_in _ _ _ _ _ (λ m', holds m' r cs.*2) _
              (destroy_spec fuel m G this _ HR ltac:(eassumption)) Hperf).
    + intros c m1 (HR1 & _). apply (Hfin _ _ HR1).
      by rewrite lookup_delete_ne.
    + done.
  - eapply (wp_ends_in _ _ _ _ _ (λ m', holds m' r cs.*2) _
              (filter_spec fuel m G queue _ predict HR ltac:(eassumption))
              Hperf).
    + intros c m1 (_ & _ & Hc & new & _ & HR1).
      by apply (Hfin _ _ HR1), Hnew.
    + intros e m1 (_ & _ & HR1). by apply (Hfin _ _ HR1).
  - assert (queue ≠ r) as Hne by congruence.
    eapply (wp_ends_in _ _ _ _ _ (λ m', holds m' r cs.*2) _
              (transform_spec fuel m G queue _ f HR ltac:(eassumption))
              Hperf).
    + intros c m1 (_ & _ & new & _ & HR1).
      apply (Hfin _ _ HR1). by rewrite lookup_insert_ne.
    + intros e m1 (_ & _ & HR1). by apply (Hfin _ _ HR1).
Qed.

Lemma advance_spec k : ∀ (m : Mem) r cs,
  chain (nodes m) (head cs.*1) cs → (k ≤ length cs)%nat →
  advance k (mkIter r (head cs.*1)) m
  = Ret (mkIter r (head (drop k cs).*1)) m.
Proof.
  induction k as [|k IH]; intros m r cs Hc Hk; [by rewrite drop_0|].
  destruct cs as [|[l v] cs]; [simpl in Hk; lia|].
  destruct (iter_step m r l v cs Hc) as (_ & _ & Hincr & _).
  simpl advance. change (head ((l, v) :: cs).*1) with (Some l).
  rewrite (bind_ret_eq _ _ _ _ _ Hincr).
  destruct Hc as (_ & nx & _ & Hc). rewrite (chain_head _ _ _ Hc) in Hc.
  simpl in Hk. apply (IH m r cs Hc). lia.
Qed.

Lemma chain_drop h cs k :
  chain h (head cs.*1) cs → chain h (head (drop k cs).*1) (drop k cs).
Proof.
  intros Hc. apply (chain_suffix h (head cs.*1) (take k cs)).
  by rewrite take_drop.
Qed.

(** X11 (traversal by iterator).  For a queue with elements [vs]:
    [begin()] advanced [k <= length vs] times by prefix [++] differs
    from [end()] exactly when [k < length vs]; there it dereferences to
    the [k]-th element, prefix [++] moves it to position [k + 1], and
    postfix [++] returns the iterator as it was together with that same
    advance; after [length vs] steps the iterator is [end()].  None of
    these changes the memory. *)
Theorem iterator_traversal (m : Mem) (q : qref) (vs : list T) (k : nat) :
  holds m q vs → (k ≤ length vs)%nat →
  ∃ it, (it0 ← begin q; advance k it0) m = Ret it m ∧
        operator_ne it (end_ q) = bool_decide (k < length vs)%nat ∧
        (k = length vs → it = end_ q) ∧
        ∀ v, vs !! k = Some v →
          ∃ it', (r ← operator_star it; read_ref r) m = Ret v m ∧
                 operator_pre_incr it m = Ret it' m ∧
                 operator_post_incr it m = Ret (it, it') m ∧
                 (it0 ← begin q; advance (S k) it0) m = Ret it' m.
Proof.
  intros (G & cs & HR & Hq & <-) Hk. rewrite length_fmap in *.
  pose proof (Rep_suffix_chain m G q [] cs HR Hq) as Hc.
  pose proof (begin_spec _ _ _ _ HR Hq) as Hbegin.
  exists (mkIter q (head (drop k cs).*1)).
  split.
  { by rewrite (bind_ret_eq _ _ _ _ _ Hbegin), (advance_spec k m q cs Hc Hk). }
  pose proof (chain_drop _ _ k Hc) as Hck.
  destruct (drop k cs) as [|[l v] rest] eqn:Hdrop.
  - assert (k = length cs) as ->.
    { apply (f_equal length) in Hdrop. rewrite length_drop in Hdrop.
      simpl in Hdrop. lia. }
    split; [by rewrite bool_decide_eq_false_2 by lia|]. split; [done|].
    intros v Hv. rewrite list_lookup_fmap in Hv.
    by rewrite lookup_ge_None_2 in Hv.
  - assert (k < length cs)%nat as Hlt.
    { apply (f_equal length) in Hdrop. rewrite length_drop in Hdrop.
      simpl in Hdrop. lia. }
    split; [by rewrite bool_decide_eq_true_2 by lia|].
    split; [lia|].
    intros v' Hv.
    assert (v' = v) as ->.
    { rewrite list_lookup_fmap in Hv.
      assert (cs !! k = Some (l, v)) as Hk'.
      { rewrite <- (Nat.add_0_r k), <- lookup_drop, Hdrop. done. }
      rewrite Hk' in Hv. by simplify_eq/=. }
    change (head ((l, v) :: rest).*1) with (Some l) in *.
    destruct (iter_step m q l v rest Hck) as (Hstar & Hread & Hincr & Hpost).
    exists (mkIter q (head rest.*1)).
    split; [by rewrite (bind_ret_eq _ _ _ _ _ Hstar)|].
    split; [done|]. split; [done|].
    rewrite (bind_ret_eq _ _ _ _ _ Hbegin),
      (advance_spec (S k) m q cs Hc ltac:(lia)).
    do 3 f_equal. by rewrite <- (Nat.add_1_r k), <- drop_drop, Hdrop.
Qed.

Lemma insert_cell_take_drop (cs : list (loc * T)) k l v x :
  cs !! k = Some (l, v) →
  cs = take k cs ++ (l, v) :: drop (S k) cs ∧
  (take k cs ++ (l, x) :: drop (S k) cs).*2 = <[k := x]> cs.*2.
Proof.
  intros Hk. split; [by rewrite take_drop_middle|].
  rewrite <- insert_take_drop by (by apply lookup_lt_Some in Hk).
  by rewrite list_fmap_insert.
Qed.

(** X12 (writing through a mutable iterator).  For a queue with
    elements [vs] and a position [k] in range, assigning [x] through the
    reference that [operator*] returns at position [k] replaces the
    [k]-th element by [x] and nothing else: the queue then has size
    [length vs] and elements [<[k := x]> vs], and every other queue is
    as before. *)
Theorem write_through_iterator (m : Mem) (q : qref) (vs : list T)
    (k : nat) (x : T) :
  holds m q vs → (k < length vs)%nat →
  ∃ it r m', (it0 ← begin q; advance k it0) m = Ret it m ∧
             operator_star it m = Ret r m ∧
             write_ref r x m = Ret () m' ∧
             observes m' q (<[k := x]> vs) ∧
             ∀ q' ws, q' ≠ q → holds m q' ws → observes m' q' ws.
Proof.
  intros (G & cs & HR & Hq & <-) Hk. rewrite length_fmap in Hk.
  pose proof (Rep_suffix_chain m G q [] cs HR Hq) as Hc.
  pose proof (begin_spec _ _ _ _ HR Hq) as Hbegin.
  destruct (lookup_lt_is_Some_2 cs k Hk) as [[l v] Hcell].
  destruct (insert_cell_take_drop cs k l v x Hcell) as [Hsplit Hvals].
  pose proof (chain_drop _ _ k Hc) as Hck.
  assert (drop k cs = (l, v) :: drop (S k) cs) as Hdrop.
  { rewrite Hsplit at 1. rewrite drop_app_length'; [done|].
    rewrite length_take. lia. }
  rewrite Hdrop in Hck. change (head ((l, v) :: drop (S k) cs).*1)
    with (Some l) in Hck.
  destruct (iter_step m q l v _ Hck) as (Hstar & _).
  pose proof Hck as (_ & nx & Hl & _). simpl in Hl.
  rewrite Hsplit in Hq.
  pose proof (Rep_write m G q _ l v _ _ x HR Hq Hl) as HR'.
  exists (mkIter q (Some l)), l. eexists.
  split.
  { rewrite (bind_ret_eq _ _ _ _ _ Hbegin),
      (advance_spec k m q cs Hc ltac:(lia)), Hdrop. done. }
  split; [done|]. split; [by apply (write_ref_eq l x m _ Hl)|].
  split.
  - apply holds_observes. rewrite <- Hvals.
    apply (holds_intro _ _ _ _ HR'). by rewrite lookup_insert_eq.
  - intros q' ws Hne Hq'. apply holds_observes.
    destruct (holds_elim _ _ _ _ HR Hq') as (cs' & Hcs' & <-).
    apply (holds_intro _ _ _ _ HR'). by rewrite lookup_insert_ne.
Qed.

(** X13 ([front()] as a reference).  On a queue with elements
    [v :: vs], both overloads of [front()] return the reference that
    [*begin()] returns; reading it gives [v], and assigning [x] through
    the one of the mutable overload makes the elements [x :: vs],
    leaving the size and every other queue as they were. *)
Theorem front_refers_to_first (m : Mem) (q : qref) (v : T) (vs : list T)
    (x : T) :
  holds m q (v :: vs) →
  ∃ r m', front q m = Ret r m ∧ front_const q m = Ret r m ∧
          (it ← begin q; operator_star it) m = Ret r m ∧
          read_ref r m = Ret v m ∧
          write_ref r x m = Ret () m' ∧
          observes m' q (x :: vs) ∧
          ∀ q' ws, q' ≠ q → holds m q' ws → observes m' q' ws.
Proof.
  intros (G & cs & HR & Hq & Hvs).
  destruct cs as [|[l v0] cs]; [done|].
  simpl in Hvs. injection Hvs as -> <-.
  destruct (front_spec m G q l v cs HR Hq) as (Hfront & Hfrontc & Hread).
  pose proof (Rep_suffix_chain m G q [] _ HR Hq) as Hc.
  destruct (iter_step m q l v cs Hc) as (Hstar & _).
  pose proof Hc as (_ & nx & Hl & _). simpl in Hl.
  pose proof (Rep_write m G q [] l v cs _ x HR Hq Hl) as HR'.
  exists l. eexists. split; [done|]. split; [done|].
  split.
  { by rewrite (bind_ret_eq _ _ _ _ _ (begin_spec _ _ _ _ HR Hq)). }
  split; [done|]. split; [by apply (write_ref_eq l x m _ Hl)|].
  split.
  - apply holds_observes.
    apply (holds_intro _ _ q ((l, x) :: cs) HR').
    by rewrite lookup_insert_eq.
  - intros q' ws Hne Hq'. apply holds_observes.
    destruct (holds_elim _ _ _ _ HR Hq') as (cs' & Hcs' & <-).
    apply (holds_intro _ _ _ _ HR'). by rewrite lookup_insert_ne.
Qed.

(** X14 (what the accessors throw).  In any memory: when a [front()]
    overload or [popFront()] throws, the exception is [EmptyQueue], the
    memory is untouched and [size()] is 0; when [operator*] or an
    [operator++] throws, the exception is [InvalidOperation], the memory
    is untouched and the iterator compares equal to [end()]; [size()]
    and [begin()] never throw. *)
Theorem misuse_exceptions_only (this : qref) (it : RawIterator) (m : Mem)
    (e : exn) (m' : Mem) :
  (front this m = Throw e m' ∨ front_const this m = Throw e m' ∨
   popFront this m = Throw e m' →
   e = EmptyQueue ∧ m' = m ∧ size this m = Ret 0 m) ∧
  (operator_star it m = Throw e m' ∨ operator_pre_incr it m = Throw e m' ∨
   operator_post_incr it m = Throw e m' →
   e = InvalidOperation ∧ m' = m ∧
   operator_ne it (end_ (m_ptr it)) = false) ∧
  size this m ≠ Throw e m' ∧
  begin this m ≠ Throw e m'.
Proof.
  split; [|split; [|split]].
  - run_defs. destruct (queues m !! this) as [[fr re sz]|] eqn:Hq; simpl;
      [|by intros [?|[?|?]]].
    case_decide as Hz; simpl in *.
    + subst sz. by intros [[= <- <-]|[[= <- <-]|[= <- <-]]].
    + intros [H|[H|H]]; revert H; crunch;
        repeat (case_match; simpl in *; simplify_eq; try done).
  - destruct it as [p [l|]]; run_defs.
    + intros [H|[H|H]]; revert H;
        repeat (case_match; simpl in *; simplify_eq; try done).
    + by intros [[= <- <-]|[[= <- <-]|[= <- <-]]].
  - run_defs. by destruct (queues m !! this).
  - run_defs. by destruct (queues m !! this).
Qed.

(** X15 (a drained queue is as good as new).  From a queue with
    elements [vs], [length vs] calls of [popFront] remove [vs] in order
    and leave size 0; pushing [ws] afterwards (no allocation failing)
    gives exactly the elements [ws]: the rear pointer left behind by the
    last [popFront] is never used. *)
Theorem reuse_after_drain (m : Mem) (q : qref) (vs ws : list T) :
  holds m q vs →
  Z.of_nat (length ws) ≤ INT_MAX →
  allocs_ok (length ws) (plan m) = true →
  ∃ m1 m2, pop_n (length vs) q m = Ret vs m1 ∧
           observes m1 q [] ∧
           push_all q ws m1 = Ret () m2 ∧
           observes m2 q ws.
Proof.
  intros (G & cs & HR & Hq & <-) Hlen Hok.
  destruct (pop_n_spec (length cs) m G q cs HR Hq ltac:(lia))
    as (m1 & Hpop & HR1 & Hpl1).
  rewrite drop_all in HR1.
  assert (<[q := []]> G !! q = Some []) as Hq1 by by rewrite lookup_insert_eq.
  destruct (push_all_spec ws m1 _ q [] HR1 Hq1)
    as (m2 & new & Hpush & Hnew & HR2 & _);
    [simpl; lia|by rewrite Hpl1|].
  simpl in HR2. rewrite insert_insert_eq in HR2.
  exists m1, m2. rewrite length_fmap.
  split.
  { rewrite Hpop. f_equal. rewrite <- (length_fmap snd cs).
    apply firstn_all. }
  split; [apply holds_observes; by apply (holds_intro _ _ q [] HR1)|].
  split; [done|].
  apply holds_observes. rewrite <- Hnew.
  apply (holds_intro _ _ _ _ HR2). by rewrite lookup_insert_eq.
Qed.

Lemma NoDup_head_last_single (ls : list loc) :
  NoDup ls → ls ≠ [] → (head ls = last ls ↔ length ls = 1%nat).
Proof.
  intros Hnd Hne. destruct ls as [|a [|b ls]]; [done|done|].
  split; [|done]. simpl head. intros Heq. exfalso.
  apply NoDup_cons in Hnd as [Ha _]. apply Ha.
  change (last (a :: b :: ls)) with (last (b :: ls)) in Heq.
  by apply last_Some_elem_of.
Qed.

(** X16 (shape of a queue).  In every reachable memory, each live queue
    is a chain of distinct nodes that starts at front and ends in a null
    [next]; its count is the number of those nodes and lies between 0
    and [INT_MAX]; and when the count is not 0, rear is the last node of
    the chain and front equals rear exactly when the count is 1. *)
Theorem queue_shape (m : Mem) (r : qref) (q : Queue) :
  reachable m → queues m !! r = Some q →
  ∃ cs, chain (nodes m) (m_front q) cs ∧
        NoDup cs.*1 ∧
        m_size q = Z.of_nat (length cs) ∧
        0 ≤ m_size q ≤ INT_MAX ∧
        (m_size q ≠ 0 →
         m_rear q = last cs.*1 ∧
         (m_front q = m_rear q ↔ m_size q = 1)).
Proof.
  intros [G HR]%reachable_Rep Hq.
  destruct (Rep_lookup_inv _ _ _ _ HR Hq) as (cs & _ & Hwf).
  pose proof Hwf as (Hc & Hs & Hm & Hnd & Hrear).
  exists cs. split; [done|]. split; [done|]. split; [done|].
  split; [lia|]. intros Hnz.
  assert (cs ≠ []) as Hne by (intros ->; simpl in Hs; lia).
  rewrite (Hrear Hne). split; [done|].
  rewrite (chain_head _ _ _ Hc).
  rewrite NoDup_head_last_single; [|done|by destruct cs].
  rewrite length_fmap. lia.
Qed.

Lemma kept_nodes m m' G this new l :
  Own m G → Rep m' (<[this := new]> G) → is_Some (nodes m !! l) →
  (∀ ct, G !! this = Some ct → l ∉ ct.*1) →
  nodes m' !! l = nodes m !! l.
Proof.
  intros [HR HT] HR' Hl Hnot.
  destruct (HT l Hl) as (r & c0 & Hr & Hlr).
  assert (r ≠ this) as Hne by (intros ->; by apply (Hnot c0)).
  destruct (Rep_lookup _ _ _ _ HR Hr) as (q & _ & Hc & _).
  destruct (Rep_lookup m' _ r c0 HR') as (q' & _ & Hc' & _);
    [by rewrite lookup_insert_ne|].
  by apply (chain_same_nodes _ _ (m_front q) (m_front q') c0).
Qed.

Lemma released_nodes m m' G this new ct l :
  Rep m G → Own m' (<[this := new]> G) → G !! this = Some ct →
  (∀ l, l ∈ new.*1 → l ∉ ct.*1) → l ∈ ct.*1 →
  nodes m' !! l = None.
Proof.
  intros HR [HR' HT'] Hthis Hfresh Hl.
  destruct (nodes m' !! l) as [n|] eqn:Hn; [|done]. exfalso.
  destruct (HT' l) as (r & c0 & Hr & Hlr); [by rewrite Hn|].
  destruct (decide (r = this)) as [->|Hne].
  - rewrite lookup_insert_eq in Hr. simplify_eq. by apply (Hfresh l).
  - rewrite lookup_insert_ne in Hr by done.
    destruct HR as (_ & _ & Hdis).
    by apply (Hdis r this c0 ct l Hne Hr Hthis).
Qed.

(** X17 (the copy is a fresh chain).  In a reachable memory, a returning
    copy construction yields a queue object at an address that was not
    live, whose chain consists only of nodes that were not allocated
    before the call; every node and every queue object that existed
    before is left exactly as it was. *)
Theorem copy_allocates_fresh_chain (m : Mem) (other : qref) (fuel : nat)
    (c : qref) (m1 : Mem) :
  reachable m → is_Some (queues m !! other) →
  Queue_copy fuel other m = Ret c m1 →
  queues m !! c = None ∧
  (∀ l, is_Some (nodes m !! l) → nodes m1 !! l = nodes m !! l) ∧
  (∀ r, r ≠ c → queues m1 !! r = queues m !! r) ∧
  ∃ qc cs, queues m1 !! c = Some qc ∧ chain (nodes m1) (m_front qc) cs ∧
           ∀ l, l ∈ cs.*1 → nodes m !! l = None.
Proof.
  intros [G HO]%reachable_Own Ho Hrun. pose proof HO as [HR HT].
  destruct (Rep_live _ _ _ HR Ho) as [co Hco].
  pose proof (Queue_copy_own fuel m G other co HO Hco) as Hown.
  unfold wp in Hown. rewrite Hrun in Hown.
  destruct Hown as (Hc & new & q' & [HR1 HT1] & Hqs).
  split; [by apply (Rep_not_live _ G)|]. split.
  { intros l Hl. apply (kept_nodes m m1 G c new l HO HR1 Hl).
    intros ct Hct. congruence. }
  split; [intros r Hne; by rewrite Hqs, lookup_insert_ne|].
  destruct (Rep_lookup m1 _ c new HR1) as (qc & Hqc & Hchain & _);
    [by rewrite lookup_insert_eq|].
  exists qc, new. split; [done|]. split; [done|].
  intros l Hl. destruct (nodes m !! l) as [n|] eqn:Hn; [|done]. exfalso.
  destruct (HT l) as (r & c0 & Hr & Hlr); [by rewrite Hn|].
  assert (r ≠ c) as Hne by (intros ->; congruence).
  destruct HR1 as (_ & _ & Hdis).
  apply (Hdis r c c0 new l Hne); [by rewrite lookup_insert_ne
                                 |by rewrite lookup_insert_eq|done..].
Qed.

(** X18 (assignment releases the old chain).  In a reachable memory,
    after [this = other] between two different queues has returned,
    every node that was on the chain of [this] before is released (so
    references and iterators into the old contents dangle), while every
    other node that existed before, those of [other] included, is
    exactly as it was. *)
Theorem assign_releases_old_nodes (m : Mem) (this other : qref) (q : Queue)
    (cs : list (loc * T)) (fuel : nat) (r : qref) (m' : Mem) :
  reachable m → queues m !! this = Some q →
  chain (nodes m) (m_front q) cs →
  is_Some (queues m !! other) → this ≠ other →
  operator_assign fuel this other m = Ret r m' →
  (∀ l, l ∈ cs.*1 → nodes m' !! l = None) ∧
  (∀ l, is_Some (nodes m !! l) → l ∉ cs.*1 →
        nodes m' !! l = nodes m !! l).
Proof.
  intros [G HO]%reachable_Own Hq Hc Ho Hne Hrun. pose proof HO as [HR _].
  destruct (Rep_lookup_inv _ _ _ _ HR Hq) as (cs2 & Hthis & Hc2 & _).
  rewrite <- (chain_unique _ _ _ _ Hc Hc2) in Hthis. clear cs2 Hc2.
  destruct (Rep_live _ _ _ HR Ho) as [co Hco].
  pose proof (operator_assign_own fuel m G this other cs co HO Hthis Hco)
    as Hown.
  unfold wp in Hown. rewrite Hrun in Hown.
  destruct Hown as (new & q' & HO' & _ & Hfresh).
  split.
  - intros l Hl.
    by apply (released_nodes m m' G this new cs l HR HO' Hthis (Hfresh Hne)).
  - intros l Hl Hnot. destruct HO' as [HR' _].
    apply (kept_nodes m m' G this new l HO HR' Hl).
    intros ct Hct. congruence.
Qed.

(** X19 ([transform] replaces the nodes).  In a reachable memory, after
    [transform] has returned, the queue is the same object but none of
    its nodes is one it had before: every node of the old chain is
    released (so references and iterators taken before the call
    dangle), and every node of the other queues is exactly as it was. *)
Theorem transform_replaces_nodes (m : Mem) (queue : qref) (q : Queue)
    (cs : list (loc * T)) (f : T → T) (fuel : nat) (m' : Mem) :
  reachable m → queues m !! queue = Some q →
  chain (nodes m) (m_front q) cs →
  transform fuel queue f m = Ret () m' →
  (∀ l, l ∈ cs.*1 → nodes m' !! l = None) ∧
  (∀ l, is_Some (nodes m !! l) → l ∉ cs.*1 →
        nodes m' !! l = nodes m !! l) ∧
  ∃ q' cs', queues m' !! queue = Some q' ∧
            chain (nodes m') (m_front q') cs' ∧
            ∀ l, l ∈ cs'.*1 → l ∉ cs.*1.
Proof.
  intros [G HO]%reachable_Own Hq Hc Hrun. pose proof HO as [HR _].
  destruct (Rep_lookup_inv _ _ _ _ HR Hq) as (cs2 & Hthis & Hc2 & _).
  rewrite <- (chain_unique _ _ _ _ Hc Hc2) in Hthis. clear cs2 Hc2.
  pose proof (transform_own fuel m G queue cs f HO Hthis) as Hown.
  unfold wp in Hown. rewrite Hrun in Hown.
  destruct Hown as (new & q' & HO' & _ & Hfresh).
  split; [|split].
  - intros l Hl.
    by apply (released_nodes m m' G queue new cs l HR HO' Hthis Hfresh).
  - intros l Hl Hnot. destruct HO' as [HR' _].
    apply (kept_nodes m m' G queue new l HO HR' Hl).
    intros ct Hct. congruence.
  - destruct HO' as [HR' _].
    destruct (Rep_lookup m' _ queue new HR') as (qn & Hqn & Hchain & _);
      [by rewrite lookup_insert_eq|].
    by exists qn, new.
Qed.

(** The iterator that [k] advances from [begin()] reach, and what it
    dereferences to. *)
Lemma position_iter m G q cs k l x :
  Rep m G → G !! q = Some cs → cs !! k = Some (l, x) →
  (it0 ← begin q; advance k it0) m = Ret (mkIter q (Some l)) m ∧
  (r ← operator_star (mkIter q (Some l)); read_ref r) m = Ret x m.
Proof.
  intros HR Hq Hk.
  pose proof (Rep_suffix_chain m G q [] cs HR Hq) as Hc.
  pose proof (chain_drop _ _ k Hc) as Hck.
  assert (drop k cs = (l, x) :: drop (S k) cs) as Hdrop.
  { destruct (insert_cell_take_drop cs k l x x Hk) as [Hsplit _].
    rewrite Hsplit at 1. rewrite drop_app_length'; [done|].
    rewrite length_take. apply lookup_lt_Some in Hk. lia. }
  rewrite Hdrop in Hck.
  change (head ((l, x) :: drop (S k) cs).*1) with (Some l) in Hck.
  destruct (iter_step m q l x _ Hck) as (Hstar & Hread & _).
  split.
  - rewrite (bind_ret_eq _ _ _ _ _ (begin_spec _ _ _ _ HR Hq)).
    rewrite (advance_spec k m q cs Hc); [by rewrite Hdrop|].
    apply lookup_lt_Some in Hk. lia.
  - by rewrite (bind_ret_eq _ _ _ _ _ Hstar).
Qed.

(** X20 (which iterators survive a mutation).  Let an iterator stand at
    position [k] of a queue, on the element [x].  After a returning
    [pushBack] on that queue it is still the iterator of position [k]
    and still dereferences to [x].  After a returning [popFront] it is,
    for [k > 0], the iterator of position [k - 1] and still dereferences
    to [x]; for [k = 0] its node has been released and dereferencing it
    is undefined behaviour. *)
Theorem iterators_after_mutation (m : Mem) (q : qref) (vs : list T)
    (k : nat) (x : T) :
  holds m q vs → vs !! k = Some x →
  ∃ it, (it0 ← begin q; advance k it0) m = Ret it m ∧
        (r ← operator_star it; read_ref r) m = Ret x m ∧
        (∀ v m', pushBack q v m = Ret () m' →
           (it0 ← begin q; advance k it0) m' = Ret it m' ∧
           (r ← operator_star it; read_ref r) m' = Ret x m') ∧
        (∀ m', popFront q m = Ret () m' →
           match k with
           | O => operator_star it m' = Fault
           | S k' =>
               (it0 ← begin q; advance k' it0) m' = Ret it m' ∧
               (r ← operator_star it; read_ref r) m' = Ret x m'
           end).
Proof.
  intros (G & cs & HR & Hq & <-) Hk.
  rewrite list_lookup_fmap in Hk.
  destruct (cs !! k) as [[l x']|] eqn:Hcell; [|done].
  simpl in Hk. injection Hk as ->.
  destruct (position_iter m G q cs k l x HR Hq Hcell) as [Hpos Hderef].
  exists (mkIter q (Some l)). split; [done|]. split; [done|]. split.
  - intros v m' Hrun.
    destruct (pushBack_ends m G q cs v m' HR Hq) as [(_ & l' & HR')|[Hthrow _]];
      [by rewrite Hrun| |congruence].
    apply (position_iter m' _ q (cs ++ [(l', v)]) k l x HR').
    + by rewrite lookup_insert_eq.
    + by apply lookup_app_l_Some.
  - intros m' Hrun.
    destruct (popFront_ends m G q cs m' HR Hq) as [(_ & Hne & HR')|[Hthrow _]];
      [by rewrite Hrun| |congruence].
    destruct cs as [|[l0 v0] cs]; [done|]. simpl in HR'.
    destruct k as [|k]; simpl in Hcell.
    + simplify_eq.
      destruct (Rep_lookup _ _ _ _ HR Hq) as (qq & Hqq & Hwf).
      pose proof Hwf as (Hc & Hs & _).
      destruct Hc as (Hf & nx & Hl & _). simpl in *.
      rewrite (popFront_node q m qq l _ Hqq ltac:(lia)
                 ltac:(unfold INT_MIN; lia) Hf Hl) in Hrun.
      injection Hrun as <-. run_defs. by rewrite lookup_delete_eq.
    + apply (position_iter m' _ q cs k l x HR'); [|done].
      by rewrite lookup_insert_eq.
Qed.

(** X21 ([filter] builds a fresh chain).  In a reachable memory, a
    returning [filter] yields a queue object at an address that was not
    live, whose chain consists only of nodes that were not allocated
    before the call; every node and every queue object that existed
    before, the filtered queue included, is left exactly as it was. *)
Theorem filter_allocates_fresh_chain (m : Mem) (queue : qref)
    (predict : T → bool) (fuel : nat) (c : qref) (m1 : Mem) :
  reachable m → is_Some (queues m !! queue) →
  filter fuel queue predict m = Ret c m1 →
  queues m !! c = None ∧
  (∀ l, is_Some (nodes m !! l) → nodes m1 !! l = nodes m !! l) ∧
  (∀ r, r ≠ c → queues m1 !! r = queues m !! r) ∧
  ∃ qc cs, queues m1 !! c = Some qc ∧ chain (nodes m1) (m_front qc) cs ∧
           ∀ l, l ∈ cs.*1 → nodes m !! l = None.
Proof.
  intros [G HO]%reachable_Own Ho Hrun. pose proof HO as [HR HT].
  destruct (Rep_live _ _ _ HR Ho) as [co Hco].
  pose proof (filter_own fuel m G queue co predict HO Hco) as Hown.
  unfold wp in Hown. rewrite Hrun in Hown.
  destruct Hown as (Hc & new & q' & [HR1 HT1] & Hqs).
  split; [by apply (Rep_not_live _ G)|]. split.
  { intros l Hl. apply (kept_nodes m m1 G c new l HO HR1 Hl).
    intros ct Hct. congruence. }
  split; [intros r Hne; by rewrite Hqs, lookup_insert_ne|].
  destruct (Rep_lookup m1 _ c new HR1) as (qc & Hqc & Hchain & _);
    [by rewrite lookup_insert_eq|].
  exists qc, new. split; [done|]. split; [done|].
  intros l Hl. destruct (nodes m !! l) as [n|] eqn:Hn; [|done]. exfalso.
  destruct (HT l) as (r & c0 & Hr & Hlr); [by rewrite Hn|].
  assert (r ≠ c) as Hne by (intros ->; congruence).
  destruct HR1 as (_ & _ & Hdis).
  apply (Hdis r c c0 new l Hne); [by rewrite lookup_insert_ne
                                 |by rewrite lookup_insert_eq|done..].
Qed.

(** The last node of a chain has a null [next]. *)
Lemma chain_last h p cs r :
  chain h p cs → last cs.*1 = Some r →
  ∃ v, h !! r = Some (mkNode v None).
Proof.
  revert p. induction cs as [|[l v] cs IH]; intros p Hc Hlast; [done|].
  destruct Hc as (_ & nx & Hl & Hc). simpl in *.
  destruct cs as [|c cs].
  - simpl in *. injection Hlast as <-. subst nx. by exists v.
  - by apply (IH nx).
Qed.

(** X22 ([pushBack] and the heap).  In a reachable memory, with a count
    below [INT_MAX] and an allocator that serves the request, [pushBack]
    returns; it allocates one node at an address that was free, holding
    the value and a null [next], makes it the rear and raises the count
    by one.  On an empty queue the new node also becomes the front and
    the old rear pointer is not read; otherwise the front is kept and
    the old rear node, whose [next] was null, is linked to the new node
    with its element unchanged.  No other node or queue object
    changes. *)
Theorem pushBack_links_new_node (m : Mem) (this : qref) (q : Queue)
    (v : T) :
  reachable m → queues m !! this = Some q → m_size q < INT_MAX →
  head (plan m) ≠ Some false →
  ∃ l m',
    nodes m !! l = None ∧
    pushBack this v m = Ret () m' ∧
    plan m' = tail (plan m) ∧
    if decide (m_size q = 0) then
      nodes m' = <[l := mkNode v None]> (nodes m) ∧
      queues m' = <[this := mkQueue (Some l) (Some l) 1]> (queues m)
    else
      ∃ r x, m_rear q = Some r ∧ nodes m !! r = Some (mkNode x None) ∧
             r ≠ l ∧
             nodes m' = <[r := mkNode x (Some l)]>
                          (<[l := mkNode v None]> (nodes m)) ∧
             queues m' = <[this := mkQueue (m_front q) (Some l)
                                     (m_size q + 1)]> (queues m).
Proof.
  intros [G HR]%reachable_Rep Hq Hlt Hp.
  destruct (Rep_lookup_inv _ _ _ _ HR Hq) as (cs & _ & Hwf).
  pose proof Hwf as (Hc & Hs & _ & _ & Hrear).
  set (l := fresh (dom (nodes m))).
  assert (nodes m !! l = None) as Hl.
  { apply not_elem_of_dom. apply is_fresh. }
  destruct (decide (m_size q = 0)) as [Hz|Hz].
  - eexists l, _. split; [done|].
    split; [by apply (pushBack_first _ _ _ q)|]. done.
  - assert (cs ≠ []) as Hne by (intros ->; simpl in *; lia).
    destruct (last cs.*1) as [r|] eqn:Hlast.
    2:{ apply last_None in Hlast. by destruct cs. }
    destruct (chain_last _ _ _ _ Hc Hlast) as [x Hr].
    assert (r ≠ l) as Hrl by (intros ->; congruence).
    eexists l, _. split; [done|].
    split; [by apply (pushBack_next _ _ _ q r _ Hp Hq Hz Hlt (Hrear Hne) Hr)|].
    split; [done|]. exists r, x.
    split; [by rewrite (Hrear Hne)|]. done.
Qed.

(** X23 (the count is an [int]).  When the count of a queue is
    [INT_MAX] and the allocator serves the request, [pushBack] allocates
    and links the node and then increments the count past [INT_MAX]:
    signed overflow, undefined behaviour. *)
Theorem pushBack_at_INT_MAX (m : Mem) (this : qref) (q : Queue) (r : loc)
    (n : Node) (v : T) :
  queues m !! this = Some q → m_size q = INT_MAX →
  m_rear q = Some r → nodes m !! r = Some n →
  head (plan m) ≠ Some false →
  pushBack this v m = Fault.
Proof.
  intros Hq Hs Hr Hn Hp.
  apply (pushBack_overflow this v m q r n Hp Hq); [|lia|done..].
  rewrite Hs. by unfold INT_MAX.
Qed.

(** * User code that throws *)

Lemma pushBack_user_eq (T_copy : T → option exn) this v (m : Mem) :
  User.pushBack T_copy this v m =
    match plan m with
    | false :: p => Throw bad_alloc (set_plan p m)
    | _ => match T_copy v with
           | Some e => Throw e (set_plan (tail (plan m)) m)
           | None => pushBack this v m
           end
    end.
Proof.
  unfold User.pushBack, pushBack, User.new_Node, new_Node,
    mbind, M_bind, bind.
  destruct (plan m) as [|[] p]; destruct (T_copy v); reflexivity.
Qed.

Lemma pushBack_user_own T_copy m G this cs v :
  Own m G → G !! this = Some cs → Z.of_nat (length cs) < INT_MAX →
  wp (User.pushBack T_copy this v) m True
    (λ _ m', ∃ l q', Own m' (<[this := cs ++ [(l, v)]]> G) ∧
                     queues m' = <[this := q']> (queues m))
    (λ e m', m' = set_plan (tail (plan m)) m ∧
             (e = bad_alloc ∨ T_copy v = Some e)).
Proof.
  intros HO Hthis Hlt.
  pose proof (pushBack_own m G this cs v HO Hthis Hlt) as Hbase.
  unfold wp in *. rewrite pushBack_user_eq.
  destruct (plan m) as [|[] p] eqn:Hp; simpl.
  - destruct (T_copy v) as [e|]; [by auto|].
    destruct (pushBack this v m) as [? m'|e m'| |]; try done.
    destruct Hbase as [-> ->]. auto.
  - destruct (T_copy v) as [e|]; [by auto|].
    destruct (pushBack this v m) as [? m'|e m'| |]; try done.
    destruct Hbase as [-> ->]. auto.
  - auto.
Qed.

Lemma copy_loop_user_own T_copy rest : ∀ fuel m G this other acc seen,
  Own m G → this ≠ other →
  G !! this = Some acc → G !! other = Some (seen ++ rest) →
  Z.of_nat (length acc + length rest) ≤ INT_MAX →
  wp (User.copy_loop T_copy fuel this other (mkIter other (head rest.*1)))
    m True
    (λ _ m', ∃ new q', Own m' (<[this := acc ++ new]> G) ∧
                       queues m' = <[this := q']> (queues m) ∧
                       new.*2 = rest.*2)
    (λ e m', ∃ new q' v post,
               Own m' (<[this := acc ++ new]> G) ∧
               queues m' = <[this := q']> (queues m) ∧
               rest.*2 = new.*2 ++ v :: post ∧
               (e = bad_alloc ∨ T_copy v = Some e)).
Proof.
  induction rest as [|[l v] rest IH];
    intros fuel m G this other acc seen HO Hne Hthis Hother Hlen;
    (destruct fuel as [|fuel]; [done|]); simpl User.copy_loop;
    pose proof HO as [HR _];
    destruct (Rep_lookup _ _ _ _ HR Hthis) as (q & Hq & _).
  - eapply wp_eq_ret; [reflexivity|]. exists [], q.
    by rewrite app_nil_r, !insert_id.
  - change (head ((l, v) :: rest).*1) with (Some l).
    pose proof (Rep_suffix_chain _ _ _ _ _ HR Hother) as Hc.
    destruct (iter_step m other l v rest Hc) as (Hstar & Hread & _).
    wp_run Hstar. wp_run Hread. apply wp_bind.
    eapply wp_mono;
      [apply (pushBack_user_own T_copy m G this acc v HO Hthis)| done | |].
    { simpl in Hlen. lia. }
    + intros _ m1 (l1 & q1 & HO1 & Hqs1). cbv beta.
      pose proof HO1 as [HR1 _].
      assert (<[this := acc ++ [(l1, v)]]> G !! other
              = Some (seen ++ (l, v) :: rest))
        as Hother1 by by rewrite lookup_insert_ne.
      pose proof (Rep_suffix_chain _ _ _ _ _ HR1 Hother1) as Hc1.
      destruct (iter_step m1 other l v rest Hc1) as (_ & _ & Hincr & _).
      wp_run Hincr.
      eapply wp_mono;
        [apply (IH fuel m1 _ this other (acc ++ [(l1, v)]) (seen ++ [(l, v)])
                  HO1 Hne)| | |].
      * by rewrite lookup_insert_eq.
      * by rewrite <- app_assoc.
      * rewrite length_app. simpl in *. lia.
      * done.
      * intros ? m2 (new & q2 & HO2 & Hqs2 & Hvs).
        exists ((l1, v) :: new), q2.
        rewrite insert_insert_eq, <- app_assoc in HO2. split; [done|].
        split; [by rewrite Hqs2, Hqs1, insert_insert_eq|].
        by rewrite !fmap_cons, Hvs.
      * intros e m2 (new & q2 & w & post & HO2 & Hqs2 & Hvs & He).
        exists ((l1, v) :: new), q2, w, post.
        rewrite insert_insert_eq, <- app_assoc in HO2. split; [done|].
        split; [by rewrite Hqs2, Hqs1, insert_insert_eq|].
        split; [|done]. by rewrite !fmap_cons, Hvs.
    + intros e m1 [-> He]. exists [], q, v, (rest.*2).
      rewrite app_nil_r, insert_id by done.
      split; [by apply Own_set_plan|].
      split; [simpl; by rewrite insert_id|]. done.
Qed.

Lemma Queue_copy_user_own T_copy fuel m G other cs :
  Own m G → G !! other = Some cs →
  wp (User.Queue_copy T_copy fuel other) m True
    (λ this m', G !! this = None ∧
                ∃ new q', Own m' (<[this := new]> G) ∧
                          queues m' = <[this := q']> (queues m) ∧
                          new.*2 = cs.*2)
    (λ e m', User.copy_left T_copy m G cs e m').
Proof.
  intros HO Hother. unfold User.Queue_copy. pose proof HO as [HR _].
  pose proof (Rep_fresh _ _ HR) as Hfresh.
  pose proof (Rep_not_live _ _ _ HR Hfresh) as Hdead.
  pose proof (Own_alloc_queue m G None HO) as HO0.
  set (this := fresh (dom (queues m))) in *.
  set (m0 := set_queues _ m) in HO0.
  assert (this ≠ other) as Hne by (intros ->; congruence).
  assert (<[this := []]> G !! other = Some cs) as Hother0
    by by rewrite lookup_insert_ne.
  destruct (Rep_lookup _ _ _ _ HR Hother) as (qo & _ & Hwfo).
  apply wfq_length_le in Hwfo. pose proof HO0 as [HR0 _].
  apply wp_bind. eapply wp_eq_ret; [reflexivity|]. fold this m0.
  apply wp_bind. apply wp_catch. apply wp_bind.
  eapply wp_eq_ret; [apply (begin_spec _ _ _ _ HR0 Hother0)|].
  eapply wp_mono;
    [apply (copy_loop_user_own T_copy cs fuel m0 _ this other [] []
              HO0 Hne)|done| |].
  - by rewrite lookup_insert_eq.
  - done.
  - simpl. lia.
  - intros _ m1 (new & q1 & HO1 & Hqs1 & Hvs). apply wp_ret.
    rewrite insert_insert_eq in HO1. split; [done|].
    exists new, q1. split; [done|]. split; [|done].
    rewrite Hqs1. unfold m0. simpl. by rewrite insert_insert_eq.
  - intros e m1 (new & q1 & v & post & HO1 & Hqs1 & Hvs & He).
    simpl in HO1. rewrite insert_insert_eq in HO1. apply wp_bind.
    assert (queues m1 = <[this := q1]> (queues m)) as Hqs1'.
    { rewrite Hqs1. unfold m0. simpl. by rewrite insert_insert_eq. }
    assert (e = bad_alloc ∨ e ≠ bad_alloc) as [->|Hnb]
      by (destruct e; first [by left|by right]).
    + eapply wp_mono;
        [apply (Queue_dtor_own new fuel m1 _ this HO1)| | |done].
      * by rewrite lookup_insert_eq.
      * done.
      * intros _ m2 (q2 & HO2 & Hqs2 & _). cbv beta.
        rewrite insert_insert_eq in HO2. pose proof HO2 as [HR2 _].
        destruct (Rep_lookup m2 _ this [] HR2) as (q & Hq & _);
          [by rewrite lookup_insert_eq|].
        wp_run (free_queue_eq _ _ _ Hq). apply wp_throw.
        apply (Own_free _ _ this) in HO2; [|by rewrite lookup_insert_eq].
        rewrite delete_insert_eq, (delete_id _ _ Hfresh) in HO2.
        split.
        { simpl. rewrite Hqs2, Hqs1'.
          by rewrite !delete_insert_eq, (delete_id _ _ Hdead). }
        exists new, v, post. split; [done|]. split; [done|].
        split; [done|]. by intros [].
    + pose proof HO1 as [HR1 _].
      destruct (Rep_lookup m1 _ this new HR1) as (q & Hq & _);
        [by rewrite lookup_insert_eq|].
      assert ((match e with
               | bad_alloc => Queue_dtor fuel this
               | _ => ret ()
               end) = ret ()) as -> by by destruct e.
      apply wp_ret. wp_run (free_queue_eq _ _ _ Hq). apply wp_throw.
      split.
      { simpl. rewrite Hqs1'.
        by rewrite delete_insert_eq, (delete_id _ _ Hdead). }
      exists new, v, post. split; [done|]. split; [done|].
      split; [done|]. intros _. by exists this, q1, m1.
Qed.

(** With a copy constructor that throws nothing but [std::bad_alloc], a
    failed copy gives everything back. *)
Lemma copy_left_clean T_copy m G cs e m' :
  User.only_bad_alloc T_copy → User.copy_left T_copy m G cs e m' →
  e = bad_alloc ∧ Own m' G ∧ queues m' = queues m.
Proof.
  intros Hba (Hqs & new & v & post & _ & He & Hclean & _).
  assert (e = bad_alloc) as -> by (destruct He as [?|?%Hba]; done).
  split; [done|]. split; [by apply Hclean|done].
Qed.

Lemma wp_self {A} (c : M A) m O (Q : A → Mem → Prop) E :
  wp c m O Q E →
  wp c m O (λ a m', c m = Ret a m' ∧ Q a m')
    (λ e m', c m = Throw e m' ∧ E e m').
Proof. unfold wp. by destruct (c m). Qed.

(** Whatever leaves [operator=] by an exception left the copy
    constructor of its temporary. *)
Lemma operator_assign_user_own T_copy fuel m G this other ct co :
  Own m G → G !! this = Some ct → G !! other = Some co →
  wp (User.operator_assign T_copy fuel this other) m True
    (λ _ m', ∃ new q', Own m' (<[this := new]> G) ∧
                       queues m' = <[this := q']> (queues m) ∧
                       (this ≠ other → ∀ l, l ∈ new.*1 → l ∉ ct.*1))
    (λ e m', this ≠ other ∧
             User.Queue_copy T_copy fuel other m = Throw e m' ∧
             User.copy_left T_copy m G co e m').
Proof.
  intros HO Hthis Hother. unfold User.operator_assign.
  pose proof HO as [HR _].
  destruct (Rep_lookup _ _ _ _ HR Hthis) as (q & Hq & _).
  destruct (decide (this = other)) as [->|Hne].
  { apply wp_ret. exists co, q. by rewrite !insert_id. }
  apply wp_bind.
  eapply wp_mono;
    [apply wp_self, (Queue_copy_user_own T_copy fuel m G other co HO Hother)
    |done| |by intros e m1 [Hrun Hleft]].
  intros temp m1 (_ & Htemp & new & q1 & HO1 & Hqs1 & _). cbv beta.
  pose proof HO1 as [HR1 _].
  pose proof (Rep_not_live _ _ _ HR Htemp) as Hdead.
  assert (temp ≠ this) as Hne' by (intros ->; congruence).
  assert (<[temp := new]> G !! this = Some ct) as Hthis1
    by by rewrite lookup_insert_ne.
  assert (<[temp := new]> G !! temp = Some new) as Htemp1
    by by rewrite lookup_insert_eq.
  destruct (Rep_lookup _ _ _ _ HR1 Hthis1) as (qt & Hqt & _).
  destruct (Rep_lookup _ _ _ _ HR1 Htemp1) as (qn & Hqn & _).
  pose proof (Own_swap _ _ temp this _ _ _ _ HO1 Hne' Hqn Hqt Htemp1 Hthis1)
    as HO2.
  unfold with_local. apply wp_bind.
  eapply wp_eq_ret.
  { apply catch_ret_eq.
    apply (swap_members_eq temp this m1 qn qt this Hne' Hqn Hqt). }
  apply wp_bind.
  eapply wp_mono;
    [apply (destroy_own fuel _ _ temp ct HO2)| | |done].
  - by rewrite lookup_insert_ne, lookup_insert_eq.
  - done.
  - intros _ m3 (HO3 & Hqs3 & _). apply wp_ret.
    exists new, qn. split; [|split].
    + rewrite delete_insert_ne, !delete_insert_eq, delete_id in HO3 by done.
      done.
    + rewrite Hqs3. simpl. rewrite Hqs1.
      by rewrite delete_insert_ne, !delete_insert_eq, delete_id by done.
    + intros _ l Hl. destruct HR1 as (_ & _ & Hdis).
      by apply (Hdis temp this new ct l Hne' Htemp1 Hthis1).
Qed.

Lemma transform_loop_user_own (f : T → T * option exn) rest :
  ∀ fuel m G tq seen,
  Own m G → G !! tq = Some (seen ++ rest) →
  wp (User.transform_loop fuel f (mkIter tq (head rest.*1)) (end_ tq))
    m True
    (λ _ m', Own m' (<[tq := seen ++ ((λ c, (c.1, (f c.2).1)) <$> rest)]> G)
             ∧ queues m' = queues m)
    (λ _ m', ∃ cells, Own m' (<[tq := cells]> G) ∧ queues m' = queues m).
Proof.
  induction rest as [|[l v] rest IH]; intros fuel m G tq seen HO Htq;
    (destruct fuel as [|fuel]; [by unfold wp|]);
    simpl User.transform_loop; pose proof HO as [HR _].
  - eapply wp_eq_ret; [reflexivity|]. by rewrite insert_id.
  - change (head ((l, v) :: rest).*1) with (Some l).
    pose proof (Rep_suffix_chain _ _ _ _ _ HR Htq) as Hc.
    destruct (iter_step m tq l v rest Hc) as (Hstar & Hread & _).
    pose proof Hc as (_ & nx & Hl & _). simpl in Hl.
    wp_run Hstar. wp_run Hread.
    wp_run (write_ref_eq l (f v).1 m _ Hl). simpl next.
    pose proof (Own_write m G tq seen l v rest _ (f v).1 HO Htq Hl) as HO1.
    simpl next in HO1.
    set (m1 := set_nodes _ m) in *. pose proof HO1 as [HR1 _].
    destruct (f v).2 as [x|] eqn:Hthrows.
    { apply wp_bind. apply wp_throw. by eexists. }
    apply wp_bind. apply wp_ret.
    assert (<[tq := seen ++ (l, (f v).1) :: rest]> G !! tq
            = Some (seen ++ (l, (f v).1) :: rest)) as Htq1
      by by rewrite lookup_insert_eq.
    pose proof (Rep_suffix_chain _ _ _ _ _ HR1 Htq1) as Hc1.
    destruct (iter_step m1 tq l (f v).1 rest Hc1) as (_ & _ & Hincr & _).
    wp_run Hincr.
    eapply wp_mono;
      [apply (IH fuel m1 _ tq (seen ++ [(l, (f v).1)]) HO1)| | |].
    + by rewrite lookup_insert_eq, <- app_assoc.
    + done.
    + intros ? m2 [HO2 Hqs2]. split; [|done].
      by rewrite insert_insert_eq, <- app_assoc in HO2.
    + intros ? m2 (cells & HO2 & Hqs2). exists cells.
      by rewrite insert_insert_eq in HO2.
Qed.

Lemma transform_user_own T_copy fuel m G queue cs
    (f : T → T * option exn) :
  User.only_bad_alloc T_copy →
  Own m G → G !! queue = Some cs →
  wp (User.transform T_copy fuel queue f) m True
    (λ _ m', ∃ new q', Own m' (<[queue := new]> G) ∧
                       queues m' = <[queue := q']> (queues m) ∧
                       ∀ l, l ∈ new.*1 → l ∉ cs.*1)
    (λ _ m', Own m' G ∧ queues m' = queues m).
Proof.
  intros Hba HO Hq. unfold User.transform. pose proof HO as [HR _].
  apply wp_bind.
  eapply wp_mono;
    [apply (Queue_copy_user_own T_copy fuel m G queue cs HO Hq)|done| |].
  2:{ intros e m1 Hleft.
      by destruct (copy_left_clean _ _ _ _ _ _ Hba Hleft) as (_ & ? & ?). }
  intros tq m1 (Htq & new & q1 & HO1 & Hqs1 & _). cbv beta.
  pose proof HO1 as [HR1 _].
  pose proof (Rep_not_live _ _ _ HR Htq) as Hdead.
  assert (tq ≠ queue) as Hne by (intros ->; congruence).
  assert (<[tq := new]> G !! tq = Some ([] ++ new)) as Htq1
    by by rewrite lookup_insert_eq.
  assert (∀ A m3 cells e (Q : A → Mem → Prop),
            Own m3 (<[tq := cells]> G) → queues m3 = queues m1 →
            wp (destroy fuel tq ;; throw e : M A) m3 True Q
              (λ _ m', Own m' G ∧ queues m' = queues m)) as Hunwind.
  { intros A m3 cells e Q HO3 Hqs3. apply wp_bind.
    eapply wp_mono;
      [apply (destroy_own fuel m3 _ tq cells HO3)| | |done].
    - by rewrite lookup_insert_eq.
    - done.
    - intros ? m4 (HO4 & Hqs4 & _). apply wp_throw.
      rewrite delete_insert_eq, delete_id in HO4 by done.
      split; [done|].
      rewrite Hqs4, Hqs3, Hqs1.
      by rewrite delete_insert_eq, delete_id by done. }
  unfold with_local. apply wp_bind. apply wp_catch. apply wp_bind.
  eapply wp_eq_ret; [apply (begin_spec _ _ tq new HR1 Htq1)|].
  apply wp_bind.
  eapply wp_mono;
    [apply (transform_loop_user_own f new fuel m1 _ tq [] HO1 Htq1)
    |done| |].
  2:{ intros e m2 (cells & HO2 & Hqs2).
      rewrite insert_insert_eq in HO2. by apply (Hunwind _ m2 cells). }
  intros ? m2 [HO2 Hqs2]. cbv beta. simpl app in HO2.
  rewrite insert_insert_eq in HO2.
  set (new' := (λ c, (c.1, (f c.2).1)) <$> new) in *.
  apply wp_bind.
  eapply wp_mono;
    [apply (operator_assign_user_own T_copy fuel m2 _ queue tq cs new' HO2)
    | | |].
  - by rewrite lookup_insert_ne.
  - by rewrite lookup_insert_eq.
  - done.
  - intros r m3 (new2 & q3 & HO3 & Hqs3 & Hfresh). cbv beta.
    apply wp_ret. cbv beta. apply wp_bind.
    eapply wp_mono;
      [apply (destroy_own fuel m3 _ tq new' HO3)| | |done].
    + by rewrite lookup_insert_ne, lookup_insert_eq.
    + done.
    + intros ? m4 (HO4 & Hqs4 & _). apply wp_ret.
      exists new2, q3. split; [|split].
      * rewrite delete_insert_ne, delete_insert_eq, delete_id in HO4
          by done. done.
      * rewrite Hqs4, Hqs3, Hqs2, Hqs1.
        by rewrite delete_insert_ne, delete_insert_eq, delete_id by done.
      * apply Hfresh. by intros ->.
  - intros e m3 (_ & _ & Hleft). cbv beta.
    destruct (copy_left_clean _ _ _ _ _ _ Hba Hleft) as (_ & HO3 & Hqs3).
    apply (Hunwind _ m3 new'); [done|congruence].
Qed.

Lemma filter_loop_user_own T_copy (predict : T → User.answer bool) rest :
  ∀ fuel m G fq queue acc seen,
  Own m G → fq ≠ queue →
  G !! fq = Some acc → G !! queue = Some (seen ++ rest) →
  Z.of_nat (length acc + length rest) ≤ INT_MAX →
  wp (User.filter_loop T_copy fuel fq predict
        (mkIter queue (head rest.*1)) (end_ queue))
    m True
    (λ _ m', ∃ new q', Own m' (<[fq := acc ++ new]> G) ∧
                       queues m' = <[fq := q']> (queues m) ∧
                       (length new ≤ length rest)%nat)
    (λ _ m', ∃ new q', Own m' (<[fq := acc ++ new]> G) ∧
                       queues m' = <[fq := q']> (queues m)).
Proof.
  induction rest as [|[l v] rest IH];
    intros fuel m G fq queue acc seen HO Hne Hfq Hqueue Hlen;
    (destruct fuel as [|fuel]; [by unfold wp|]); simpl User.filter_loop;
    pose proof HO as [HR _];
    destruct (Rep_lookup _ _ _ _ HR Hfq) as (q & Hq & _).
  - eapply wp_eq_ret; [reflexivity|]. exists [], q.
    by rewrite app_nil_r, !insert_id.
  - change (head ((l, v) :: rest).*1) with (Some l).
    pose proof (Rep_suffix_chain _ _ _ _ _ HR Hqueue) as Hc.
    destruct (iter_step m queue l v rest Hc) as (Hstar & Hread & Hincr & _).
    wp_run Hstar. wp_run Hread.
    assert (Own m (<[fq := acc ++ []]> G) ∧
            queues m = <[fq := q]> (queues m)) as Hsame.
    { by rewrite app_nil_r, !insert_id. }
    destruct (predict v) as [[]|x] eqn:Hpv.
    + apply wp_bind. apply wp_ret. apply wp_bind.
      eapply wp_mono;
        [apply (pushBack_user_own T_copy m G fq acc v HO Hfq)| done | |].
      { simpl in Hlen. lia. }
      * intros ? m1 (l1 & q1 & HO1 & Hqs1). cbv beta.
        pose proof HO1 as [HR1 _].
        assert (<[fq := acc ++ [(l1, v)]]> G !! queue
                = Some (seen ++ (l, v) :: rest))
          as Hqueue1 by by rewrite lookup_insert_ne.
        pose proof (Rep_suffix_chain _ _ _ _ _ HR1 Hqueue1) as Hc1.
        destruct (iter_step m1 queue l v rest Hc1) as (_ & _ & Hincr1 & _).
        wp_run Hincr1.
        assert (∀ m2 new q2,
                  Own m2 (<[fq := (acc ++ [(l1, v)]) ++ new]>
                            (<[fq := acc ++ [(l1, v)]]> G)) →
                  queues m2 = <[fq := q2]> (queues m1) →
                  Own m2 (<[fq := acc ++ (l1, v) :: new]> G) ∧
                  queues m2 = <[fq := q2]> (queues m)) as Hpost.
        { intros m2 new q2 HO2 Hqs2.
          rewrite insert_insert_eq, <- app_assoc in HO2. split; [done|].
          by rewrite Hqs2, Hqs1, insert_insert_eq. }
        eapply wp_mono;
          [apply (IH fuel m1 _ fq queue (acc ++ [(l1, v)]) (seen ++ [(l, v)])
                    HO1 Hne)| | |].
        -- by rewrite lookup_insert_eq.
        -- by rewrite <- app_assoc.
        -- rewrite length_app. simpl in *. lia.
        -- done.
        -- intros ? m2 (new & q2 & HO2 & Hqs2 & Hle).
           exists ((l1, v) :: new), q2.
           destruct (Hpost m2 new q2 HO2 Hqs2) as [? ?].
           split; [done|]. split; [done|]. simpl. lia.
        -- intros ? m2 (new & q2 & HO2 & Hqs2).
           exists ((l1, v) :: new), q2. by apply Hpost.
      * intros e m1 [-> _]. exists [], q.
        rewrite app_nil_r, insert_id by done.
        split; [by apply Own_set_plan|]. simpl. by rewrite insert_id.
    + apply wp_bind. apply wp_ret. apply wp_bind. apply wp_ret.
      wp_run Hincr.
      eapply wp_mono;
        [apply (IH fuel m G fq queue acc (seen ++ [(l, v)]) HO Hne Hfq)
        | | |]; try done.
      * by rewrite <- app_assoc.
      * simpl in *. lia.
      * intros ? m2 (new & q2 & HO2 & Hqs2 & Hle).
        exists new, q2. split; [done|]. split; [done|]. simpl. lia.
    + apply wp_bind. apply wp_throw. by exists [], q.
Qed.

Lemma filter_user_own T_copy elide fuel m G queue cs
    (predict : T → User.answer bool) :
  elide = true ∨ User.only_bad_alloc T_copy →
  Own m G → G !! queue = Some cs →
  wp (User.filter T_copy elide fuel queue predict) m True
    (λ r m', G !! r = None ∧
             ∃ new q', Own m' (<[r := new]> G) ∧
                       queues m' = <[r := q']> (queues m))
    (λ _ m', Own m' G ∧ queues m' = queues m).
Proof.
  intros Hel HO Hqueue. unfold User.filter, Queue_default.
  pose proof HO as [HR _].
  pose proof (Rep_fresh _ _ HR) as Hfresh.
  pose proof (Rep_not_live _ _ _ HR Hfresh) as Hdead.
  pose proof (Own_alloc_queue m G None HO) as HO0.
  set (fq := fresh (dom (queues m))) in *.
  set (m0 := set_queues _ m) in HO0.
  assert (fq ≠ queue) as Hne by (intros ->; congruence).
  assert (<[fq := []]> G !! queue = Some cs) as Hqueue0
    by by rewrite lookup_insert_ne.
  destruct (Rep_lookup _ _ _ _ HR Hqueue) as (qo & _ & Hwfo).
  apply wfq_length_le in Hwfo. pose proof HO0 as [HR0 _].
  assert (∀ A m3 cells q3 e (Q : A → Mem → Prop),
            Own m3 (<[fq := cells]> G) →
            queues m3 = <[fq := q3]> (queues m) →
            wp (destroy fuel fq ;; throw e : M A) m3 True Q
              (λ _ m', Own m' G ∧ queues m' = queues m)) as Hunwind.
  { intros A m3 cells q3 e Q HO3 Hqs3. apply wp_bind.
    eapply wp_mono;
      [apply (destroy_own fuel m3 _ fq cells HO3)| | |done].
    - by rewrite lookup_insert_eq.
    - done.
    - intros ? m4 (HO4 & Hqs4 & _). apply wp_throw.
      rewrite delete_insert_eq, delete_id in HO4 by done.
      split; [done|].
      by rewrite Hqs4, Hqs3, delete_insert_eq, delete_id. }
  apply wp_bind. eapply wp_eq_ret; [reflexivity|]. fold fq m0.
  apply wp_bind. apply wp_catch. apply wp_bind.
  eapply wp_eq_ret; [apply (begin_spec _ _ _ _ HR0 Hqueue0)|].
  apply wp_bind.
  eapply wp_mono;
    [apply (filter_loop_user_own T_copy predict cs fuel m0 _ fq queue [] []
              HO0 Hne)|done| |].
  - by rewrite lookup_insert_eq.
  - done.
  - simpl. lia.
  - intros ? m1 (new & q1 & HO1 & Hqs1 & Hle). cbv beta.
    simpl app in HO1. rewrite insert_insert_eq in HO1.
    assert (queues m1 = <[fq := q1]> (queues m)) as Hqs1'.
    { rewrite Hqs1. unfold m0. simpl. by rewrite insert_insert_eq. }
    destruct elide.
    + apply wp_ret. apply wp_bind. apply wp_ret. apply wp_ret.
      split; [done|]. by exists new, q1.
    + destruct Hel as [?|Hba]; [done|].
      eapply wp_mono;
        [apply (Queue_copy_user_own T_copy fuel m1 _ fq new HO1)| | |].
      * by rewrite lookup_insert_eq.
      * done.
      * intros r m2 (Hr & new2 & q2 & HO2 & Hqs2 & _). cbv beta.
        assert (r ≠ fq) as Hrf.
        { intros ->. by rewrite lookup_insert_eq in Hr. }
        rewrite lookup_insert_ne in Hr by done.
        apply wp_bind.
        eapply wp_mono;
          [apply (destroy_own fuel m2 _ fq new HO2)| | |done].
        -- by rewrite lookup_insert_ne, lookup_insert_eq.
        -- done.
        -- intros ? m3 (HO3 & Hqs3 & _). apply wp_ret.
           split; [done|]. exists new2, q2. split.
           ++ rewrite delete_insert_ne, delete_insert_eq, delete_id in HO3
                by done. done.
           ++ rewrite Hqs3, Hqs2, Hqs1'.
              by rewrite delete_insert_ne, delete_insert_eq, delete_id
                by done.
      * intros e m2 Hleft. cbv beta.
        destruct (copy_left_clean _ _ _ _ _ _ Hba Hleft) as (_ & HO2 & Hqs2).
        apply (Hunwind _ m2 new q1); [done|congruence].
  - intros e m1 (new & q1 & HO1 & Hqs1). cbv beta.
    simpl app in HO1. rewrite insert_insert_eq in HO1.
    apply (Hunwind _ m1 new q1); [done|].
    rewrite Hqs1. unfold m0. simpl. by rewrite insert_insert_eq.
Qed.

Lemma pushBack_user_own_ends T_copy m G this cs v m' :
  Own m G → G !! this = Some cs →
  ends_in (User.pushBack T_copy this v m) m' →
  ∃ cs' q', Own m' (<[this := cs']> G) ∧
            queues m' = <[this := q']> (queues m).
Proof.
  intros HO Hthis Hend. pose proof HO as [HR _].
  destruct (Rep_lookup _ _ _ _ HR Hthis) as (q & Hq & _).
  assert (Own (set_plan (tail (plan m)) m) (<[this := cs]> G) ∧
          queues (set_plan (tail (plan m)) m) = <[this := q]> (queues m))
    as Hsame.
  { rewrite insert_id by done. split; [by apply Own_set_plan|].
    simpl. by rewrite insert_id. }
  rewrite pushBack_user_eq in Hend.
  destruct (plan m) as [|[] p] eqn:Hp; simpl in *.
  - destruct (T_copy v); simpl in Hend; [subst m'; by exists cs, q|].
    by apply (pushBack_own_ends m G this cs v).
  - destruct (T_copy v); simpl in Hend; [subst m'; by exists cs, q|].
    by apply (pushBack_own_ends m G this cs v).
  - subst m'. by exists cs, q.
Qed.

(** Exceptions of user code do not break the ownership of the nodes, as
    long as the copy constructor of [T] throws nothing but
    [std::bad_alloc] while a queue is being copied. *)
Lemma reachable_user_Own m : User.reachable m → ∃ G, Own m G.
Proof.
  induction 1 as [p|m m' _ [G HO] Hend
                 |m T_copy fuel other m' _ [G HO] Ho Hba Hend
                 |m T_copy fuel this other m' _ [G HO] Ht Ho Hba Hend
                 |m T_copy this v m' _ [G HO] Ht Hend
                 |m this m' _ [G HO] Ht Hend
                 |m fuel this m' _ [G HO] Ht Hend
                 |m T_copy elide fuel queue predict m' _ [G HO] Hq Hel Hend
                 |m T_copy fuel queue f m' _ [G HO] Hq Hba Hend];
    try pose proof HO as [HR _].
  - exists ∅. apply Own_init.
  - simpl in Hend. subst m'. eexists. by apply (Own_alloc_queue m G None).
  - destruct (Rep_live _ _ _ HR Ho) as [co Hco].
    apply (wp_ends_in _ _ _ _ _ (λ m', ∃ G, Own m' G) _
             (Queue_copy_user_own T_copy fuel m G other co HO Hco) Hend).
    + intros c m1 (_ & new & q' & HO1 & _). by eexists.
    + intros e m1 Hleft.
      destruct (copy_left_clean _ _ _ _ _ _ Hba Hleft) as (_ & ? & _).
      by eexists.
  - destruct (Rep_live _ _ _ HR Ho) as [co Hco].
    destruct (Rep_live _ _ _ HR Ht) as [ct Hct].
    apply (wp_ends_in _ _ _ _ _ (λ m', ∃ G, Own m' G) _
             (operator_assign_user_own T_copy fuel m G this other ct co
                HO Hct Hco) Hend).
    + intros c m1 (new & q' & HO1 & _). by eexists.
    + intros e m1 (_ & _ & Hleft).
      destruct (copy_left_clean _ _ _ _ _ _ Hba Hleft) as (_ & ? & _).
      by eexists.
  - destruct (Rep_live _ _ _ HR Ht) as [ct Hct].
    destruct (pushBack_user_own_ends T_copy m G this ct v m' HO Hct Hend)
      as (cs' & q' & HO' & _).
    by eexists.
  - destruct (Rep_live _ _ _ HR Ht) as [ct Hct].
    destruct (popFront_own_ends m G this ct m' HO Hct Hend)
      as (cs' & q' & HO' & _).
    by eexists.
  - destruct (Rep_live _ _ _ HR Ht) as [ct Hct].
    apply (wp_ends_in _ _ _ _ _ (λ m', ∃ G, Own m' G) _
             (destroy_own fuel m G this ct HO Hct) Hend).
    + intros c m1 (HO1 & _). by eexists.
    + done.
  - destruct (Rep_live _ _ _ HR Hq) as [cq Hcq].
    apply (wp_ends_in _ _ _ _ _ (λ m', ∃ G, Own m' G) _
             (filter_user_own T_copy elide fuel m G queue cq predict
                Hel HO Hcq) Hend).
    + intros c m1 (_ & new & q' & HO1 & _). by eexists.
    + intros e m1 (HO1 & _). by eexists.
  - destruct (Rep_live _ _ _ HR Hq) as [cq Hcq].
    apply (wp_ends_in _ _ _ _ _ (λ m', ∃ G, Own m' G) _
             (transform_user_own T_copy fuel m G queue cq f Hba HO Hcq)
             Hend).
    + intros c m1 (new & q' & HO1 & _). by eexists.
    + intros e m1 (HO1 & _). by eexists.
Qed.

(** ** User code that does not throw

    With a copy constructor, a predicate and a callable that never
    throw, the operations are the ones of the first part. *)

Lemma bind_ext {A B} (c c' : M A) (k k' : A → M B) (m : Mem) :
  c m = c' m → (∀ a m', k a m' = k' a m') →
  (c ≫= k) m = (c' ≫= k') m.
Proof.
  intros Hc Hk. unfold mbind, M_bind, bind. rewrite Hc.
  destruct (c' m); auto.
Qed.

Lemma catch_ext {A} (c c' : M A) (h h' : exn → M A) (m : Mem) :
  c m = c' m → (∀ e m', h e m' = h' e m') → catch c h m = catch c' h' m.
Proof.
  intros Hc Hh. unfold catch. rewrite Hc. destruct (c' m); auto.
Qed.

Lemma copy_loop_user_total this other : ∀ fuel it (m : Mem),
  User.copy_loop (λ _, None) fuel this other it m
  = copy_loop fuel this other it m.
Proof.
  induction fuel as [|fuel IH]; intros it m; [done|].
  simpl User.copy_loop. simpl copy_loop.
  destruct (operator_ne it (end_ other)); [|done].
  apply bind_ext; [done|]. intros r m1.
  apply bind_ext; [done|]. intros v m2.
  apply bind_ext; [reflexivity|]. intros ? m3.
  apply bind_ext; [done|]. intros it' m4. apply IH.
Qed.

Lemma Queue_copy_user_total fuel other (m : Mem) :
  User.Queue_copy (λ _, None) fuel other m = Queue_copy fuel other m.
Proof.
  unfold User.Queue_copy, Queue_copy.
  apply bind_ext; [done|]. intros this m0.
  apply bind_ext; [|done]. apply catch_ext; [|done].
  apply bind_ext; [done|]. intros it m1. apply copy_loop_user_total.
Qed.

Lemma operator_assign_user_total fuel this other (m : Mem) :
  User.operator_assign (λ _, None) fuel this other m
  = operator_assign fuel this other m.
Proof.
  unfold User.operator_assign, operator_assign.
  destruct (decide (this = other)); [done|].
  apply bind_ext; [apply Queue_copy_user_total|done].
Qed.

Lemma filter_loop_user_total fq (predict : T → bool) e :
  ∀ fuel it (m : Mem),
  User.filter_loop (λ _, None) fuel fq (λ v, User.Returns (predict v)) it e m
  = filter_loop fuel fq predict it e m.
Proof.
  induction fuel as [|fuel IH]; intros it m; [done|].
  simpl User.filter_loop. simpl filter_loop.
  destruct (operator_ne it e); [|done].
  apply bind_ext; [done|]. intros r m1.
  apply bind_ext; [done|]. intros v m2.
  change ((b ← User.call_user (User.Returns (predict v));
           (if b : bool then User.pushBack (λ _, None) fq v else ret ()) ;;
           it' ← operator_pre_incr it;
           User.filter_loop (λ _, None) fuel fq
             (λ v, User.Returns (predict v)) it' e) m2)
    with (((if predict v then User.pushBack (λ _, None) fq v else ret ()) ;;
           it' ← operator_pre_incr it;
           User.filter_loop (λ _, None) fuel fq
             (λ v, User.Returns (predict v)) it' e) m2).
  apply bind_ext; [by destruct (predict v)|]. intros ? m3.
  apply bind_ext; [done|]. intros it' m4. apply IH.
Qed.

Lemma filter_user_total fuel queue (predict : T → bool) (m : Mem) :
  User.filter (λ _, None) true fuel queue (λ v, User.Returns (predict v)) m
  = filter fuel queue predict m.
Proof.
  unfold User.filter, filter.
  apply bind_ext; [done|]. intros fq m0.
  change ((result ← catch
             (it ← begin queue;
              User.filter_loop (λ _, None) fuel fq
                (λ v, User.Returns (predict v)) it (end_ queue) ;;
              ret fq)
             (λ e, destroy fuel fq ;; throw e);
           ret () ;; ret result) m0
          = (catch
               (it ← begin queue;
                filter_loop fuel fq predict it (end_ queue))
               (λ e, destroy fuel fq ;; throw e) ;;
             ret fq) m0).
  unfold mbind, M_bind, bind, catch.
  destruct (begin queue m0) as [it m1|e m1| |]; try done.
  - rewrite filter_loop_user_total.
    destruct (filter_loop fuel fq predict it (end_ queue) m1)
      as [? m2|e m2| |]; try done.
    by destruct (destroy fuel fq m2).
  - by destruct (destroy fuel fq m1).
Qed.

Lemma transform_loop_user_total (f : T → T) e : ∀ fuel it (m : Mem),
  User.transform_loop fuel (λ v, (f v, None)) it e m
  = transform_loop fuel f it e m.
Proof.
  induction fuel as [|fuel IH]; intros it m; [done|].
  simpl User.transform_loop. simpl transform_loop.
  destruct (operator_ne it e); [|done].
  apply bind_ext; [done|]. intros r m1.
  apply bind_ext; [done|]. intros v m2.
  apply bind_ext; [done|]. intros ? m3.
  change ((ret () ;;
           it' ← operator_pre_incr it;
           User.transform_loop fuel (λ v, (f v, None)) it' e) m3
          = (it' ← operator_pre_incr it; transform_loop fuel f it' e) m3).
  change ((it' ← operator_pre_incr it;
           User.transform_loop fuel (λ v, (f v, None)) it' e) m3
          = (it' ← operator_pre_incr it; transform_loop fuel f it' e) m3).
  apply bind_ext; [done|]. intros it' m4. apply IH.
Qed.

Lemma transform_user_total fuel queue (f : T → T) (m : Mem) :
  User.transform (λ _, None) fuel queue (λ v, (f v, None)) m
  = transform fuel queue f m.
Proof.
  unfold User.transform, transform.
  apply bind_ext; [apply Queue_copy_user_total|]. intros tq m1.
  unfold with_local. apply bind_ext; [|done]. apply catch_ext; [|done].
  apply bind_ext; [done|]. intros it m2.
  apply bind_ext; [apply transform_loop_user_total|]. intros ? m3.
  apply bind_ext; [apply operator_assign_user_total|done].
Qed.

Lemma only_bad_alloc_total : User.only_bad_alloc (λ _ : T, None).
Proof. by intros v e. Qed.

(** Every memory reached without an exception of user code is reached
    with user code that may throw. *)
Lemma reachable_user m : reachable m → User.reachable m.
Proof.
  induction 1 as [p|m m' _ IH Hend|m fuel other m' _ IH Ho Hend
                 |m fuel this other m' _ IH Ht Ho Hend
                 |m this v m' _ IH Ht Hend|m this m' _ IH Ht Hend
                 |m fuel this m' _ IH Ht Hend
                 |m fuel queue predict m' _ IH Hq Hend
                 |m fuel queue f m' _ IH Hq Hend].
  - apply User.reach_init.
  - by apply (User.reach_default m).
  - apply (User.reach_copy m (λ _, None) fuel other);
      [done|done|apply only_bad_alloc_total|].
    by rewrite Queue_copy_user_total.
  - apply (User.reach_assign m (λ _, None) fuel this other);
      [done|done|done|apply only_bad_alloc_total|].
    by rewrite operator_assign_user_total.
  - by apply (User.reach_pushBack m (λ _, None) this v).
  - by apply (User.reach_popFront m this).
  - by apply (User.reach_destroy m fuel this).
  - apply (User.reach_filter m (λ _, None) true fuel queue
             (λ v, User.Returns (predict v))); [done|done|by left|].
    by rewrite filter_user_total.
  - apply (User.reach_transform m (λ _, None) fuel queue (λ v, (f v, None)));
      [done|done|apply only_bad_alloc_total|].
    by rewrite transform_user_total.
Qed.

(** ** Further properties: exceptions of user code *)

(** X1 (no leak, no sharing).  In every memory reachable through the
    public operations with user code that throws, each allocated node
    lies on the chain that starts at the front of exactly one live
    queue.  The predicate of [filter] and the callable of [transform]
    may throw anything, and so may the copy constructor of [T] inside
    [pushBack] and [filter]; while a queue is copied (copy constructor,
    [operator=], [transform], a [filter] result that is not elided) the
    copy constructor of [T] throws nothing but [std::bad_alloc]. *)
Theorem nodes_owned_by_one_queue (m : Mem) (l : loc) :
  User.reachable m → is_Some (nodes m !! l) →
  ∃ r q cs, queues m !! r = Some q ∧ chain (nodes m) (m_front q) cs ∧
            l ∈ cs.*1 ∧
            ∀ r' q' cs', queues m !! r' = Some q' →
                         chain (nodes m) (m_front q') cs' →
                         l ∈ cs'.*1 → r' = r.
Proof.
  intros [G [HR HT]]%reachable_user_Own Hl.
  destruct (HT l Hl) as (r & cs & Hr & Hlr).
  destruct (Rep_lookup _ _ _ _ HR Hr) as (q & Hq & Hc & _).
  exists r, q, cs. repeat split; try done.
  intros r' q' cs' Hq' Hc' Hlr'.
  destruct (Rep_lookup_inv _ _ _ _ HR Hq') as (cs2 & Hr' & Hc2 & _).
  rewrite (chain_unique _ _ _ _ Hc' Hc2) in Hlr'.
  destruct (decide (r' = r)) as [->|Hne]; [done|].
  destruct HR as (_ & _ & Hdis).
  by destruct (Hdis r' r cs2 cs l Hne Hr' Hr Hlr').
Qed.

(** X9 ([pushBack], strong exception guarantee).  On a queue with
    elements [vs] and a count below [INT_MAX], [pushBack] ends in one of
    two ways.  It returns, and then the allocator served the node, the
    copies of the value did not throw, and the queue has the elements
    [vs] followed by the value.  Or it throws, and then nodes and queue
    objects are exactly what they were; the exception is
    [std::bad_alloc] when the allocator refused the node, and otherwise
    the exception thrown by the copy constructor of [T]. *)
Theorem pushBack_strong_guarantee (T_copy : T → option exn) (m : Mem)
    (this : qref) (vs : list T) (v : T) :
  holds m this vs → Z.of_nat (length vs) < INT_MAX →
  (∃ m', User.pushBack T_copy this v m = Ret () m' ∧
         head (plan m) ≠ Some false ∧ T_copy v = None ∧
         observes m' this (vs ++ [v])) ∨
  (∃ e m', User.pushBack T_copy this v m = Throw e m' ∧
           nodes m' = nodes m ∧ queues m' = queues m ∧
           (head (plan m) = Some false ∧ e = bad_alloc ∨
            head (plan m) ≠ Some false ∧ T_copy v = Some e)).
Proof.
  intros (G & cs & HR & Hq & <-) Hlt. rewrite length_fmap in Hlt.
  pose proof (pushBack_spec m G this cs v HR Hq Hlt) as Hbase.
  unfold wp in Hbase. rewrite pushBack_user_eq.
  assert (head (plan m) ≠ Some false → T_copy v = None →
          ∃ m', pushBack this v m = Ret () m' ∧
                observes m' this (cs.*2 ++ [v])) as Hret.
  { intros Hp _.
    destruct (pushBack this v m) as [[] m'|e m'| |]; try done.
    - destruct Hbase as (_ & _ & l & HR'). exists m'. split; [done|].
      apply holds_observes.
      replace (cs.*2 ++ [v]) with ((cs ++ [(l, v)]).*2)
        by by rewrite fmap_app.
      apply (holds_intro m' _ this _ HR'). by rewrite lookup_insert_eq.
    - by destruct Hbase as (_ & ? & _). }
  destruct (plan m) as [|[] p] eqn:Hp; simpl.
  - destruct (T_copy v) as [e|] eqn:Hcopy.
    + right. exists e. eexists. split; [done|]. split; [done|].
      split; [done|]. by right.
    + left. destruct Hret as (m' & Hrun & Hobs); [done..|].
      exists m'. by rewrite Hrun.
  - destruct (T_copy v) as [e|] eqn:Hcopy.
    + right. exists e. eexists. split; [done|]. split; [done|].
      split; [done|]. by right.
    + left. destruct Hret as (m' & Hrun & Hobs); [done..|].
      exists m'. by rewrite Hrun.
  - right. exists bad_alloc. eexists. split; [done|]. split; [done|].
    split; [done|]. by left.
Qed.

(** What a failed copy leaves of the memory it started in. *)
Lemma copy_left_kept T_copy m G cs e m' :
  Own m G → User.copy_left T_copy m G cs e m' →
  queues m' = queues m ∧
  (∀ l, is_Some (nodes m !! l) → nodes m' !! l = nodes m !! l) ∧
  (e = bad_alloc → nodes m' = nodes m).
Proof.
  intros HO (Hqs & new & v & post & _ & _ & Hclean & Hleak).
  split; [done|].
  assert (e = bad_alloc ∨ e ≠ bad_alloc) as [->|Hnb]
    by (destruct e; first [by left|by right]).
  - pose proof (Own_nodes_eq m m' G HO (Hclean eq_refl)) as Hn.
    split; [|done]. intros l _. by rewrite Hn.
  - destruct (Hleak Hnb) as (this & q1 & m1 & Hthis & [HR1 _] & _ & ->).
    split; [|done]. intros l Hl. simpl.
    apply (kept_nodes m m1 G this new l HO HR1 Hl).
    intros ct Hct. congruence.
Qed.


(** X5 (assignment and exceptions).  In a reachable memory, whatever
    leaves [operator=] by an exception comes from the copy constructor
    of its temporary: the two queues are different objects, the copy
    constructor run on [other] in the same memory throws the same
    exception and leaves the same memory.  So the queue objects and
    every node allocated before are exactly what they were, the node
    store as a whole is what it was when the exception is
    [std::bad_alloc], and otherwise the nodes of the abandoned temporary
    stay allocated as X4 says. *)
Theorem assignment_exceptions (T_copy : T → option exn) (m : Mem)
    (this other : qref) (fuel : nat) (e : exn) (m' : Mem) :
  User.reachable m →
  is_Some (queues m !! this) → is_Some (queues m !! other) →
  User.operator_assign T_copy fuel this other m = Throw e m' →
  this ≠ other ∧
  User.Queue_copy T_copy fuel other m = Throw e m' ∧
  queues m' = queues m ∧
  (∀ l, is_Some (nodes m !! l) → nodes m' !! l = nodes m !! l) ∧
  (e = bad_alloc → nodes m' = nodes m).
Proof.
  intros [G HO]%reachable_user_Own Ht Ho Hrun. pose proof HO as [HR _].
  destruct (Rep_live _ _ _ HR Ht) as [ct Hct].
  destruct (Rep_live _ _ _ HR Ho) as [co Hco].
  pose proof (operator_assign_user_own T_copy fuel m G this other ct co
                HO Hct Hco) as Hwp.
  unfold wp in Hwp. rewrite Hrun in Hwp.
  destruct Hwp as (Hne & Hcopy & Hleft).
  split; [done|]. split; [done|].
  by apply (copy_left_kept T_copy m G co).
Qed.

(** X6 ([filter] and exceptions).  In a reachable memory, whatever
    exception leaves [filter] (from the allocator, from the predicate
    or from the copy constructor of [T] in [pushBack]), the local
    result has been destroyed on the way out: the node store and the
    queue objects are exactly what they were before the call.  This
    holds when the returned object is elided, and also when it is
    copy-constructed provided the copy constructor of [T] throws
    nothing but [std::bad_alloc]. *)
Theorem filter_exceptions_restore_memory (T_copy : T → option exn)
    (elide : bool) (m : Mem) (queue : qref)
    (predict : T → User.answer bool) (fuel : nat) (e : exn) (m' : Mem) :
  User.reachable m → is_Some (queues m !! queue) →
  elide = true ∨ User.only_bad_alloc T_copy →
  User.filter T_copy elide fuel queue predict m = Throw e m' →
  nodes m' = nodes m ∧ queues m' = queues m.
Proof.
  intros [G HO]%reachable_user_Own Hq Hel Hrun. pose proof HO as [HR _].
  destruct (Rep_live _ _ _ HR Hq) as [cq Hcq].
  pose proof (filter_user_own T_copy elide fuel m G queue cq predict
                Hel HO Hcq) as Hwp.
  unfold wp in Hwp. rewrite Hrun in Hwp. destruct Hwp as [HO' Hqs].
  split; [|done]. by apply (Own_nodes_eq m m' G).
Qed.

(** X7 ([transform] and exceptions).  In a reachable memory, when the
    copy constructor of [T] throws nothing but [std::bad_alloc],
    whatever exception leaves [transform] (from the allocator or from
    the callable, which may have changed elements of the temporary
    before it threw), the temporary has been destroyed on the way out:
    the node store and the queue objects are exactly what they were
    before the call, so the queue keeps its elements untransformed. *)
Theorem transform_exceptions_restore_memory (T_copy : T → option exn)
    (m : Mem) (queue : qref) (transformer : T → T * option exn)
    (fuel : nat) (e : exn) (m' : Mem) :
  User.reachable m → is_Some (queues m !! queue) →
  User.only_bad_alloc T_copy →
  User.transform T_copy fuel queue transformer m = Throw e m' →
  nodes m' = nodes m ∧ queues m' = queues m.
Proof.
  intros [G HO]%reachable_user_Own Hq Hba Hrun. pose proof HO as [HR _].
  destruct (Rep_live _ _ _ HR Hq) as [cq Hcq].
  pose proof (transform_user_own T_copy fuel m G queue cq transformer
                Hba HO Hcq) as Hwp.
  unfold wp in Hwp. rewrite Hrun in Hwp. destruct Hwp as [HO' Hqs].
  split; [|done]. by apply (Own_nodes_eq m m' G).
Qed.

End Logic.

Ltac ex_holds :=
  apply (wf_observes_holds _ _ _ 10);
  [apply reachable_Rep, run_calls_reachable, reach_init
  |vm_compute; reflexivity].

Lemma ex_empty_holds : holds ex_empty 1 [].
Proof. ex_holds. Qed.

Lemma ex_one_reachable : reachable ex_one.
Proof. apply run_calls_reachable, reach_init. Qed.

Lemma ex_popped_reachable : reachable ex_popped.
Proof. apply run_calls_reachable, reach_init. Qed.

Lemma ex_123_holds : holds ex_123 1 [1; 2; 3].
Proof. ex_holds. Qed.

Lemma ex_two_holds_1 : holds ex_two 1 [1; 2; 3].
Proof. ex_holds. Qed.

Lemma ex_two_holds_2 : holds ex_two 2 [7].
Proof. ex_holds. Qed.

(** The end-to-end scenario of the specification: push 10, 20, 30;
    [front()] is 10; after [popFront()], [front()] is 20 and [size()]
    is 2; filtering with [x > 20] gives the one-element queue 30;
    transforming the two-element queue with [x + 1] gives 21, 31. *)
Example end_to_end_scenario :
  (q ← Queue_default;
   push_all q [10; 20; 30];;
   r ← front q; f1 ← read_ref r;
   popFront q;;
   r ← front q; f2 ← read_ref r;
   n ← size q;
   flt ← filter 10 q (λ x, 20 <? x);
   kept ← elements 10 flt;
   transform 10 q (λ x, x + 1);;
   after ← elements 10 q;
   mret (f1, f2, n, kept, after))
    (init_mem [])
  = Ret (10, 20, 2, [30], [21; 31])
      (run_calls [CDefault; CPush 1 10; CPush 1 20; CPush 1 30; CPop 1;
                  CFilter 10 1 (λ x, 20 <? x);
                  CTransform 10 1 (λ x, x + 1)] (init_mem [])).
Proof. vm_compute. reflexivity. Qed.

(** * The properties on concrete memories *)

Lemma fifo_discipline_witness :
  ∃ m', push_all 1 [10; 20; 30] ex_empty = Ret () m' ∧
        observes m' 1 [10; 20; 30] ∧
        ∀ k, (k ≤ 3)%nat →
          ∃ m'', pop_n k 1 m' = Ret (take k [10; 20; 30]) m'' ∧
                 size 1 m'' = Ret (3 - Z.of_nat k) m'' ∧
                 observes m'' 1 (drop k [10; 20; 30]).
Proof.
  apply (fifo_discipline ex_empty 1 [10; 20; 30]).
  - exact ex_empty_holds.
  - vm_compute. discriminate.
  - reflexivity.
Defined.

(** C2 as worded fails: after [popFront] removed the only element of
    queue 1, the count is 0 and front is null, but rear still holds the
    address of the released node. *)
Lemma rear_invariant_counterexample :
  reachable ex_popped ∧
  size 1 ex_one = Ret 1 ex_one ∧
  popFront 1 ex_one = Ret () ex_popped ∧
  queues ex_popped !! 1%positive = Some (mkQueue None (Some 1%positive) 0) ∧
  nodes ex_popped !! 1%positive = None ∧
  ¬ claimed_invariant (mkQueue None (Some 1%positive) 0).
Proof.
  split; [exact ex_popped_reachable|].
  split; [vm_compute; reflexivity|].
  split; [vm_compute; reflexivity|].
  split; [vm_compute; reflexivity|].
  split; [vm_compute; reflexivity|].
  intros [_ [Hrear _]]. simpl in Hrear. by specialize (Hrear eq_refl).
Defined.

Lemma size_front_invariant_witness :
  (1 = 0 ↔ Some 1%positive = @None positive) ∧
  (1 ≠ 0 →
   ∃ cs l n, chain (nodes ex_one) (Some 1%positive) cs ∧
             1 = Z.of_nat (length cs) ∧
             last cs.*1 = Some l ∧
             Some 1%positive = Some l ∧ nodes ex_one !! l = Some n ∧
             next n = None) ∧
  (Some 1%positive = @None positive → 1 = 0) ∧
  (1 = 1 →
   ∃ m' q', popFront 1 ex_one = Ret () m' ∧ queues m' !! 1%positive = Some q' ∧
            m_size q' = 0 ∧ m_front q' = None).
Proof.
  apply (size_front_invariant ex_one 1
           (mkQueue (Some 1%positive) (Some 1%positive) 1)).
  - exact ex_one_reachable.
  - vm_compute. reflexivity.
Defined.

Lemma copy_deep_independence_witness :
  ∃ c m1, Queue_copy 10 1 ex_123 = Ret c m1 ∧ c ≠ 1%positive ∧
          independent_copies m1 c 1 [1; 2; 3].
Proof.
  destruct (copy_deep_independence ex_123 1 [1; 2; 3] 10)
    as (Hcopy & Hret & _).
  - exact ex_123_holds.
  - simpl. lia.
  - destruct (Hret eq_refl) as (c & m1 & Hrun).
    exists c, m1. split; [exact Hrun|]. exact (Hcopy c m1 Hrun).
Defined.

Lemma empty_queue_misuse_witness :
  (front 1 ex_empty = Throw EmptyQueue ex_empty ∧
   front_const 1 ex_empty = Throw EmptyQueue ex_empty ∧
   popFront 1 ex_empty = Throw EmptyQueue ex_empty) ∧
  (∀ m', front 1 ex_123 ≠ Throw EmptyQueue m' ∧
         front_const 1 ex_123 ≠ Throw EmptyQueue m' ∧
         popFront 1 ex_123 ≠ Throw EmptyQueue m').
Proof.
  split.
  - destruct (empty_queue_misuse ex_empty 1 0) as [Hempty _].
    + vm_compute. reflexivity.
    + exact (Hempty eq_refl).
  - destruct (empty_queue_misuse ex_123 1 3) as [_ Hfull].
    + vm_compute. reflexivity.
    + apply Hfull. discriminate.
Defined.

Lemma assignment_atomicity_witness :
  ∃ m', operator_assign 10 2 1 ex_two = Throw bad_alloc m' ∧
        observes m' 2 [7] ∧ observes m' 1 [1; 2; 3].
Proof.
  destruct (assignment_atomicity ex_two 2 1 [7] [1; 2; 3] 10)
    as (_ & Hfail & _).
  - exact ex_two_holds_2.
  - exact ex_two_holds_1.
  - discriminate.
  - simpl. lia.
  - simpl. lia.
  - apply Hfail. vm_compute. reflexivity.
Defined.

Lemma filter_correct_witness :
  ∃ r m', filter 10 1 (λ x, 1 <? x) ex_123 = Ret r m' ∧ r ≠ 1%positive ∧
          observes m' r [2; 3] ∧ observes m' 1 [1; 2; 3].
Proof.
  destruct (filter_correct ex_123 1 [1; 2; 3] (λ x, 1 <? x) 10)
    as (Hret & _).
  - exact ex_123_holds.
  - simpl. lia.
  - apply Hret. reflexivity.
Defined.

Lemma transform_correct_witness :
  ∃ m', transform 10 1 (λ x, 2 * x) ex_123 = Ret () m' ∧
        observes m' 1 [2; 4; 6] ∧
        size 1 m' = Ret 3 m'.
Proof.
  apply (transform_correct ex_123 1 [1; 2; 3] (λ x, 2 * x) 10).
  - exact ex_123_holds.
  - simpl. lia.
  - reflexivity.
Defined.

Lemma iterator_sentinel_misuse_witness :
  (operator_star (end_ 1) ex_123 = Throw InvalidOperation ex_123 ∧
   operator_pre_incr (end_ 1) ex_123 = Throw InvalidOperation ex_123 ∧
   operator_post_incr (end_ 1) ex_123 = Throw InvalidOperation ex_123) ∧
  (∀ m', operator_star (mkIter 1 (Some 1%positive)) ex_123
           ≠ Throw InvalidOperation m' ∧
         operator_pre_incr (mkIter 1 (Some 1%positive)) ex_123
           ≠ Throw InvalidOperation m' ∧
         operator_post_incr (mkIter 1 (Some 1%positive)) ex_123
           ≠ Throw InvalidOperation m').
Proof.
  split.
  - destruct (iterator_sentinel_misuse (end_ 1) 1 ex_123) as [Hend _].
    exact (Hend eq_refl).
  - destruct (iterator_sentinel_misuse (mkIter 1 (Some 1%positive)) 1 ex_123)
      as [_ Hnode].
    exact (Hnode eq_refl).
Defined.

(** * Further properties on concrete memories *)

Lemma ex_123_reachable : reachable ex_123.
Proof. apply run_calls_reachable, reach_init. Qed.

Lemma ex_123_low_reachable : reachable ex_123_low.
Proof. apply run_calls_reachable, reach_init. Qed.

Lemma ex_two_reachable : reachable ex_two.
Proof. apply run_calls_reachable, reach_init. Qed.

Ltac ex_chain :=
  cbn [chain fst snd];
  repeat (split; [reflexivity|]; eexists; split; [vm_compute; reflexivity|]);
  reflexivity.

Lemma ex_123_chain :
  chain (nodes ex_123) (Some 1%positive)
    [(1%positive, 1); (2%positive, 2); (3%positive, 3)].
Proof. ex_chain. Qed.

Lemma ex_two_chain_1 :
  chain (nodes ex_two) (Some 1%positive)
    [(1%positive, 1); (2%positive, 2); (3%positive, 3)].
Proof. ex_chain. Qed.

Lemma destructor_releases_nodes_witness :
  ∃ m', Queue_dtor 10 1 ex_123 = Ret () m' ∧
        observes m' 1 [] ∧
        (∀ l, nodes m' !! l =
              if decide (l ∈ [1; 2; 3]%positive) then None
              else nodes ex_123 !! l) ∧
        (∀ r, r ≠ 1%positive → queues m' !! r = queues ex_123 !! r) ∧
        plan m' = plan ex_123.
Proof.
  apply (destructor_releases_nodes ex_123 1
           (mkQueue (Some 1%positive) (Some 3%positive) 3)
           [(1%positive, 1); (2%positive, 2); (3%positive, 3)] 10).
  - exact ex_123_reachable.
  - vm_compute. reflexivity.
  - exact ex_123_chain.
  - simpl. lia.
Defined.

Lemma popFront_releases_front_node_witness :
  ∃ l n m',
    Some 1%positive = Some l ∧ nodes ex_123 !! l = Some n ∧
    popFront 1 ex_123 = Ret () m' ∧
    nodes m' = delete l (nodes ex_123) ∧
    queues m' =
      <[1%positive := mkQueue (next n) (Some 3%positive) (3 - 1)]>
        (queues ex_123) ∧
    plan m' = plan ex_123.
Proof.
  apply (popFront_releases_front_node ex_123 1
           (mkQueue (Some 1%positive) (Some 3%positive) 3)).
  - exact ex_123_reachable.
  - vm_compute. reflexivity.
  - discriminate.
Defined.

(** Here the first copy of [transform] succeeds and the allocation
    failure hits the copy made by the assignment back. *)
Lemma calls_leave_other_queues_witness :
  observes (run_calls [CPop 1] ex_two) 2 [7] ∧
  observes (run_calls [CTransform 10 1 (λ x, 2 * x)] ex_two) 2 [7].
Proof.
  split.
  - apply (calls_leave_other_queues (CPop 1) ex_two _ 2 [7]).
    + exact ex_two_holds_2.
    + vm_compute. reflexivity.
    + discriminate.
  - apply (calls_leave_other_queues (CTransform 10 1 (λ x, 2 * x))
             ex_two _ 2 [7]).
    + exact ex_two_holds_2.
    + vm_compute. reflexivity.
    + discriminate.
Defined.

Lemma iterator_traversal_witness :
  ∃ it it', (it0 ← begin 1; advance 1 it0) ex_123 = Ret it ex_123 ∧
            operator_ne it (end_ 1) = true ∧
            (r ← operator_star it; read_ref r) ex_123 = Ret 2 ex_123 ∧
            operator_pre_incr it ex_123 = Ret it' ex_123 ∧
            operator_post_incr it ex_123 = Ret (it, it') ex_123 ∧
            (it0 ← begin 1; advance 2 it0) ex_123 = Ret it' ex_123.
Proof.
  destruct (iterator_traversal ex_123 1 [1; 2; 3] 1 ex_123_holds)
    as (it & Hadv & Hne & _ & Hat); [simpl; lia|].
  destruct (Hat 2 eq_refl) as (it' & Hderef & Hpre & Hpost & Hadv').
  exists it, it'. repeat split; assumption.
Defined.

Lemma write_through_iterator_witness :
  ∃ it r m', (it0 ← begin 1; advance 1 it0) ex_123 = Ret it ex_123 ∧
             operator_star it ex_123 = Ret r ex_123 ∧
             write_ref r 9 ex_123 = Ret () m' ∧
             observes m' 1 [1; 9; 3] ∧
             ∀ q' ws, q' ≠ 1%positive → holds ex_123 q' ws →
                      observes m' q' ws.
Proof.
  apply (write_through_iterator ex_123 1 [1; 2; 3] 1 9).
  - exact ex_123_holds.
  - simpl. lia.
Defined.

Lemma front_refers_to_first_witness :
  ∃ r m', front 1 ex_123 = Ret r ex_123 ∧
          front_const 1 ex_123 = Ret r ex_123 ∧
          (it ← begin 1; operator_star it) ex_123 = Ret r ex_123 ∧
          read_ref r ex_123 = Ret 1 ex_123 ∧
          write_ref r 9 ex_123 = Ret () m' ∧
          observes m' 1 [9; 2; 3] ∧
          ∀ q' ws, q' ≠ 1%positive → holds ex_123 q' ws →
                   observes m' q' ws.
Proof.
  apply (front_refers_to_first ex_123 1 1 [2; 3] 9). exact ex_123_holds.
Defined.

Lemma misuse_exceptions_only_witness :
  size 1 ex_empty = Ret 0 ex_empty ∧
  operator_ne (end_ 1) (end_ 1) = false.
Proof.
  destruct (misuse_exceptions_only 1 (end_ 1) ex_empty EmptyQueue ex_empty)
    as (Hq & _).
  destruct (misuse_exceptions_only 1 (end_ 1) ex_empty InvalidOperation
              ex_empty) as (_ & Hit & _).
  split.
  - apply Hq. right. right. vm_compute. reflexivity.
  - apply Hit. left. reflexivity.
Defined.

Lemma reuse_after_drain_witness :
  ∃ m1 m2, pop_n 3 1 ex_123 = Ret [1; 2; 3] m1 ∧
           observes m1 1 [] ∧
           push_all 1 [4; 5] m1 = Ret () m2 ∧
           observes m2 1 [4; 5].
Proof.
  apply (reuse_after_drain ex_123 1 [1; 2; 3] [4; 5]).
  - exact ex_123_holds.
  - vm_compute. discriminate.
  - reflexivity.
Defined.

Lemma queue_shape_witness :
  ∃ cs, chain (nodes ex_123) (Some 1%positive) cs ∧
        NoDup cs.*1 ∧
        3 = Z.of_nat (length cs) ∧
        0 ≤ 3 ≤ INT_MAX ∧
        (3 ≠ 0 →
         Some 3%positive = last cs.*1 ∧
         (Some 1%positive = Some 3%positive ↔ 3 = 1)).
Proof.
  apply (queue_shape ex_123 1
           (mkQueue (Some 1%positive) (Some 3%positive) 3)).
  - exact ex_123_reachable.
  - vm_compute. reflexivity.
Defined.

Lemma copy_allocates_fresh_chain_witness :
  ∃ c m1, Queue_copy 10 1 ex_123 = Ret c m1 ∧
          queues ex_123 !! c = None ∧
          (∀ l, is_Some (nodes ex_123 !! l) →
                nodes m1 !! l = nodes ex_123 !! l) ∧
          (∀ r, r ≠ c → queues m1 !! r = queues ex_123 !! r) ∧
          ∃ qc cs, queues m1 !! c = Some qc ∧
                   chain (nodes m1) (m_front qc) cs ∧
                   ∀ l, l ∈ cs.*1 → nodes ex_123 !! l = None.
Proof.
  assert (∃ c m1, Queue_copy 10 1 ex_123 = Ret c m1) as (c & m1 & Hrun)
    by (do 2 eexists; vm_compute; reflexivity).
  exists c, m1. split; [exact Hrun|].
  apply (copy_allocates_fresh_chain ex_123 1 10 c m1 ex_123_reachable
           ltac:(eexists; vm_compute; reflexivity) Hrun).
Defined.

Lemma assign_releases_old_nodes_witness :
  ∃ r m', operator_assign 10 1 2 ex_two = Ret r m' ∧
          (∀ l, l ∈ [1; 2; 3]%positive → nodes m' !! l = None) ∧
          (∀ l, is_Some (nodes ex_two !! l) → l ∉ [1; 2; 3]%positive →
                nodes m' !! l = nodes ex_two !! l).
Proof.
  assert (∃ r m', operator_assign 10 1 2 ex_two = Ret r m')
    as (r & m' & Hrun) by (do 2 eexists; vm_compute; reflexivity).
  exists r, m'. split; [exact Hrun|].
  apply (assign_releases_old_nodes ex_two 1 2
           (mkQueue (Some 1%positive) (Some 3%positive) 3)
           [(1%positive, 1); (2%positive, 2); (3%positive, 3)] 10 r m'
           ex_two_reachable).
  - vm_compute. reflexivity.
  - exact ex_two_chain_1.
  - eexists. vm_compute. reflexivity.
  - discriminate.
  - exact Hrun.
Defined.

Lemma transform_replaces_nodes_witness :
  ∃ m', transform 10 1 (λ x, 2 * x) ex_123 = Ret () m' ∧
        (∀ l, l ∈ [1; 2; 3]%positive → nodes m' !! l = None) ∧
        (∀ l, is_Some (nodes ex_123 !! l) → l ∉ [1; 2; 3]%positive →
              nodes m' !! l = nodes ex_123 !! l) ∧
        ∃ q' cs', queues m' !! 1%positive = Some q' ∧
                  chain (nodes m') (m_front q') cs' ∧
                  ∀ l, l ∈ cs'.*1 → l ∉ [1; 2; 3]%positive.
Proof.
  assert (∃ m', transform 10 1 (λ x, 2 * x) ex_123 = Ret () m')
    as (m' & Hrun) by (eexists; vm_compute; reflexivity).
  exists m'. split; [exact Hrun|].
  apply (transform_replaces_nodes ex_123 1
           (mkQueue (Some 1%positive) (Some 3%positive) 3)
           [(1%positive, 1); (2%positive, 2); (3%positive, 3)]
           (λ x, 2 * x) 10 m' ex_123_reachable).
  - vm_compute. reflexivity.
  - exact ex_123_chain.
  - exact Hrun.
Defined.

Lemma iterators_after_mutation_witness :
  ∃ it, (it0 ← begin 1; advance 1 it0) ex_123 = Ret it ex_123 ∧
        (r ← operator_star it; read_ref r) ex_123 = Ret 2 ex_123 ∧
        (∀ v m', pushBack 1 v ex_123 = Ret () m' →
           (it0 ← begin 1; advance 1 it0) m' = Ret it m' ∧
           (r ← operator_star it; read_ref r) m' = Ret 2 m') ∧
        (∀ m', popFront 1 ex_123 = Ret () m' →
           (it0 ← begin 1; advance 0 it0) m' = Ret it m' ∧
           (r ← operator_star it; read_ref r) m' = Ret 2 m').
Proof.
  exact (iterators_after_mutation ex_123 1 [1; 2; 3] 1 2 ex_123_holds eq_refl).
Defined.

Lemma filter_allocates_fresh_chain_witness :
  ∃ c m1, filter 10 1 (λ v, 1 <? v) ex_123 = Ret c m1 ∧
          queues ex_123 !! c = None ∧
          (∀ l, is_Some (nodes ex_123 !! l) →
                nodes m1 !! l = nodes ex_123 !! l) ∧
          (∀ r, r ≠ c → queues m1 !! r = queues ex_123 !! r) ∧
          ∃ qc cs, queues m1 !! c = Some qc ∧
                   chain (nodes m1) (m_front qc) cs ∧
                   ∀ l, l ∈ cs.*1 → nodes ex_123 !! l = None.
Proof.
  assert (∃ c m1, filter 10 1 (λ v, 1 <? v) ex_123 = Ret c m1)
    as (c & m1 & Hrun) by (do 2 eexists; vm_compute; reflexivity).
  exists c, m1. split; [exact Hrun|].
  apply (filter_allocates_fresh_chain ex_123 1 _ 10 c m1 ex_123_reachable
           ltac:(eexists; vm_compute; reflexivity) Hrun).
Defined.

Lemma pushBack_links_new_node_witness :
  ∃ l m',
    nodes ex_123 !! l = None ∧
    pushBack 1 4 ex_123 = Ret () m' ∧
    plan m' = tail (plan ex_123) ∧
    ∃ r x, Some 3%positive = Some r ∧
           nodes ex_123 !! r = Some (mkNode x None) ∧
           r ≠ l ∧
           nodes m' = <[r := mkNode x (Some l)]>
                        (<[l := mkNode 4 None]> (nodes ex_123)) ∧
           queues m' = <[1%positive := mkQueue (Some 1%positive) (Some l) (3 + 1)]>
                         (queues ex_123).
Proof.
  exact (pushBack_links_new_node ex_123 1
           (mkQueue (Some 1%positive) (Some 3%positive) 3) 4
           ex_123_reachable ltac:(vm_compute; reflexivity)
           ltac:(vm_compute; reflexivity) ltac:(vm_compute; congruence)).
Defined.

Lemma pushBack_at_INT_MAX_witness :
  pushBack 1 0
    (mkMem {[1%positive := mkNode 0 None]}
           {[1%positive := mkQueue (Some 1%positive) (Some 1%positive) INT_MAX]}
           []) = Fault.
Proof.
  apply (pushBack_at_INT_MAX _ 1 (mkQueue (Some 1%positive) (Some 1%positive) INT_MAX)
           1%positive (mkNode 0 None) 0);
    [vm_compute; reflexivity|reflexivity|reflexivity|vm_compute; reflexivity
    |simpl; congruence].
Defined.

(** ** With user code that throws *)

Lemma ex_after_throw_reachable : User.reachable ex_after_throw.
Proof.
  apply (User.reach_filter ex_123 ex_copy_throws true 10 1 ex_predict_throws).
  - apply reachable_user, ex_123_reachable.
  - eexists. vm_compute. reflexivity.
  - by left.
  - vm_compute. reflexivity.
Qed.

Lemma ex_pair_reachable : reachable ex_pair.
Proof. apply run_calls_reachable, reach_init. Qed.

Lemma ex_copy_bad_alloc_only : User.only_bad_alloc ex_copy_bad_alloc.
Proof.
  intros v e. unfold ex_copy_bad_alloc.
  destruct (v =? 6); congruence.
Qed.

Lemma nodes_owned_by_one_queue_witness :
  ∃ r q cs, queues ex_after_throw !! r = Some q ∧
            chain (nodes ex_after_throw) (m_front q) cs ∧
            2%positive ∈ cs.*1 ∧
            ∀ r' q' cs', queues ex_after_throw !! r' = Some q' →
                         chain (nodes ex_after_throw) (m_front q') cs' →
                         2%positive ∈ cs'.*1 → r' = r.
Proof.
  apply (nodes_owned_by_one_queue ex_after_throw 2 ex_after_throw_reachable).
  eexists. vm_compute. reflexivity.
Defined.

Lemma pushBack_strong_guarantee_witness :
  (∃ m', User.pushBack ex_copy_throws 1 3 ex_123 = Ret () m' ∧
         head (plan ex_123) ≠ Some false ∧ ex_copy_throws 3 = None ∧
         observes m' 1 ([1; 2; 3] ++ [3])) ∨
  (∃ e m', User.pushBack ex_copy_throws 1 3 ex_123 = Throw e m' ∧
           nodes m' = nodes ex_123 ∧ queues m' = queues ex_123 ∧
           (head (plan ex_123) = Some false ∧ e = bad_alloc ∨
            head (plan ex_123) ≠ Some false ∧ ex_copy_throws 3 = Some e)).
Proof.
  apply (pushBack_strong_guarantee ex_copy_throws ex_123 1 [1; 2; 3] 3
           ex_123_holds).
  simpl. unfold INT_MAX. lia.
Defined.


Lemma assignment_exceptions_witness :
  ∃ m', User.operator_assign ex_copy_throws 10 2 1 ex_pair
        = Throw InvalidOperation m' ∧
    2%positive ≠ 1%positive ∧
    User.Queue_copy ex_copy_throws 10 1 ex_pair = Throw InvalidOperation m' ∧
    queues m' = queues ex_pair ∧
    (∀ l, is_Some (nodes ex_pair !! l) → nodes m' !! l = nodes ex_pair !! l) ∧
    (InvalidOperation = bad_alloc → nodes m' = nodes ex_pair).
Proof.
  assert (∃ m', User.operator_assign ex_copy_throws 10 2 1 ex_pair
                = Throw InvalidOperation m') as [m' Hrun]
    by (eexists; vm_compute; reflexivity).
  exists m'. split; [exact Hrun|].
  apply (assignment_exceptions ex_copy_throws ex_pair 2 1 10
           InvalidOperation m' (reachable_user _ ex_pair_reachable)).
  - eexists. vm_compute. reflexivity.
  - eexists. vm_compute. reflexivity.
  - exact Hrun.
Defined.

Lemma filter_exceptions_restore_memory_witness :
  ∃ m', User.filter ex_copy_throws true 10 1 ex_predict_throws ex_123
        = Throw EmptyQueue m' ∧
        nodes m' = nodes ex_123 ∧ queues m' = queues ex_123.
Proof.
  assert (∃ m', User.filter ex_copy_throws true 10 1 ex_predict_throws ex_123
                = Throw EmptyQueue m') as [m' Hrun]
    by (eexists; vm_compute; reflexivity).
  exists m'. split; [exact Hrun|].
  apply (filter_exceptions_restore_memory ex_copy_throws true ex_123 1
           ex_predict_throws 10 EmptyQueue m'
           (reachable_user _ ex_123_reachable)).
  - eexists. vm_compute. reflexivity.
  - left. reflexivity.
  - exact Hrun.
Defined.

Lemma transform_exceptions_restore_memory_witness :
  ∃ m', User.transform ex_copy_bad_alloc 10 1 ex_transformer_throws ex_123_low
        = Throw EmptyQueue m' ∧
        nodes m' = nodes ex_123_low ∧ queues m' = queues ex_123_low.
Proof.
  assert (∃ m', User.transform ex_copy_bad_alloc 10 1 ex_transformer_throws
                  ex_123_low = Throw EmptyQueue m') as [m' Hrun]
    by (eexists; vm_compute; reflexivity).
  exists m'. split; [exact Hrun|].
  apply (transform_exceptions_restore_memory ex_copy_bad_alloc ex_123_low 1
           ex_transformer_throws 10 EmptyQueue m'
           (reachable_user _ ex_123_low_reachable)).
  - eexists. vm_compute. reflexivity.
  - exact ex_copy_bad_alloc_only.
  - exact Hrun.
Defined.
